(** * ASMD: corpus filtering, ground-truth materialisation and record merge

    A shallow embedding of [asmd/utils.py], [asmd/dataset_utils.py] and
    [convert_gt.py], and the properties of the specification settled on it.

    Conventions of the embedding:
    - a Python call that may raise returns a [result]: [Ok v] or [Raise e];
    - Python floats are embedded as rationals [Q] with exact operations:
      the embedding agrees with the code where no operation of the code
      rounds, and every property of a computed time or frame is stated on
      such inputs (integers, and times in whole hops of a power of two, of
      bounded magnitude);
    - a NumPy 2-d array is a list of rows, each row a list of cells;
    - dictionaries whose keys are fixed literals in the code are records,
      dictionaries indexed by a key chosen at run time are finite maps or
      association lists, and a failed lookup raises [KeyError]. *)

From Stdlib Require Import QArith Qround Qpower Lqa Sorted Permutation Ascii.
From stdpp Require Import gmap strings list fin_maps.

Set Warnings "-register-all".

Open Scope string_scope.
Open Scope list_scope.
Open Scope Z_scope.

(** ** Python outcomes *)

Inductive exn : Type :=
| IndexError
| KeyError
| ValueError
| TypeError
| AttributeError
| ZeroDivisionError
| RecursionError
| AssertionError (msg : string).

Inductive result (A : Type) : Type :=
| Ok (a : A)
| Raise (e : exn).
Arguments Ok {A} a.
Arguments Raise {A} e.

Definition rbind {A B} (r : result A) (k : A -> result B) : result B :=
  match r with
  | Ok a => k a
  | Raise e => Raise e
  end.

Notation "x <-! r ; k" := (rbind r (fun x => k))
  (at level 100, r at next level, right associativity, only parsing).

(** [for x in l: acc = body(acc, x)] where the body may raise. *)
Fixpoint for_each {A S} (body : S -> A -> result S) (l : list A) (s : S)
  : result S :=
  match l with
  | [] => Ok s
  | x :: l' => s' <-! body s x; for_each body l' s'
  end.

(** [len(l)] as a Python integer. *)
Definition len {A} (l : list A) : Z := Z.of_nat (length l).

(** ** Python numeric built-ins on rationals *)

(** [round(x)]: nearest integer, ties to the even one. *)
Definition py_round (x : Q) : Z :=
  let f := Qfloor x in
  match Qcompare (x - inject_Z f) (1 # 2) with
  | Lt => f
  | Gt => f + 1
  | Eq => if Z.even f then f else f + 1
  end.

(** [int(x)]: truncation towards zero. *)
Definition py_int (x : Q) : Z := Z.quot (Qnum x) (Z.pos (Qden x)).

(** ** asmd/utils.py *)

(** The three conversions between times and frames, in exact arithmetic:
    where an operation of the code rounds in binary64, the code may return
    a neighbouring frame or another count. *)
Module utils.

Definition nframes (dur hop_size win_len : Q) : result Q :=
  if Qeq_bool hop_size 0 then Raise ZeroDivisionError
  else Ok ((dur - win_len) / hop_size + 1)%Q.

Definition frame2time (frame : Z) (hop_size win_len : Q) : Q :=
  (inject_Z frame * hop_size + win_len / 2)%Q.

Definition time2frame (time hop_size win_len : Q) : result Z :=
  if Qeq_bool hop_size 0 then Raise ZeroDivisionError
  else Ok (py_round ((time - win_len / 2) / hop_size)%Q).

End utils.

(** ** Ground-truth records *)

(** One annotation variant: [gt[kind]] with its four literal keys. *)
Record Score : Type := mkScore {
  pitches : list Q;
  onsets : list Q;
  offsets : list Q;
  velocities : list Q
}.

(** One pedal track: [gt[pedal]] with keys ['times'] and ['values']. *)
Record Pedal : Type := mkPedal {
  times : list Q;
  values : list Q
}.

(** One ground-truth dictionary of a song (one per source). *)
Record GroundTruth : Type := mkGroundTruth {
  instrument : Q;
  precise_alignment : Score;
  broad_alignment : Score;
  misaligned : Score;
  score : Score;
  sustain : Pedal;
  sostenuto : Pedal;
  soft : Pedal
}.

(** [gt[kind]['pitches']] and the like start with the lookup [gt[kind]] of a
    key chosen at run time: the four variants are there, [gt['instrument']]
    is a number and cannot be indexed, a pedal track has none of a variant's
    keys, anything else is absent. *)
Definition gt_variant (gt : GroundTruth) (kind : string) : result Score :=
  if String.eqb kind "precise_alignment" then Ok (precise_alignment gt)
  else if String.eqb kind "broad_alignment" then Ok (broad_alignment gt)
  else if String.eqb kind "misaligned" then Ok (misaligned gt)
  else if String.eqb kind "score" then Ok (score gt)
  else if String.eqb kind "instrument" then Raise TypeError
  else Raise KeyError.

(** [l[0]] *)
Definition first {A} (l : list A) : result A :=
  match l with
  | x :: _ => Ok x
  | [] => Raise IndexError
  end.

(** [x in l] for a list of strings. *)
Definition str_in (x : string) (l : list string) : bool :=
  existsb (String.eqb x) l.

(** ** NumPy arrays as lists *)

Abbreviation matrix := (list (list Q)).

(** The out-of-domain marker of an absent value. *)
Definition sentinel : Q := (-255)%Q.

(** [np.append(l, [-255] * k)]: a Python list times a negative count is
    empty. *)
Definition append_sentinels (l : list Q) (k : Z) : list Q :=
  l ++ repeat sentinel (Z.to_nat k).

(** [np.full_like(l, x)] *)
Definition full_like (l : list Q) (x : Q) : list Q := repeat x (length l).

(** [np.array(cols)] on a list of 1-d arrays: a 2-d array when the lengths
    agree.  On ragged input NumPy (1.24 and later) raises [ValueError];
    earlier versions build a 1-d array of objects, on which the indexing
    [mat[:, 1]] (or [np.concatenate(..., axis=1)]) of the caller raises: in
    both cases the caller does not return. *)
Definition rectangular (cols : list (list Q)) : bool :=
  match cols with
  | [] => true
  | c :: cs => forallb (fun c' => Nat.eqb (length c') (length c)) cs
  end.

Definition np_array (cols : list (list Q)) : result matrix :=
  if rectangular cols then Ok cols else Raise ValueError.

(** [np.concatenate(blocks, axis=1)]: the rows of the blocks are joined. *)
Fixpoint zip_app (a b : matrix) : matrix :=
  match a, b with
  | ra :: a', rb :: b' => (ra ++ rb) :: zip_app a' b'
  | _, _ => []
  end.

Definition concatenate_axis1 (blocks : list matrix) : matrix :=
  match blocks with
  | [] => []
  | b :: bs => fold_left zip_app bs b
  end.

(** [m.T] for a 2-d array. *)
Definition width (m : matrix) : nat :=
  match m with
  | [] => 0
  | r :: _ => length r
  end.

Definition cell (r : list Q) (j : nat) : Q := nth j r 0%Q.

Definition transpose (m : matrix) : matrix :=
  map (fun j => map (fun r => cell r j) m) (seq 0 (width m)).

(** [m[:, j]] *)
Definition column (j : nat) (m : matrix) : list Q :=
  map (fun r => cell r j) m.

(** [m[idx]] for an array of row indices. *)
Definition take_rows (m : matrix) (idx : list nat) : matrix :=
  map (fun i => nth i m []) idx.

(** ** The corpus: datasets, songs, paths and chunks *)

(** [d[key]] for a key the dictionary may lack. *)
Definition require {A} (o : option A) : result A :=
  match o with
  | Some x => Ok x
  | None => Raise KeyError
  end.

(** [l[i]] for [0 <= i]. *)
Definition get_item {A} (l : list A) (i : nat) : result A :=
  match l !! i with
  | Some x => Ok x
  | None => Raise IndexError
  end.

(** [l.index(x)] on a list of strings. *)
Fixpoint index_of (x : string) (l : list string) : result nat :=
  match l with
  | [] => Raise ValueError
  | y :: l' => if String.eqb x y then Ok 0%nat
               else i <-! index_of x l'; Ok (S i)
  end.

(** [p in s] on strings: [p] occurs in [s]. *)
Fixpoint is_substring (p s : string) : bool :=
  String.prefix p s ||
  match s with
  | EmptyString => false
  | String _ s' => is_substring p s'
  end.

(** A song of a dataset.  Only ['included'] is required of a song; the keys
    read by a filter are looked up when that filter is used. *)
Record Song : Type := mkSong {
  s_included : bool;
  s_instruments : option (list string);
  s_composer : option string;
  s_groups : option (list string);
  s_ground_truth : list GroundTruth;
  s_recording : option string;        (* song['recording']['path'] *)
  s_sources : option (list string)    (* song['sources']['path'] *)
}.

(** A dataset of the corpus; ['ensemble'] and ['ground_truth'] are
    optional keys. *)
Record Dataset : Type := mkDataset {
  d_name : string;
  d_included : bool;
  d_ensemble : option bool;
  d_ground_truth : option (gmap string Z);
  d_songs : list Song
}.

(** The three cells of a row of [paths]. *)
Inductive mix_cell : Type :=
| MixEmpty                          (* [] *)
| MixPath (p : string).
Inductive source_cell : Type :=
| SourceList (ps : list string)     (* [] or every source path *)
| SourceOne (p : string).
Inductive gts_cell : Type :=
| GtsAll (gts : list GroundTruth)
| GtsOne (gt : GroundTruth).

Record path_row : Type := mkRow {
  r_mix : mix_cell;
  r_source : source_cell;
  r_gts : gts_cell
}.

(** The object filtered: [paths], [_chunks] and [datasets]. *)
Record Corpus : Type := mkCorpus {
  paths : list path_row;
  chunks : gmap string (nat * nat);
  datasets : list Dataset
}.

(** The keyword arguments of [filter].  [ground_truth] is iterated as a
    sequence of pairs [(kind, level)]. *)
Record criteria : Type := mkCriteria {
  c_instruments : list string;
  c_ensemble : option bool;
  c_mixed : bool;
  c_sources : bool;
  c_all : bool;
  c_composer : string;
  c_datasets : list string;
  c_groups : list string;
  c_ground_truth : list (string * Z);
  c_copy : bool
}.

(** [enumerate(l)] *)
Definition enumerate {A} (l : list A) : list (nat * A) :=
  combine (seq 0 (length l)) l.

(** [l[a:b]] on a sequence: a negative bound counts from the end, a bound
    beyond an end stops there. *)
Definition slice_index (n i : Z) : Z :=
  if i <? 0 then Z.max (i + n) 0 else Z.min i n.

Definition py_slice {A} (l : list A) (a b : Z) : list A :=
  let lo := slice_index (len l) a in
  let hi := slice_index (len l) b in
  take (Z.to_nat (hi - lo)) (drop (Z.to_nat lo) l).

(** ** asmd/utils.py: notes of a MIDI file *)

(** [pretty_midi.Note(velocity, pitch, start, end)] *)
Record Note : Type := mkNote {
  n_velocity : Z;
  n_pitch : Z;
  n_start : Q;
  n_end : Q
}.

Module utils_midi.

(** [notes.sort(key=lambda x: x.start)]: stable. *)
Fixpoint insert_by_start (n : Note) (l : list Note) : list Note :=
  match l with
  | [] => [n]
  | n' :: l' =>
      if Qle_bool (n_start n) (n_start n') then n :: n' :: l'
      else n' :: insert_by_start n l'
  end.

Definition sort_by_start (l : list Note) : list Note :=
  fold_right insert_by_start [] l.

(** The loop of [group_notes_by_onest] over [notes[1:]]: it ends with the
    groups appended so far and the group being filled. *)
Fixpoint group_loop (notes : list Note) (output : list (list Note))
    (inner_list : list Note) (last_onset : Q)
  : list (list Note) * list Note :=
  match notes with
  | [] => (output, inner_list)
  | n :: notes' =>
      if Qeq_bool (n_start n) last_onset
      then group_loop notes' output (inner_list ++ [n]) last_onset
      else group_loop notes' (output ++ [inner_list]) [n] (n_start n)
  end.

(** [group_notes_by_onest(notes)]; the list passed is sorted in place, the
    value returned is [output]. *)
Definition group_notes_by_onest (notes : list Note)
  : result (list (list Note)) :=
  let notes := sort_by_start notes in
  n0 <-! first notes;
  Ok (fst (group_loop (drop 1 notes) [] [n0] (n_start n0))).

(** The tracks [open_midi] returns: the groups of one merged track, or the
    groups of each track. *)
Inductive tracks : Type :=
| Merged (groups : list (list Note))
| PerTrack (groups : list (list (list Note))).

(** [considered_tracks]: a slice; [slice(None)] is every track, an integer
    [k] becomes [slice(k, k + 1)]. *)
Inductive track_choice : Type :=
| AllTracks
| TrackNumber (k : Z)
| TrackSlice (a b : Z).

Definition choose_tracks {A} (instruments : list A) (c : track_choice)
  : list A :=
  match c with
  | AllTracks => instruments
  | TrackNumber k => py_slice instruments k (k + 1)
  | TrackSlice a b => py_slice instruments a b
  end.

(** [open_midi(midi_fn, considered_tracks, merge)] on the note lists
    [instruments] of the tracks that [pretty_midi] reads from the file. *)
Definition open_midi (instruments : list (list Note))
    (considered_tracks : track_choice) (merge : bool) : result tracks :=
  let chosen := choose_tracks instruments considered_tracks in
  if merge then
    g <-! group_notes_by_onest (concat chosen);
    Ok (Merged g)
  else
    gs <-! for_each
             (fun (done : list (list (list Note))) (notes : list Note) =>
                g <-! group_notes_by_onest notes; Ok (done ++ [g]))
             chosen [];
    Ok (PerTrack gs).

End utils_midi.

(** ** asmd/dataset_utils.py: selection of the score type *)

Module dataset_utils.

(** [len(gts[0][kind]['pitches']) > 0] *)
Definition has_pitches (gts : list GroundTruth) (kind : string)
  : result bool :=
  gt <-! first gts;
  s <-! gt_variant gt kind;
  Ok (0 <? len (pitches s)).

(** [kind in score_type and len(gts[0][kind]['pitches']) > 0]: the right
    operand is evaluated only when the left one holds. *)
Definition requested_and_present (score_type : list string)
    (gts : list GroundTruth) (kind : string) : result bool :=
  if str_in kind score_type then has_pitches gts kind else Ok false.

Definition chose_score_type (score_type : list string)
    (gts : list GroundTruth) : result string :=
  if 1 <? len score_type then
    c <-! requested_and_present score_type gts "precise_alignment";
    if (c : bool) then Ok "precise_alignment" else
    c <-! requested_and_present score_type gts "broad_alignment";
    if (c : bool) then Ok "broad_alignment" else
    c <-! requested_and_present score_type gts "misaligned";
    if (c : bool) then Ok "misaligned" else
    Ok "score"
  else first score_type.

(** ** Score matrix *)

(** The body of the loop over the ground truths of [get_score_mat], up to
    the six columns handed to [np.array]. *)
Definition score_columns (i : nat) (gt : GroundTruth) (s : Score)
  : list (list Q) :=
  let pitches0 := pitches s in
  let ons0 := onsets s in
  let ons1 := if len ons0 =? 0 then full_like pitches0 sentinel else ons0 in
  let missing := len pitches0 - len ons1 in
  let pitches1 :=
    if missing <? 0 then append_sentinels pitches0 (- missing)
    else pitches0 in
  let ons2 :=
    if missing <? 0 then ons1
    else if 0 <? missing then append_sentinels ons1 missing
    else ons1 in
  let offs0 := append_sentinels (offsets s) missing in
  let offs1 := if len offs0 =? 0 then full_like ons2 sentinel else offs0 in
  let vel0 := append_sentinels (velocities s) missing in
  let vel1 := if len vel0 =? 0 then full_like ons2 sentinel else vel0 in
  let missing' := len pitches1 - len vel1 in
  let pitches2 :=
    if missing' <? 0 then append_sentinels pitches1 (- missing')
    else pitches1 in
  let ons3 :=
    if missing' <? 0 then append_sentinels ons2 (- missing') else ons2 in
  let offs2 :=
    if missing' <? 0 then append_sentinels offs1 (- missing') else offs1 in
  let vel2 :=
    if missing' <? 0 then vel1
    else if 0 <? missing' then append_sentinels vel1 missing'
    else vel1 in
  let num := full_like ons3 (inject_Z (Z.of_nat i)) in
  let instr := full_like ons3 (instrument gt) in
  [pitches2; ons3; offs2; vel2; instr; num].

(** The loop: one 6 x n block per ground truth, appended to [mat]. *)
Definition score_blocks (kind : string) (gts : list GroundTruth)
  : result (list matrix) :=
  for_each
    (fun (mat : list matrix) (p : nat * GroundTruth) =>
       s <-! gt_variant (snd p) kind;
       block <-! np_array (score_columns (fst p) (snd p) s);
       Ok (mat ++ [block]))
    (enumerate gts) [].

(** The rows before the final ordering: the blocks joined, one row per
    note. *)
Definition score_rows (kind : string) (gts : list GroundTruth)
  : result matrix :=
  mat <-! score_blocks kind gts;
  mat' <-! (if 1 <? len mat then Ok (concatenate_axis1 mat) else first mat);
  Ok (transpose mat').

Section Ordering.

(** [ndarray.argsort()] of NumPy, with its default sort kind. *)
Variable argsort : list Q -> list nat.

(** [dataset.get_gts(idx)] is passed as [gts]. *)
Definition get_score_mat (gts : list GroundTruth)
    (score_type : list string) : result matrix :=
  kind <-! chose_score_type score_type gts;
  mat <-! score_rows kind gts;
  Ok (take_rows mat (argsort (column 1 mat))).

End Ordering.

(** ** Pedaling matrix *)

Fixpoint zip4 (a b c d : list Q) : matrix :=
  match a, b, c, d with
  | x :: a', y :: b', z :: c', w :: d' => [x; y; z; w] :: zip4 a' b' c' d'
  | _, _, _, _ => []
  end.

(** [[-1] * l] *)
Definition minus_ones (l : nat) : list Q := repeat (-1)%Q l.

(** The control changes of one ground truth, pedal after pedal. *)
Definition cc_of_track (gt : GroundTruth) : matrix :=
  let l1 := length (values (sustain gt)) in
  let l2 := length (values (sostenuto gt)) in
  let l3 := length (values (soft gt)) in
  zip4 (times (sustain gt)) (values (sustain gt))
       (minus_ones l1) (minus_ones l1)
  ++ zip4 (times (sostenuto gt)) (minus_ones l2)
       (values (sostenuto gt)) (minus_ones l2)
  ++ zip4 (times (soft gt)) (minus_ones l3) (minus_ones l3)
       (values (soft gt)).

(** [list.sort(key=lambda row: row[0])]: stable. *)
Fixpoint insert_by_time (r : list Q) (l : matrix) : matrix :=
  match l with
  | [] => [r]
  | r' :: l' =>
      if Qle_bool (cell r 0) (cell r' 0) then r :: r' :: l'
      else r' :: insert_by_time r l'
  end.

Definition sort_by_time (l : matrix) : matrix :=
  fold_right insert_by_time [] l.

(** [np.argmax(v)]: the first index of the maximum. *)
Fixpoint argmax_from (best : nat) (bestv : Q) (i : nat) (v : list Q) : nat :=
  match v with
  | [] => best
  | x :: v' =>
      if Qlt_le_dec bestv x then argmax_from i x (S i) v'
      else argmax_from best bestv (S i) v'
  end.

Definition argmax (v : list Q) : nat :=
  match v with
  | [] => 0%nat
  | x :: v' => argmax_from 0 x 1 v'
  end.

(** A slice bound on a sequence of length [n]. *)
Definition slice_bound (n i : Z) : Z :=
  if i <? 0 then Z.max (i + n) 0 else Z.min i n.

(** [m[a:b, col] = v]; [b = None] is the open slice [m[a:, col] = v]. *)
Definition assign_slice (m : matrix) (a : Z) (b : option Z) (col : nat)
    (v : Q) : matrix :=
  let n := len m in
  let lo := slice_bound n a in
  let hi := match b with Some b' => slice_bound n b' | None => n end in
  imap (fun k row =>
          if (lo <=? Z.of_nat k) && (Z.of_nat k <? hi)
          then <[col := v]> row else row) m.

(** [last_values[type_of_cc]]: the frame and the value of the last change
    of one pedal. *)
Record last_value : Type := mkLast { l_time : Z; l_value : Q }.

Definition last_values_init : gmap nat last_value :=
  {[ 1%nat := mkLast 0 0%Q; 2%nat := mkLast 0 0%Q; 3%nat := mkLast 0 0%Q ]}.

Definition get_last (lv : gmap nat last_value) (k : nat)
  : result last_value :=
  match lv !! k with
  | Some x => Ok x
  | None => Raise KeyError
  end.

(** One control change of the loop [for cc in cc_track_pedaling]. *)
Definition apply_cc (hop winlen : Q)
    (st : matrix * gmap nat last_value) (cc : list Q)
  : result (matrix * gmap nat last_value) :=
  let '(frames, lv) := st in
  frame_idx <-! utils.time2frame (cell cc 0) hop winlen;
  let type_of_cc := (argmax (drop 1 cc) + 1)%nat in
  last <-! get_last lv type_of_cc;
  let frames' :=
    assign_slice frames (l_time last) (Some frame_idx) type_of_cc
      (l_value last) in
  Ok (frames', <[type_of_cc := mkLast frame_idx (cell cc type_of_cc)]> lv).

(** The last values held to the end, for the three pedals in turn. *)
Definition hold_to_end (st : matrix * gmap nat last_value)
    (type_of_cc : nat) : result (matrix * gmap nat last_value) :=
  let '(frames, lv) := st in
  last <-! get_last lv type_of_cc;
  Ok (assign_slice frames (l_time last) None type_of_cc (l_value last), lv).

(** [np.zeros((n_frames, 4))] with its column 0 set to
    [np.arange(n_frames) * hop + winlen / 2]. *)
Definition blank_frames (hop winlen : Q) (n_frames : nat) : matrix :=
  map (fun i => [(inject_Z (Z.of_nat i) * hop + winlen / 2)%Q; 0%Q; 0%Q; 0%Q])
      (seq 0 n_frames).

(** The frame-based matrix of one track; [dur] is
    [dataset.get_score_duration(idx)]. *)
Definition frame_track (dur winlen hop : Q) (cc_track : matrix)
  : result matrix :=
  nf <-! utils.nframes dur hop winlen;
  let n_frames := py_int nf + 1 in
  if n_frames <? 0 then Raise ValueError else
  let frames0 := blank_frames hop winlen (Z.to_nat n_frames) in
  st <-! for_each (apply_cc hop winlen) cc_track (frames0, last_values_init);
  st' <-! (if 0 <? len cc_track
           then for_each hold_to_end [1%nat; 2%nat; 3%nat] st
           else Ok st);
  Ok (fst st').

(** [dataset.get_gts(idx)] is passed as [gts]. *)
Definition get_pedaling_mat (gts : list GroundTruth) (dur : Q)
    (frame_based : bool) (winlen hop : Q) : result (list matrix) :=
  for_each
    (fun (pedaling : list matrix) (gt : GroundTruth) =>
       let cc_track := sort_by_time (cc_of_track gt) in
       if frame_based then
         m <-! frame_track dur winlen hop cc_track;
         Ok (pedaling ++ [m])
       else Ok (pedaling ++ [cc_track]))
    gts [].

(** ** Filtering a corpus *)

(** [for gt, val in ground_truth: if d['ground_truth'][gt] != val: ...] *)
Fixpoint check_ground_truth (reqs : list (string * Z)) (d : Dataset)
    (FLAG : bool) : result bool :=
  match reqs with
  | [] => Ok FLAG
  | (gt, val) :: reqs' =>
      m <-! require (d_ground_truth d);
      v <-! require ((m : gmap string Z) !! gt);
      if negb (v =? val) then Ok false
      else check_ground_truth reqs' d FLAG
  end.

(** The dataset-level [FLAG]. *)
Definition dataset_flag (cr : criteria) (d : Dataset) : result bool :=
  let FLAG := d_included d in
  let FLAG :=
    if 0 <? len (c_datasets cr) then str_in (d_name d) (c_datasets cr)
    else FLAG in
  FLAG <-! match c_ensemble cr with
           | Some e =>
               e' <-! require (d_ensemble d);
               Ok (if negb (Bool.eqb e e') then false else FLAG)
           | None => Ok FLAG
           end;
  check_ground_truth (c_ground_truth cr) d FLAG.

(** [for group in groups: if group not in song['groups']: ...] *)
Fixpoint check_groups (groups : list string) (song : Song) (FLAG : bool)
  : result bool :=
  match groups with
  | [] => Ok FLAG
  | group :: groups' =>
      gs <-! require (s_groups song);
      if negb (str_in group gs) then Ok false
      else check_groups groups' song FLAG
  end.

(** The song-level [FLAG]. *)
Definition song_flag (cr : criteria) (song : Song) : result bool :=
  let FLAG := s_included song in
  FLAG <-! match c_instruments cr with
           | [] => Ok FLAG
           | _ :: _ =>
               si <-! require (s_instruments song);
               Ok (if bool_decide (c_instruments cr = si) then FLAG
                   else false)
           end;
  FLAG <-! match c_composer cr with
           | EmptyString => Ok FLAG
           | String _ _ =>
               sc <-! require (s_composer song);
               Ok (if is_substring (c_composer cr) sc then FLAG else false)
           end;
  check_groups (c_groups cr) song FLAG.

(** The row appended for a song that passes. *)
Definition song_row (cr : criteria) (song : Song) : result path_row :=
  sg <-! match c_sources cr, s_sources song with
         | true, Some ps =>
             if c_all cr then Ok (SourceList ps, GtsAll (s_ground_truth song))
             else
               instrument <-! first (c_instruments cr);
               si <-! require (s_instruments song);
               idx <-! index_of instrument si;
               src <-! get_item ps idx;
               gt <-! get_item (s_ground_truth song) idx;
               Ok (SourceOne src, GtsOne gt)
         | _, _ => Ok (SourceList [], GtsAll (s_ground_truth song))
         end;
  mix <-! (if c_mixed cr then p <-! require (s_recording song); Ok (MixPath p)
           else Ok MixEmpty);
  Ok (mkRow mix (fst sg) (snd sg)).

Definition exclude_song (song : Song) : Song :=
  mkSong false (s_instruments song) (s_composer song) (s_groups song)
    (s_ground_truth song) (s_recording song) (s_sources song).

Definition exclude_dataset (d : Dataset) : Dataset :=
  mkDataset (d_name d) false (d_ensemble d) (d_ground_truth d) (d_songs d).

Definition with_songs (d : Dataset) (ss : list Song) : Dataset :=
  mkDataset (d_name d) (d_included d) (d_ensemble d) (d_ground_truth d) ss.

(** The state of the loop over the songs of a dataset: [end], [ret.paths]
    and the songs already visited. *)
Definition song_state : Type := nat * list path_row * list Song.

Definition filter_song (cr : criteria) (st : song_state) (song : Song)
  : result song_state :=
  let '(end_, ps, visited) := st in
  FLAG <-! song_flag cr song;
  if (FLAG : bool) then
    row <-! song_row cr song;
    Ok (S end_, ps ++ [row], visited ++ [song])
  else Ok (end_, ps, visited ++ [exclude_song song]).

(** The state of the loop over the datasets: [end], [ret.paths],
    [ret._chunks] and the datasets already visited. *)
Record filter_state : Type := mkState {
  st_end : nat;
  st_paths : list path_row;
  st_chunks : gmap string (nat * nat);
  st_visited : list Dataset
}.

Definition filter_dataset (cr : criteria) (st : filter_state) (d : Dataset)
  : result filter_state :=
  FLAG <-! dataset_flag cr d;
  if (FLAG : bool) then
    let chunks1 := <[d_name d := (st_end st, st_end st)]> (st_chunks st) in
    r <-! for_each (filter_song cr) (d_songs d)
            (st_end st, st_paths st, []);
    let '(end', ps', songs') := (r : song_state) in
    let chunks2 := alter (fun c => (fst c, end')) (d_name d) chunks1 in
    Ok (mkState end' ps' chunks2 (st_visited st ++ [with_songs d songs']))
  else
    Ok (mkState (st_end st) (st_paths st) (st_chunks st)
          (st_visited st ++ [exclude_dataset d])).

(** [filter(dataset, ...)]: the pair of the caller's object after the call
    and of the object returned.  They are one object unless [copy] is set,
    in which case the caller's object is left as it was. *)
Definition filter (dataset : Corpus) (cr : criteria)
  : result (Corpus * Corpus) :=
  st <-! for_each (filter_dataset cr) (datasets dataset)
           (mkState 0 [] (chunks dataset) []);
  let ret := mkCorpus (st_paths st) (st_chunks st) (st_visited st) in
  Ok (if c_copy cr then dataset else ret, ret).

End dataset_utils.

(** ** convert_gt.py: merging lists of partial records *)

(** [merge] mutates the dictionaries of its first argument in place and
    returns either that argument itself or a shallow copy of it: lists and
    dictionaries are objects of a store, and values refer to them. *)

Inductive val : Type :=
| VNone
| VNum (q : Q)
| VStr (s : string)
| VRef (l : nat).

Inductive obj : Type :=
| OList (items : list val)
| ODict (entries : list (string * val)).   (* keys in insertion order *)

Abbreviation heap := (list obj).

Module convert_gt.

(** [s.rfind(c)] for a one-character [c]: the last index of [c] in [s],
    -1 when there is none. *)
Fixpoint rfind_from (c : ascii) (s : string) (i last : Z) : Z :=
  match s with
  | EmptyString => last
  | String a s' =>
      rfind_from c s' (i + 1) (if Ascii.eqb a c then i else last)
  end.

Definition rfind (c : ascii) (s : string) : Z := rfind_from c s 0 (-1).

Fixpoint str_take (n : nat) (s : string) : string :=
  match n, s with
  | S n', String a s' => String a (str_take n' s')
  | _, _ => EmptyString
  end.

(** [s[:k]] *)
Definition str_upto (s : string) (k : Z) : string :=
  let n := Z.of_nat (String.length s) in
  str_take (Z.to_nat (if k <? 0 then Z.max (k + n) 0 else Z.min k n)) s.

(** [change_ext(input_fn, new_ext)] *)
Definition change_ext (input_fn new_ext : string) : string :=
  let root := str_upto input_fn (rfind "-"%char input_fn) in
  let new_ext :=
    if negb (String.prefix "." new_ext) then String.append "." new_ext
    else new_ext in
  String.append root new_ext.

(** A new object. *)
Definition alloc (o : obj) (h : heap) : nat * heap := (length h, h ++ [o]).

(** [type(v) is list], [type(v) is dict] *)
Definition is_list (h : heap) (v : val) : bool :=
  match v with
  | VRef l => match h !! l with Some (OList _) => true | _ => false end
  | _ => false
  end.

Definition is_dict (h : heap) (v : val) : bool :=
  match v with
  | VRef l => match h !! l with Some (ODict _) => true | _ => false end
  | _ => false
  end.

(** The items of a list object. *)
Definition items_of (h : heap) (v : val) : result (list val) :=
  match v with
  | VRef l => match h !! l with
              | Some (OList xs) => Ok xs
              | _ => Raise TypeError
              end
  | _ => Raise TypeError
  end.

(** [d.keys()]: only a dictionary has the method. *)
Definition keys_of (h : heap) (v : val) : result (list string) :=
  match v with
  | VRef l => match h !! l with
              | Some (ODict es) => Ok (map fst es)
              | _ => Raise AttributeError
              end
  | _ => Raise AttributeError
  end.

Fixpoint assoc (key : string) (es : list (string * val)) : option val :=
  match es with
  | [] => None
  | (k, v) :: es' => if String.eqb key k then Some v else assoc key es'
  end.

Fixpoint assoc_set (key : string) (x : val) (es : list (string * val))
  : list (string * val) :=
  match es with
  | [] => [(key, x)]
  | (k, v) :: es' =>
      if String.eqb key k then (k, x) :: es'
      else (k, v) :: assoc_set key x es'
  end.

(** [v[key]] for a string key: a dictionary is looked up, nothing else can
    be indexed by a string. *)
Definition subscript (h : heap) (v : val) (key : string) : result val :=
  match v with
  | VRef l => match h !! l with
              | Some (ODict es) => require (assoc key es)
              | _ => Raise TypeError
              end
  | _ => Raise TypeError
  end.

(** [v[i]] for a list. *)
Definition item (h : heap) (v : val) (i : nat) : result val :=
  xs <-! items_of h v; get_item xs i.

(** [d[key] = x] *)
Definition set_key (h : heap) (d : val) (key : string) (x : val)
  : result heap :=
  match d with
  | VRef l => match h !! l with
              | Some (ODict es) => Ok (<[l := ODict (assoc_set key x es)]> h)
              | _ => Raise TypeError
              end
  | _ => Raise TypeError
  end.

(** [l.append(x)] for the list object at [l]. *)
Definition append (h : heap) (l : nat) (x : val) : result heap :=
  match h !! l with
  | Some (OList xs) => Ok (<[l := OList (xs ++ [x])]> h)
  | _ => Raise AttributeError
  end.

(** [all(len(x) == len(args[0]) for x in args[1:])] *)
Definition same_lengths (h : heap) (args : list val) : result bool :=
  for_each
    (fun (ok : bool) (x : val) =>
       if ok then
         xs <-! items_of h x;
         a0 <-! first args;
         xs0 <-! items_of h a0;
         Ok (Nat.eqb (length xs) (length xs0))
       else Ok false)
    (drop 1 args) true.

(** The body of the loop over the keys of [d1]; [rec] is [merge] itself,
    called on two lists of one item. *)
Definition merge_key (rec : list val -> heap -> result (val * heap))
    (d1 d2 : val) (h : heap) (key : string) : result heap :=
  v1 <-! subscript h d1 key;
  let '(d1_element, h) := alloc (OList [v1]) h in
  h <-! (if is_dict h (VRef d1_element) then
           let '(la, h) := alloc (OList [VRef d1_element]) h in
           v2 <-! subscript h d2 key;
           let '(lb, h) := alloc (OList [v2]) h in
           r <-! rec [VRef la; VRef lb] h;
           r0 <-! item (snd r) (fst r) 0;
           set_key (snd r) d1 key r0
         else
           v2 <-! subscript h d2 key;
           append h d1_element v2);
  set_key h d1 key (VRef d1_element).

(** The body of the loop over [args[1:]]. *)
Definition merge_arg (rec : list val -> heap -> result (val * heap))
    (i : nat) (d1 : val) (h : heap) (arg : val) : result heap :=
  d2 <-! item h arg i;
  keys <-! keys_of h d1;
  for_each (merge_key rec d1 d2) keys h.

(** The body of the loop over [enumerate(obj1_copy)]. *)
Definition merge_record (rec : list val -> heap -> result (val * heap))
    (args : list val) (h : heap) (p : nat * val) : result heap :=
  for_each (merge_arg rec (fst p) (snd p)) (drop 1 args) h.

(** [merge], called on the tuple [args].  The recursion of the source is on
    a freshly built pair of lists; [fuel] bounds its depth and
    [RecursionError] reports that the bound was reached. *)
Fixpoint merge (fuel : nat) (args : list val) (h : heap)
  : result (val * heap) :=
  match fuel with
  | O => Raise RecursionError
  | S fuel' =>
    if negb (forallb (is_list h) args)
    then Raise (AssertionError "Input types must be lists") else
    same <-! same_lengths h args;
    if negb same
    then Raise (AssertionError "Cannot merge list with different lenghts")
    else
    if len args =? 1 then a0 <-! first args; Ok (a0, h) else
    a0 <-! first args;
    xs0 <-! items_of h a0;
    let '(obj1_copy, h1) := alloc (OList xs0) h in
    elems <-! items_of h1 (VRef obj1_copy);
    h2 <-! for_each (merge_record (merge fuel') args) (enumerate elems) h1;
    Ok (VRef obj1_copy, h2)
  end.

(** What a value denotes in a store, read down to a given depth. *)
Inductive tree : Type :=
| TNone
| TNum (q : Q)
| TStr (s : string)
| TList (items : list tree)
| TDict (entries : list (string * tree))
| TDeep.

Fixpoint read (depth : nat) (h : heap) (v : val) : tree :=
  match depth with
  | O => TDeep
  | S depth' =>
      match v with
      | VNone => TNone
      | VNum q => TNum q
      | VStr s => TStr s
      | VRef l =>
          match h !! l with
          | Some (OList xs) => TList (map (read depth' h) xs)
          | Some (ODict es) =>
              TDict (map (fun e => (fst e, read depth' h (snd e))) es)
          | None => TDeep
          end
      end
  end.

End convert_gt.

(** * Definitions of the specification and example data *)

(** ** Selection of the score type, as the specification words it *)

(** The alignment kinds in their fixed priority, each with the field of a
    ground-truth record that holds it. *)
Definition priority : list (string * (GroundTruth -> Score)) :=
  [("precise_alignment", precise_alignment);
   ("broad_alignment", broad_alignment);
   ("misaligned", misaligned)].

(** A kind is usable when it is requested and the first ground-truth record
    has a non-empty pitch sequence for it. *)
Definition usable (requested : list string) (gts : list GroundTruth)
    (k : string * (GroundTruth -> Score)) : Prop :=
  In (fst k) requested /\
  exists gt : GroundTruth, head gts = Some gt /\ pitches (snd k gt) <> [].

(** [kind] is the first usable kind of [kinds], and [score] when none of
    them is usable. *)
Fixpoint first_usable (requested : list string) (gts : list GroundTruth)
    (kinds : list (string * (GroundTruth -> Score))) (kind : string) : Prop :=
  match kinds with
  | [] => kind = "score"
  | k :: kinds' =>
      (usable requested gts k /\ kind = fst k) \/
      (~ usable requested gts k /\ first_usable requested gts kinds' kind)
  end.

(** The selection as the specification states it, for every request and
    every list of ground truths: a request of one entry is returned as it
    is; a request of several entries returns the first usable kind in
    priority order, [score] when there is none. *)
Definition chose_as_stated : Prop :=
  forall (score_type : list string) (gts : list GroundTruth),
    (forall kind : string,
       score_type = [kind] ->
       dataset_utils.chose_score_type score_type gts = Ok kind) /\
    ((1 < length score_type)%nat ->
     exists kind : string,
       dataset_utils.chose_score_type score_type gts = Ok kind /\
       first_usable score_type gts priority kind).

(** ** Example ground truths *)

Definition no_notes : Score := mkScore [] [] [] [].
Definition no_pedal : Pedal := mkPedal [] [].

(** A ground truth of program 0 whose only non-empty variant is [s], stored
    under [misaligned]. *)
Definition gt_misaligned (s : Score) : GroundTruth :=
  mkGroundTruth 0%Q no_notes no_notes s no_notes no_pedal no_pedal no_pedal.

(** Precise alignment without pitches, broad alignment with three. *)
Definition gt_broad_only : GroundTruth :=
  mkGroundTruth 0%Q no_notes
    (mkScore [60%Q; 64%Q; 67%Q] [0%Q; 1%Q; 2%Q] [1%Q; 2%Q; 3%Q]
       [80%Q; 80%Q; 80%Q])
    no_notes no_notes no_pedal no_pedal no_pedal.

(** pitches=[60,62], onsets=[0.0], offsets=[], velocities=[80,90,100] *)
Definition ragged_record : Score :=
  mkScore [60%Q; 62%Q] [0%Q] [] [80%Q; 90%Q; 100%Q].

(** pitches=[60,62], onsets=[0.0], offsets=[], velocities=[] *)
Definition short_onsets_record : Score :=
  mkScore [60%Q; 62%Q] [0%Q] [] [].

(** pitches=[60], onsets=[0.0], offsets=[1.0,2.0], velocities=[80] *)
Definition long_offsets_record : Score :=
  mkScore [60%Q] [0%Q] [1%Q; 2%Q] [80%Q].

(** ** Ordering of the score matrix *)

(** What NumPy promises of [argsort] with its default kind: the indices
    are a permutation that puts the keys in non-decreasing order.  The
    default kind is not a stable sort. *)
Definition sorts (argsort : list Q -> list nat) : Prop :=
  forall keys : list Q,
    Permutation (argsort keys) (seq 0 (length keys)) /\
    Sorted Qle (map (fun i => nth i keys 0%Q) (argsort keys)).

(** [m] lists [rows] by onset, rows of equal onset in the order they have in
    [rows] (source after source, and within a source in its own order). *)
Definition stable_order (rows m : matrix) : Prop :=
  exists idx : list nat,
    Permutation idx (seq 0 (length rows)) /\
    m = take_rows rows idx /\
    forall a b ia ib : nat,
      (a < b)%nat -> idx !! a = Some ia -> idx !! b = Some ib ->
      (cell (nth ia rows []) 1 == cell (nth ib rows []) 1)%Q ->
      (ia < ib)%nat.

(** [ndarray.argsort()] with [kind=None] is NumPy's [quicksort], the
    introsort of [npysort/quicksort]: median-of-three partitions down to
    ranges of at most 17 indices, which are sorted by insertion, and a
    heapsort of a range once twice the binary logarithm of the length in
    partitions have been made above it.  This is the scalar code of NumPy,
    which is not part of the repository; a build of NumPy that sorts with
    vector instructions may place equal keys in another order, and NumPy
    documents the kind as not stable.  [v] is the array of keys and [a]
    the array of indices being permuted ([tosort]); positions in [a] stand
    for the pointers [pl], [pr], [pi], [pj]. *)
Module npysort.

(** [v[*p]] *)
Definition key_at (v : list Q) (a : list nat) (p : nat) : Q :=
  nth (nth p a 0%nat) v 0%Q.

Definition less (x y : Q) : bool := negb (Qle_bool y x).

(** [INTP_SWAP( *p, *q )] *)
Definition swap (a : list nat) (p q : nat) : list nat :=
  <[q := nth p a 0%nat]> (<[p := nth q a 0%nat]> a).

Definition swap_if (c : bool) (a : list nat) (p q : nat) : list nat :=
  if c then swap a p q else a.

(** [do { ++pi; } while (less(v[*pi], vp));] *)
Fixpoint scan_up (fuel : nat) (v : list Q) (a : list nat) (vp : Q)
    (pi : nat) : nat :=
  match fuel with
  | O => pi
  | S fuel' =>
      let pi := S pi in
      if less (key_at v a pi) vp then scan_up fuel' v a vp pi else pi
  end.

(** [do { --pj; } while (less(vp, v[*pj]));] *)
Fixpoint scan_down (fuel : nat) (v : list Q) (a : list nat) (vp : Q)
    (pj : nat) : nat :=
  match fuel with
  | O => pj
  | S fuel' =>
      let pj := Nat.pred pj in
      if less vp (key_at v a pj) then scan_down fuel' v a vp pj else pj
  end.

(** The loop [for (;;)] of a partition, up to its [break]. *)
Fixpoint partition_loop (fuel : nat) (v : list Q) (vp : Q) (a : list nat)
    (pi pj : nat) : list nat * nat :=
  match fuel with
  | O => (a, pi)
  | S fuel' =>
      let pi := scan_up (length a) v a vp pi in
      let pj := scan_down (length a) v a vp pj in
      if (pj <=? pi)%nat then (a, pi)
      else partition_loop fuel' v vp (swap a pi pj) pi pj
  end.

(** One partition of the range from [pl] to [pr]: the indices after it and
    the place [pi] of the pivot. *)
Definition partition (v : list Q) (a : list nat) (pl pr : nat)
  : list nat * nat :=
  let pm := (pl + (pr - pl) / 2)%nat in
  let a := swap_if (less (key_at v a pm) (key_at v a pl)) a pm pl in
  let a := swap_if (less (key_at v a pr) (key_at v a pm)) a pr pm in
  let a := swap_if (less (key_at v a pm) (key_at v a pl)) a pm pl in
  let vp := key_at v a pm in
  let a := swap a pm (pr - 1) in
  let '(a, pi) := partition_loop (length a) v vp a pl (pr - 1) in
  (swap a pi (pr - 1), pi).

(** [while (pj > pl && less(vp, v[*pk])) { *pj-- = *pk--; }] *)
Fixpoint shift_up (fuel : nat) (v : list Q) (a : list nat) (vp : Q)
    (pl pj : nat) : list nat * nat :=
  match fuel with
  | O => (a, pj)
  | S fuel' =>
      if (pl <? pj)%nat && less vp (key_at v a (pj - 1))
      then shift_up fuel' v (<[pj := nth (pj - 1) a 0%nat]> a) vp pl (pj - 1)
      else (a, pj)
  end.

(** The insertion sort of the range from [pl] to [pr]. *)
Definition insertion (v : list Q) (a : list nat) (pl pr : nat) : list nat :=
  fold_left
    (fun a pi =>
       let vi := nth pi a 0%nat in
       let '(a, pj) := shift_up (length a) v a (nth vi v 0%Q) pl pi in
       <[pj := vi]> a)
    (seq (S pl) (pr - pl)) a.

(** The heapsort of the [n] indices from [pl] on; the heap is indexed from
    1 ([a = tosort - 1]). *)
Section Heap.

Variables (v : list Q) (pl : nat).

Definition slot (j : nat) : nat := (pl + j - 1)%nat.

(** The loop that moves the hole [i] down the heap of size [n]. *)
Fixpoint sift (fuel : nat) (a : list nat) (tmp i j n : nat)
  : list nat * nat :=
  match fuel with
  | O => (a, i)
  | S fuel' =>
      if (n <? j)%nat then (a, i) else
      let j :=
        if (j <? n)%nat && less (key_at v a (slot j)) (key_at v a (slot (j + 1)))
        then (j + 1)%nat else j in
      if less (nth tmp v 0%Q) (key_at v a (slot j))
      then sift fuel' (<[slot i := nth (slot j) a 0%nat]> a) tmp j (j + j) n
      else (a, i)
  end.

Definition aheapsort (a : list nat) (n : nat) : list nat :=
  let a :=
    fold_left
      (fun a l =>
         let tmp := nth (slot l) a 0%nat in
         let '(a, i) := sift (length a) a tmp l (2 * l) n in
         <[slot i := tmp]> a)
      (rev (seq 1 (n / 2))) a in
  fold_left
    (fun a n =>
       let tmp := nth (slot n) a 0%nat in
       let a := <[slot n := nth (slot 1) a 0%nat]> a in
       let '(a, i) := sift (length a) a tmp 1 2 (n - 1) in
       <[slot i := tmp]> a)
    (rev (seq 2 (n - 1))) a.

End Heap.

(** [while ((pr - pl) > SMALL_QUICKSORT)]: partitions of the current range,
    the larger part pushed on the stack with the depth left. *)
Fixpoint partition_while (fuel : nat) (v : list Q) (a : list nat)
    (pl pr : nat) (cdepth : Z) (stack : list (nat * nat * Z))
  : list nat * nat * nat * list (nat * nat * Z) :=
  match fuel with
  | O => (a, pl, pr, stack)
  | S fuel' =>
      if (16 <? pr - pl)%nat then
        let '(a, pi) := partition v a pl pr in
        if (pi - pl <? pr - pi)%nat
        then partition_while fuel' v a pl (pi - 1) (cdepth - 1)
               ((S pi, pr, cdepth - 1) :: stack)
        else partition_while fuel' v a (S pi) pr (cdepth - 1)
               ((pl, (pi - 1)%nat, cdepth - 1) :: stack)
      else (a, pl, pr, stack)
  end.

(** The loop [while (1)]: a range is sorted, then the next one is popped. *)
Fixpoint ranges (fuel : nat) (v : list Q) (a : list nat) (pl pr : nat)
    (cdepth : Z) (stack : list (nat * nat * Z)) : list nat :=
  match fuel with
  | O => a
  | S fuel' =>
      let '(a, stack) :=
        if cdepth <? 0 then (aheapsort v pl a (pr - pl + 1), stack)
        else
          let '(a, pl, pr, stack) :=
            partition_while (length a) v a pl pr cdepth stack in
          (insertion v a pl pr, stack) in
      match stack with
      | [] => a
      | (pl, pr, cdepth) :: stack => ranges fuel' v a pl pr cdepth stack
      end
  end.

(** [npy_aquicksort(v, tosort, num)] on [tosort = 0, 1, ..., num - 1]. *)
Definition aquicksort (v : list Q) : list nat :=
  let num := length v in
  match num with
  | O => []
  | S _ =>
      ranges (S num) v (seq 0 num) 0 (num - 1)
        (2 * Z.log2 (Z.of_nat num)) []
  end.

End npysort.

(** [a.argsort()] *)
Definition np_argsort (keys : list Q) : list nat := npysort.aquicksort keys.

(** The ordering property as the specification states it, of the matrix
    that the code returns with NumPy's sort. *)
Definition sorted_and_stable : Prop :=
  forall (gts : list GroundTruth) (score_type : list string)
         (kind : string) (rows m : matrix),
    dataset_utils.chose_score_type score_type gts = Ok kind ->
    dataset_utils.score_rows kind gts = Ok rows ->
    dataset_utils.get_score_mat np_argsort gts score_type = Ok m ->
    Sorted Qle (column 1 m) /\ stable_order rows m.

(** One source with the eighteen notes of pitch 60 to 77, all at onset 1. *)
Definition eighteen_notes_one_onset : list GroundTruth :=
  [gt_misaligned
     (mkScore (map (fun p => inject_Z (Z.of_nat p)) (seq 60 18))
        (repeat 1%Q 18) (repeat 2%Q 18) (repeat 80%Q 18))].

(** Another sort that meets the contract: an insertion that places an
    index after the indices of equal key already there, so that ties come
    out in decreasing index order. *)
Fixpoint insert_index (keys : list Q) (i : nat) (l : list nat) : list nat :=
  match l with
  | [] => [i]
  | j :: l' =>
      if Qlt_le_dec (nth i keys 0%Q) (nth j keys 0%Q) then i :: j :: l'
      else j :: insert_index keys i l'
  end.

Definition argsort_ties_reversed (keys : list Q) : list nat :=
  fold_right (insert_index keys) [] (seq 0 (length keys)).

(** Two notes of one source, in onset order. *)
Definition two_notes : list GroundTruth :=
  [gt_misaligned (mkScore [60%Q; 62%Q] [3%Q; 1%Q] [4%Q; 2%Q] [80%Q; 90%Q])].

(** ** Pedaling example *)

(** One source with the events sustain@(t=0,v=0) and sustain@(t=1,v=127). *)
Definition gt_two_sustain : GroundTruth :=
  mkGroundTruth 0%Q no_notes no_notes no_notes no_notes
    (mkPedal [0%Q; 1%Q] [0%Q; 127%Q]) no_pedal no_pedal.

(** The zero-order-hold example as the specification states it, for a song
    of duration [dur]: with frame_len=0 and hop=0.5, frame [i] is
    timestamped [i*hop + frame_len/2], the frames timestamped 0.25 and 0.75
    hold 0 and every frame timestamped 1.25 or later holds 127. *)
Definition pedal_hold_as_stated (dur : Q) : Prop :=
  exists m : matrix,
    dataset_utils.get_pedaling_mat [gt_two_sustain] dur true 0%Q (1 # 2)%Q
    = Ok [m] /\
    (forall (i : nat) (r : list Q), m !! i = Some r ->
       (cell r 0 == inject_Z (Z.of_nat i) * (1 # 2) + 0 / 2)%Q) /\
    (exists r, In r m /\ (cell r 0 == 1 # 4)%Q /\ (cell r 1 == 0)%Q) /\
    (exists r, In r m /\ (cell r 0 == 3 # 4)%Q /\ (cell r 1 == 0)%Q) /\
    (forall r, In r m -> (5 # 4 <= cell r 0)%Q -> (cell r 1 == 127)%Q).

(** ** Filtering *)

(** The level a dataset records for a kind of ground truth, if any. *)
Definition gt_level (d : Dataset) (kind : string) : option Z :=
  match d_ground_truth d with
  | Some m => m !! kind
  | None => None
  end.

(** Fail-closed filtering as the specification states it: a requested kind
    that a dataset does not record excludes that dataset, and the call
    returns. *)
Definition fail_closed : Prop :=
  forall (corpus : Corpus) (cr : criteria) (i : nat) (d : Dataset)
         (kind : string) (val : Z),
    datasets corpus !! i = Some d ->
    In (kind, val) (c_ground_truth cr) ->
    gt_level d kind = None ->
    exists (orig ret : Corpus) (d' : Dataset),
      dataset_utils.filter corpus cr = Ok (orig, ret) /\
      datasets ret !! i = Some d' /\ d_included d' = false.

(** A song with a recording and nothing else. *)
Definition plain_song : Song :=
  mkSong true None None None [] (Some "mix.wav") None.

(** The default arguments of [filter]. *)
Definition keep_all : criteria :=
  mkCriteria [] None true false false "" [] [] [] false.

(** [filter(ground_truth=[('score', 1)])] *)
Definition need_score : criteria :=
  mkCriteria [] None true false false "" [] [] [("score", 1)] false.

(** [filter(datasets=['B'])] *)
Definition keep_B : criteria :=
  mkCriteria [] None true false false "" ["B"] [] [] false.

(** A corpus of one dataset that records no kind of ground truth. *)
Definition corpus_no_levels : Corpus :=
  mkCorpus [] ∅ [mkDataset "A" true None (Some ∅) [plain_song]].

(** A corpus of two datasets of one song each, never filtered. *)
Definition corpus_A_B : Corpus :=
  mkCorpus [] ∅
    [mkDataset "A" true None None [plain_song];
     mkDataset "B" true None None [plain_song]].

(** Chunks in a given order are contiguous from [a] to [b]. *)
Fixpoint chain (a : nat) (l : list (nat * nat)) (b : nat) : Prop :=
  match l with
  | [] => a = b
  | c :: l' => fst c = a /\ (fst c <= snd c)%nat /\ chain (snd c) l' b
  end.

(** The sum of the widths of chunks. *)
Definition widths (l : list (nat * nat)) : nat :=
  fold_right (fun c acc => (snd c - fst c + acc)%nat) 0%nat l.

(** The ranges of a chunk map. *)
Definition chunk_ranges (m : gmap string (nat * nat)) : list (nat * nat) :=
  map snd (map_to_list m).

(** The chunk map partitions the rows of [paths]: in some order the chunks
    are contiguous from 0 to the number of rows, without gap or overlap,
    and their widths add up to the number of rows. *)
Definition chunks_partition (c : Corpus) : Prop :=
  (exists l, Permutation l (chunk_ranges (chunks c)) /\
             chain 0 l (length (paths c))) /\
  widths (chunk_ranges (chunks c)) = length (paths c).

(** The dataset passes the dataset-level tests of a call. *)
Definition passes (cr : criteria) (d : Dataset) : bool :=
  match dataset_utils.dataset_flag cr d with
  | Ok true => true
  | _ => false
  end.

(** ** Merging *)

(** The value [v] is the list object whose items are [xs]. *)
Definition list_at (h : heap) (v : val) (xs : list val) : Prop :=
  exists l : nat, v = VRef l /\ h !! l = Some (OList xs).

(** The value [v] is a dictionary whose keys, in order, are [ks]. *)
Definition dict_with_keys (h : heap) (v : val) (ks : list string) : Prop :=
  exists (l : nat) (es : list (string * val)),
    v = VRef l /\ h !! l = Some (ODict es) /\ map fst es = ks.

(** The value [v] is a dictionary that holds each key of [ks]. *)
Definition dict_holding (h : heap) (v : val) (ks : list string) : Prop :=
  exists (l : nat) (es : list (string * val)),
    v = VRef l /\ h !! l = Some (ODict es) /\
    forall k, In k ks -> In k (map fst es).

(** Record [d1] at position [i] of the first list can be merged with the
    records at position [i] of the other lists: it is a dictionary, and each
    of them is a dictionary that holds its keys. *)
Definition row_mergeable (h : heap) (rest : list val) (i : nat) (d1 : val)
  : Prop :=
  exists ks : list string,
    dict_with_keys h d1 ks /\
    forall a, In a rest ->
      exists (xs : list val) (d2 : val),
        list_at h a xs /\ xs !! i = Some d2 /\ dict_holding h d2 ks.

(** The length property as the specification states it: lists of one length
    always merge into a list of that length. *)
Definition equal_lengths_merge : Prop :=
  forall (fuel : nat) (h : heap) (a0 : val) (rest : list val)
         (xs0 : list val),
    list_at h a0 xs0 ->
    (forall a, In a rest ->
       exists xs, list_at h a xs /\ length xs = length xs0) ->
    exists (r : val) (h' : heap) (ys : list val),
      convert_gt.merge (S fuel) (a0 :: rest) h = Ok (r, h') /\
      list_at h' r ys /\ length ys = length xs0.

(** [[{'a': 1}]] at 1 and [[{}]] at 3. *)
Definition heap_missing_key : heap :=
  [ODict [("a", VNum 1)]; OList [VRef 0]; ODict []; OList [VRef 2]].

(** [[{'pitches': [60]}]] at 2 and [[{'pitches': [62]}]] at 5. *)
Definition heap_two_records : heap :=
  [OList [VNum 60]; ODict [("pitches", VRef 0)]; OList [VRef 1];
   OList [VNum 62]; ODict [("pitches", VRef 3)]; OList [VRef 4]].

(** [[{'precise-alignment': {'onsets': [1]}}]] at 3 and
    [[{'precise-alignment': {'onsets': [2]}}]] at 7. *)
Definition heap_nested : heap :=
  [OList [VNum 1]; ODict [("onsets", VRef 0)];
   ODict [("precise-alignment", VRef 1)]; OList [VRef 2];
   OList [VNum 2]; ODict [("onsets", VRef 4)];
   ODict [("precise-alignment", VRef 5)]; OList [VRef 6]].

(** A later state of a store: it has grown, its list objects are as they
    were, and its dictionaries have the keys they had, in the same order. *)
Definition evolves (h h' : heap) : Prop :=
  (length h <= length h')%nat /\
  (forall l xs, h !! l = Some (OList xs) -> h' !! l = Some (OList xs)) /\
  (forall l es, h !! l = Some (ODict es) ->
     exists es', h' !! l = Some (ODict es') /\ map fst es' = map fst es).

(** [len(v)] for a list object, 0 for anything else. *)
Definition len_of (h : heap) (v : val) : nat :=
  match convert_gt.items_of h v with
  | Ok xs => length xs
  | Raise _ => 0%nat
  end.

(** The frames of the example after its two control changes, which fall on
    frames 0 and 2, and after the final hold of the three pedals. *)
Definition held_two_sustain (frames0 : matrix) : matrix :=
  dataset_utils.assign_slice
    (dataset_utils.assign_slice
       (dataset_utils.assign_slice
          (dataset_utils.assign_slice
             (dataset_utils.assign_slice frames0 0 (Some 0) 1 0%Q)
             0 (Some 2) 1 0%Q)
          2 None 1 127%Q)
       0 None 2 0%Q)
    0 None 3 0%Q.

(** * Further definitions: properties of the rest of the code *)

(** ** Groups of notes *)

(** The notes of a group start together; a group is not empty. *)
Definition same_onset (g : list Note) : Prop :=
  g <> [] /\ forall n m, In n g -> In m g -> (n_start n == n_start m)%Q.

(** Every note of [g] starts before every note of [g']. *)
Definition group_before (g g' : list Note) : Prop :=
  forall n m, In n g -> In m g' -> (n_start n < n_start m)%Q.

(** Notes in non-decreasing order of start. *)
Definition by_start (n m : Note) : Prop := (n_start n <= n_start m)%Q.

(** ** Paths *)

(** The character [c] does not occur in [s]. *)
Fixpoint no_char (c : ascii) (s : string) : Prop :=
  match s with
  | EmptyString => True
  | String a s' => a <> c /\ no_char c s'
  end.

(** [s] without its last character. *)
Fixpoint str_init (s : string) : string :=
  match s with
  | EmptyString => EmptyString
  | String a EmptyString => EmptyString
  | String a s' => String a (str_init s')
  end.

(** An extension with its leading dot. *)
Definition with_dot (ext : string) : string :=
  if String.prefix "." ext then ext else String.append "." ext.

(** ** Rows of the score matrix *)

(** A sequence of a record is available for [n] notes when it has one value
    per note, and not available when it is empty. *)
Definition available (n : nat) (l : list Q) : Prop :=
  l = [] \/ length l = n.

(** The pitches have [n] values and each of the other three sequences is
    available or empty. *)
Definition regular (s : Score) : Prop :=
  available (length (pitches s)) (onsets s) /\
  available (length (pitches s)) (offsets s) /\
  available (length (pitches s)) (velocities s).

(** A sequence, or [n] sentinels when it is empty. *)
Definition or_sentinels (n : nat) (l : list Q) : list Q :=
  match l with
  | [] => repeat sentinel n
  | _ :: _ => l
  end.

(** The rows of source [i]: one per pitch, with the sentinel where a value
    is not available. *)
Definition note_rows (i : nat) (gt : GroundTruth) (s : Score) : matrix :=
  let n := length (pitches s) in
  map (fun j =>
         [nth j (pitches s) 0%Q;
          nth j (or_sentinels n (onsets s)) 0%Q;
          nth j (or_sentinels n (offsets s)) 0%Q;
          nth j (or_sentinels n (velocities s)) 0%Q;
          instrument gt;
          inject_Z (Z.of_nat i)])
      (seq 0 n).

(** The rows of all the sources of a song, source after source. *)
Definition all_note_rows (kind : string) (gts : list GroundTruth) : matrix :=
  concat
    (map (fun p : nat * GroundTruth =>
            match gt_variant (snd p) kind with
            | Ok s => note_rows (fst p) (snd p) s
            | Raise _ => []
            end)
         (enumerate gts)).

(** A matrix of [r] rows of [w] cells each. *)
Definition is_block (r w : nat) (m : matrix) : Prop :=
  length m = r /\ Forall (fun row => length row = w) m.

(** A source with two complete notes and a source with one pitch and
    nothing else. *)
Definition complete_and_pitch_only : list GroundTruth :=
  [gt_misaligned (mkScore [60%Q; 62%Q] [3%Q; 1%Q] [4%Q; 2%Q] [80%Q; 90%Q]);
   gt_misaligned (mkScore [61%Q] [] [] [])].

(** ** Pedaling *)

(** A row of control change: a time, the value of one pedal, and -1 for the
    other two. *)
Definition cc_row (r : list Q) : Prop :=
  exists t v : Q,
    r = [t; v; -1; -1]%Q \/ r = [t; -1; v; -1]%Q \/ r = [t; -1; -1; v]%Q.

(** The number of control changes read from a pedal track: the surplus of
    times or of values is left out. *)
Definition cc_count (p : Pedal) : nat :=
  Nat.min (length (times p)) (length (values p)).


(** One source with the single event sustain@(t, v). *)
Definition gt_one_sustain (t v : Q) : GroundTruth :=
  mkGroundTruth 0%Q no_notes no_notes no_notes no_notes
    (mkPedal [t] [v]) no_pedal no_pedal.

(** The number of frames for a song of duration [dur]. *)
Definition n_frames_of (dur winlen hop : Q) : Z :=
  py_int ((dur - winlen) / hop + 1)%Q + 1.


(** ** What a call to filter selects *)

(** The song passes the song-level tests of a call. *)
Definition song_passes (cr : criteria) (song : Song) : bool :=
  match dataset_utils.song_flag cr song with
  | Ok true => true
  | _ => false
  end.

(** The row of a song that passes, if it has one. *)
Definition song_rows (cr : criteria) (song : Song) : list path_row :=
  if song_passes cr song then
    match dataset_utils.song_row cr song with
    | Ok row => [row]
    | Raise _ => []
    end
  else [].

(** The rows of the songs that pass, in the datasets that pass, in the
    order of the corpus. *)
Definition selected_rows (cr : criteria) (ds : list Dataset)
  : list path_row :=
  flat_map (fun d => if passes cr d then flat_map (song_rows cr) (d_songs d)
                     else []) ds.

(** A song after a call: as it was if it passes, excluded otherwise. *)
Definition filtered_song (cr : criteria) (song : Song) : Song :=
  if song_passes cr song then song else dataset_utils.exclude_song song.

(** A dataset after a call: its songs filtered if it passes, otherwise
    excluded with its songs as they were. *)
Definition filtered_dataset (cr : criteria) (d : Dataset) : Dataset :=
  if passes cr d
  then dataset_utils.with_songs d (map (filtered_song cr) (d_songs d))
  else dataset_utils.exclude_dataset d.

(** Two songs that differ at most by the flag [included], which the second
    has only if the first has it. *)
Definition song_narrowed (s s' : Song) : Prop :=
  s_instruments s' = s_instruments s /\
  s_composer s' = s_composer s /\
  s_groups s' = s_groups s /\
  s_ground_truth s' = s_ground_truth s /\
  s_recording s' = s_recording s /\
  s_sources s' = s_sources s /\
  (s_included s' = true -> s_included s = true).

(** Two datasets that differ at most by flags [included], of the dataset
    and of its songs, which are set in the second only if they are in the
    first. *)
Definition dataset_narrowed (d d' : Dataset) : Prop :=
  d_name d' = d_name d /\
  d_ensemble d' = d_ensemble d /\
  d_ground_truth d' = d_ground_truth d /\
  (d_included d' = true -> d_included d = true) /\
  Forall2 song_narrowed (d_songs d) (d_songs d').

(** ** Exact times *)

(** The power of two [2^h]. *)
Definition pow2 (h : Z) : Q := (2 ^ h)%Q.

(** A time of [k] hops of [2^h]. *)
Definition hops (h k : Z) : Q := (inject_Z k * pow2 h)%Q.

(** * Properties *)

(** Boolean comparisons in the hypotheses, as propositions. *)
Ltac zbool :=
  repeat match goal with
         | H : (_ && _) = true |- _ => apply andb_true_iff in H; destruct H
         | H : (_ <=? _) = true |- _ => apply Z.leb_le in H
         | H : (_ <=? _) = false |- _ => apply Z.leb_gt in H
         | H : (_ <? _) = true |- _ => apply Z.ltb_lt in H
         | H : (_ <? _) = false |- _ => apply Z.ltb_ge in H
         | H : (_ <? _)%nat = true |- _ => apply Nat.ltb_lt in H
         | H : (_ <? _)%nat = false |- _ => apply Nat.ltb_ge in H
         end.

(** ** Selection of the score type *)

Section ChoseScoreType.

Import dataset_utils.

Lemma len_gt_1 {A} (l : list A) :
  (1 < length l)%nat -> (1 <? len l) = true.
Proof. intros H. unfold len. apply Z.ltb_lt. lia. Qed.

Lemma str_in_In (x : string) (l : list string) :
  str_in x l = true <-> In x l.
Proof.
  unfold str_in. rewrite existsb_exists. split.
  - intros (y & Hy & Heq). apply String.eqb_eq in Heq. subst y. exact Hy.
  - intros Hx. exists x. split; [exact Hx|apply String.eqb_refl].
Qed.

(** The test the code makes of a kind decides whether the kind is usable. *)
Lemma requested_and_present_usable (score_type : list string)
    (gt : GroundTruth) (rest : list GroundTruth)
    (name : string) (field : GroundTruth -> Score) :
  gt_variant gt name = Ok (field gt) ->
  exists b : bool,
    requested_and_present score_type (gt :: rest) name = Ok b /\
    (b = true <-> usable score_type (gt :: rest) (name, field)).
Proof.
  intros Hk. unfold requested_and_present, usable, has_pitches.
  cbn [fst snd].
  destruct (str_in name score_type) eqn:Hin.
  - cbn [first rbind]. rewrite Hk. cbn [rbind].
    eexists. split; [reflexivity|].
    apply str_in_In in Hin. unfold len. split.
    + intros Hp. split; [exact Hin|]. exists gt. split; [reflexivity|].
      intros Hnil. rewrite Hnil in Hp. discriminate Hp.
    + intros (_ & gt' & [= <-] & Hp).
      destruct (pitches (field gt)); [contradiction|reflexivity].
  - exists false. split; [reflexivity|]. split; [discriminate|].
    intros (Hreq & _). apply str_in_In in Hreq. congruence.
Qed.

(** C8, as the code has it. A request of one entry is returned as it is,
    whatever the ground truths; on a list of ground truths that is not
    empty, a request of several entries returns the first of
    [precise_alignment], [broad_alignment], [misaligned] that is requested
    and whose pitch sequence in the first ground-truth record is not empty,
    and [score] when there is none, requested or not. *)
Theorem chose_score_type_spec (score_type : list string) (kind : string)
    (gts : list GroundTruth) :
  chose_score_type [kind] gts = Ok kind /\
  ((1 < length score_type)%nat -> gts <> [] ->
   exists chosen : string,
     chose_score_type score_type gts = Ok chosen /\
     first_usable score_type gts priority chosen).
Proof.
  split; [reflexivity|].
  intros Hlen Hgts. destruct gts as [|gt rest]; [contradiction|].
  unfold chose_score_type. rewrite (len_gt_1 _ Hlen).
  destruct (requested_and_present_usable score_type gt rest
              "precise_alignment" precise_alignment eq_refl)
    as (b1 & -> & H1).
  destruct (requested_and_present_usable score_type gt rest
              "broad_alignment" broad_alignment eq_refl)
    as (b2 & -> & H2).
  destruct (requested_and_present_usable score_type gt rest
              "misaligned" misaligned eq_refl)
    as (b3 & -> & H3).
  cbn [rbind fst]. unfold priority. cbn [first_usable fst].
  destruct b1 eqn:E1.
  { eexists. split; [reflexivity|]. left. split; [apply H1|]; reflexivity. }
  destruct b2 eqn:E2.
  { eexists. split; [reflexivity|]. right. split; [rewrite <- H1; discriminate|].
    left. split; [apply H2|]; reflexivity. }
  destruct b3 eqn:E3.
  { eexists. split; [reflexivity|]. right. split; [rewrite <- H1; discriminate|].
    right. split; [rewrite <- H2; discriminate|].
    left. split; [apply H3|]; reflexivity. }
  eexists. split; [reflexivity|].
  right. split; [rewrite <- H1; discriminate|].
  right. split; [rewrite <- H2; discriminate|].
  right. split; [rewrite <- H3; discriminate|]. reflexivity.
Qed.

(** With precise alignment empty and three broad pitches, a request of both
    is answered by the first usable kind. *)
Lemma chose_score_type_spec_witness :
  exists chosen : string,
    chose_score_type ["precise_alignment"; "broad_alignment"] [gt_broad_only]
    = Ok chosen /\
    first_usable ["precise_alignment"; "broad_alignment"] [gt_broad_only]
      priority chosen.
Proof.
  apply (proj2 (chose_score_type_spec
                  ["precise_alignment"; "broad_alignment"] "score"
                  [gt_broad_only])).
  - simpl. lia.
  - discriminate.
Defined.

(** C8, as stated, fails: on a song without ground truths there is no first
    record, and a request of [precise_alignment] and [score] raises
    [IndexError] instead of returning [score]. *)
Lemma chose_as_stated_fails : ~ chose_as_stated.
Proof.
  intros H.
  destruct (H ["precise_alignment"; "score"] []) as [_ Hmany].
  destruct Hmany as (kind & Hrun & _); [simpl; lia|].
  discriminate Hrun.
Qed.

End ChoseScoreType.

(** ** The score matrix *)

Section ScoreMatrixExamples.

Import dataset_utils.

Variable argsort : list Q -> list nat.

(** C1. On pitches=[60,62], onsets=[0.0], offsets=[],
    velocities=[80,90,100] the columns built by [get_score_mat] are not of
    one length: pitches, onsets and velocities have four cells, offsets has
    three, and the call raises instead of returning a matrix of three rows. *)
Theorem get_score_mat_ragged_example :
  score_columns 0 (gt_misaligned ragged_record) ragged_record
  = [ [60; 62; -255; -255]; [0; -255; -255; -255]; [-255; -255; -255];
      [80; 90; 100; -255]; [0; 0; 0; 0]; [0; 0; 0; 0] ]%Q /\
  get_score_mat argsort [gt_misaligned ragged_record] ["misaligned"]
  = Raise ValueError.
Proof. split; reflexivity. Qed.

(** C4. Ragged lengths do not always give a rectangular matrix: with
    onsets shorter than pitches and no offsets, or with offsets longer than
    pitches, the six columns differ in length and the call raises. *)
Theorem get_score_mat_not_always_rectangular :
  map length (score_columns 0 (gt_misaligned short_onsets_record)
                short_onsets_record) = [2; 2; 1; 2; 2; 2]%nat /\
  get_score_mat argsort [gt_misaligned short_onsets_record] ["misaligned"]
  = Raise ValueError /\
  map length (score_columns 0 (gt_misaligned long_offsets_record)
                long_offsets_record) = [1; 1; 2; 1; 1; 1]%nat /\
  get_score_mat argsort [gt_misaligned long_offsets_record] ["misaligned"]
  = Raise ValueError.
Proof. repeat split; reflexivity. Qed.

End ScoreMatrixExamples.

(** *** The shape of the columns *)

Section ScoreShape.

Import dataset_utils.

Lemma length_append_sentinels (l : list Q) (k : Z) :
  length (append_sentinels l k) = (length l + Z.to_nat k)%nat.
Proof. unfold append_sentinels. rewrite length_app, repeat_length. reflexivity. Qed.

Lemma length_full_like (l : list Q) (x : Q) : length (full_like l x) = length l.
Proof. apply repeat_length. Qed.

Ltac shape_cases :=
  unfold len;
  repeat match goal with
         | |- context [if ?c then _ else _] => destruct c eqn:?
         end;
  repeat rewrite ?length_append_sentinels, ?length_full_like in *;
  zbool;
  repeat match goal with
         | H : (_ =? _) = true |- _ => apply Z.eqb_eq in H
         | H : (_ =? _) = false |- _ => apply Z.eqb_neq in H
         | H : (_ =? _)%nat = true |- _ => apply Nat.eqb_eq in H
         | H : (_ =? _)%nat = false |- _ => apply Nat.eqb_neq in H
         end;
  repeat rewrite ?length_append_sentinels, ?length_full_like in *.

(** The six columns built for one source have one length exactly when the
    offsets are as many as the onsets (as the pitches, when there are no
    onsets), or there are no offsets and no more pitches than onsets.  The
    velocities never matter. *)
Lemma score_columns_rectangular (i : nat) (gt : GroundTruth) (s : Score) :
  rectangular (score_columns i gt s) = true <->
  let o' := if Nat.eqb (length (onsets s)) 0 then length (pitches s)
            else length (onsets s) in
  length (offsets s) = o' \/
  (length (offsets s) = 0%nat /\ (length (pitches s) <= o')%nat).
Proof.
  unfold score_columns, rectangular. cbv zeta.
  rewrite forallb_forall.
  set (p := pitches s). set (o := onsets s).
  set (f := offsets s). set (v := velocities s).
  split.
  - intros H.
    pose proof (H _ (or_intror (or_introl eq_refl))) as Hoffs.
    clear H. apply Nat.eqb_eq in Hoffs. revert Hoffs.
    shape_cases; intros; lia.
  - intros H c Hc. apply Nat.eqb_eq. revert H.
    destruct Hc as [<-|[<-|[<-|[<-|[<-|[]]]]]];
      shape_cases; intros; lia.
Qed.

End ScoreShape.

(** *** Ordering by onset *)

Section ArgsortByInsertion.

Variable keys : list Q.

Local Abbreviation key := (fun i : nat => nth i keys 0%Q).

Lemma insert_index_perm i l : Permutation (insert_index keys i l) (i :: l).
Proof.
  induction l as [|j l IH]; simpl; [reflexivity|].
  destruct (Qlt_le_dec _ _); [reflexivity|].
  rewrite IH. apply perm_swap.
Qed.

Lemma insert_index_hd a i l :
  (key a <= key i)%Q -> HdRel Qle (key a) (map key l) ->
  HdRel Qle (key a) (map key (insert_index keys i l)).
Proof.
  intros Hai Hl. destruct l as [|j l]; simpl.
  - constructor. exact Hai.
  - destruct (Qlt_le_dec _ _); simpl; constructor.
    + exact Hai.
    + inversion Hl; assumption.
Qed.

Lemma insert_index_sorted i l :
  Sorted Qle (map key l) -> Sorted Qle (map key (insert_index keys i l)).
Proof.
  induction l as [|j l IH]; simpl; intros Hs.
  - repeat constructor.
  - destruct (Qlt_le_dec (nth i keys 0%Q) (nth j keys 0%Q)) as [Hlt|Hle]; simpl.
    + constructor; [exact Hs|]. constructor. apply Qlt_le_weak. exact Hlt.
    + inversion Hs as [|? ? Hs' Hhd]; subst.
      constructor; [apply IH; exact Hs'|].
      apply insert_index_hd; assumption.
Qed.

Lemma fold_insert_index_perm l :
  Permutation (fold_right (insert_index keys) [] l) l.
Proof.
  induction l as [|i l IH]; simpl; [reflexivity|].
  rewrite insert_index_perm. constructor. exact IH.
Qed.

Lemma fold_insert_index_sorted l :
  Sorted Qle (map key (fold_right (insert_index keys) [] l)).
Proof.
  induction l as [|i l IH]; simpl; [constructor|].
  apply insert_index_sorted. exact IH.
Qed.

End ArgsortByInsertion.

Lemma argsort_ties_reversed_sorts : sorts argsort_ties_reversed.
Proof.
  intros keys. unfold argsort_ties_reversed. split.
  - apply fold_insert_index_perm.
  - apply fold_insert_index_sorted.
Qed.

Section OrderByOnset.

Import dataset_utils.

Lemma cell_nth_row (m : matrix) (i j : nat) :
  cell (nth i m []) j = nth i (column j m) 0%Q.
Proof.
  unfold column.
  transitivity (nth i (map (fun r => cell r j) m) (cell [] j)).
  - symmetry. apply (map_nth (fun r => cell r j)).
  - f_equal. destruct j; reflexivity.
Qed.

Lemma column_take_rows (m : matrix) (idx : list nat) (j : nat) :
  column j (take_rows m idx) = map (fun i => nth i (column j m) 0%Q) idx.
Proof.
  unfold take_rows. unfold column at 1. rewrite map_map.
  apply map_ext. intros i. apply cell_nth_row.
Qed.

Lemma map_nth_all {A} (l : list A) (d : A) :
  map (fun i => nth i l d) (seq 0 (length l)) = l.
Proof.
  apply (nth_ext _ _ d d).
  - rewrite length_map, length_seq. reflexivity.
  - intros n Hn. rewrite length_map, length_seq in Hn.
    rewrite (nth_indep _ d (nth 0 l d)) by (rewrite length_map, length_seq; exact Hn).
    rewrite (map_nth (fun i => nth i l d) (seq 0 (length l)) 0%nat n).
    rewrite seq_nth by exact Hn. reflexivity.
Qed.

Lemma take_rows_perm (m : matrix) (idx : list nat) :
  Permutation idx (seq 0 (length m)) -> Permutation (take_rows m idx) m.
Proof.
  intros Hp. unfold take_rows.
  rewrite (Permutation_map (fun i => nth i m []) Hp).
  rewrite map_nth_all. reflexivity.
Qed.

(** C5, as the code has it. When [get_score_mat] returns, its rows are the
    note rows of the sources in some order, and their onsets (column 1) are
    in non-decreasing order.  This holds for every [argsort] that sorts;
    nothing is said of the order of rows with equal onsets. *)
Theorem get_score_mat_sorted_by_onset (argsort : list Q -> list nat)
    (gts : list GroundTruth) (score_type : list string) (m : matrix) :
  sorts argsort ->
  get_score_mat argsort gts score_type = Ok m ->
  Sorted Qle (column 1 m) /\
  exists (kind : string) (rows : matrix),
    chose_score_type score_type gts = Ok kind /\
    score_rows kind gts = Ok rows /\
    Permutation m rows.
Proof.
  intros Hs Hm. unfold get_score_mat in Hm.
  destruct (chose_score_type score_type gts) as [kind|e] eqn:Hk;
    simpl in Hm; [|discriminate].
  destruct (score_rows kind gts) as [rows|e] eqn:Hr;
    simpl in Hm; [|discriminate].
  injection Hm as <-. split.
  - rewrite column_take_rows. apply (Hs (column 1 rows)).
  - exists kind, rows. split; [reflexivity|]. split; [exact Hr|].
    apply take_rows_perm.
    replace (length rows) with (length (column 1 rows))
      by apply length_map.
    apply (Hs (column 1 rows)).
Qed.

Lemma get_score_mat_sorted_by_onset_witness :
  Sorted Qle (column 1 [ [62; 1; 2; 90; 0; 0]; [60; 3; 4; 80; 0; 0] ]%Q) /\
  exists (kind : string) (rows : matrix),
    chose_score_type ["misaligned"] two_notes = Ok kind /\
    score_rows kind two_notes = Ok rows /\
    Permutation [ [62; 1; 2; 90; 0; 0]; [60; 3; 4; 80; 0; 0] ]%Q rows.
Proof.
  apply (get_score_mat_sorted_by_onset argsort_ties_reversed two_notes
           ["misaligned"] _ argsort_ties_reversed_sorts).
  reflexivity.
Defined.

(** The row of a matrix at the place that an index list gives. *)
Lemma take_rows_nth (rows : matrix) (idx : list nat) (n : nat) :
  nth n (take_rows rows idx) [] = nth (nth n idx (length rows)) rows [].
Proof.
  unfold take_rows.
  rewrite <- (map_nth (fun i => nth i rows []) idx (length rows) n).
  rewrite (nth_overflow rows) by lia. reflexivity.
Qed.

(** The sort on eighteen equal keys: one partition, which swaps the indices
    from 1 to 15 end for end, and two ranges that the insertion leaves as
    they are. *)
Lemma np_argsort_eighteen_ties :
  np_argsort (repeat 1%Q 18)
  = [0; 15; 14; 13; 12; 11; 10; 9; 8; 7; 6; 5; 4; 3; 2; 1; 16; 17]%nat.
Proof. vm_compute. reflexivity. Qed.

(** C5, as stated, fails: eighteen notes of one source at one onset come
    out of NumPy's sort in the order 0, 15, 14, ..., 1, 16, 17 of their
    places in the source, the note of pitch 75 before the note of pitch
    74. *)
Lemma sorted_and_stable_fails : ~ sorted_and_stable.
Proof.
  intros H.
  destruct (score_rows "misaligned" eighteen_notes_one_onset)
    as [rows|e] eqn:Hr; [|vm_compute in Hr; discriminate Hr].
  destruct (get_score_mat np_argsort eighteen_notes_one_onset ["misaligned"])
    as [m|e] eqn:Hm; [|vm_compute in Hm; discriminate Hm].
  destruct (H eighteen_notes_one_onset ["misaligned"] "misaligned" rows m
              eq_refl Hr Hm) as [_ (idx & Hp & Hidx & Hst)].
  vm_compute in Hr. injection Hr as <-.
  vm_compute in Hm. injection Hm as <-.
  pose proof (Permutation_length Hp) as Hlen.
  rewrite length_seq in Hlen. cbn [length] in Hlen.
  destruct (lookup_lt_is_Some_2 idx 1) as [i1 H1]; [lia|].
  destruct (lookup_lt_is_Some_2 idx 2) as [i2 H2]; [lia|].
  pose proof (f_equal (fun l => nth 1 l []) Hidx) as R1.
  pose proof (f_equal (fun l => nth 2 l []) Hidx) as R2.
  cbv beta in R1, R2. rewrite take_rows_nth in R1, R2.
  rewrite (nth_lookup_Some _ _ _ _ H1) in R1.
  rewrite (nth_lookup_Some _ _ _ _ H2) in R2.
  cbn [nth] in R1, R2.
  assert (i1 = 15%nat) as ->.
  { clear -R1.
    do 18 (destruct i1 as [|i1];
           [first [discriminate R1|reflexivity]|]).
    simpl in R1. destruct i1; discriminate R1. }
  assert (i2 = 14%nat) as ->.
  { clear -R2.
    do 18 (destruct i2 as [|i2];
           [first [discriminate R2|reflexivity]|]).
    simpl in R2. destruct i2; discriminate R2. }
  assert (15 < 14)%nat; [|lia].
  apply (Hst 1%nat 2%nat); [lia|exact H1|exact H2|reflexivity].
Qed.

End OrderByOnset.

(** ** Frame-based pedaling *)

Section Pedaling.

Import dataset_utils.

Lemma assign_slice_lookup (m : matrix) a b col v (i : nat) :
  assign_slice m a b col v !! i
  = (fun row =>
       if (slice_bound (len m) a <=? Z.of_nat i) &&
          (Z.of_nat i <? match b with
                         | Some b' => slice_bound (len m) b'
                         | None => len m
                         end)
       then <[col := v]> row else row) <$> (m !! i).
Proof. unfold assign_slice. rewrite list_lookup_imap. reflexivity. Qed.

Lemma assign_slice_len (m : matrix) a b col v :
  len (assign_slice m a b col v) = len m.
Proof. unfold assign_slice, len. rewrite length_imap. reflexivity. Qed.

(** The two control changes of the example fall on frames 0 and 2, with a
    window of 0 as with a window of 0.5. *)
Lemma apply_two_sustain (winlen : Q) (frames0 : matrix) :
  winlen = 0%Q \/ winlen = (1 # 2)%Q ->
  for_each (apply_cc (1 # 2) winlen)
    (sort_by_time (cc_of_track gt_two_sustain)) (frames0, last_values_init)
  = Ok (assign_slice (assign_slice frames0 0 (Some 0) 1 0%Q) 0 (Some 2) 1 0%Q,
        <[1%nat := mkLast 2 127%Q]>
          (<[1%nat := mkLast 0 0%Q]> last_values_init)).
Proof. intros [->| ->]; reflexivity. Qed.

Lemma hold_two_sustain (frames : matrix) :
  for_each hold_to_end [1%nat; 2%nat; 3%nat]
    (frames, <[1%nat := mkLast 2 127%Q]>
               (<[1%nat := mkLast 0 0%Q]> last_values_init))
  = Ok (assign_slice
          (assign_slice (assign_slice frames 2 None 1 127%Q) 0 None 2 0%Q)
          0 None 3 0%Q,
        <[1%nat := mkLast 2 127%Q]>
          (<[1%nat := mkLast 0 0%Q]> last_values_init)).
Proof. reflexivity. Qed.

Lemma frame_track_two_sustain (dur winlen : Q) :
  winlen = 0%Q \/ winlen = (1 # 2)%Q ->
  frame_track dur winlen (1 # 2) (sort_by_time (cc_of_track gt_two_sustain))
  = let n_frames := py_int ((dur - winlen) / (1 # 2) + 1)%Q + 1 in
    if n_frames <? 0 then Raise ValueError
    else Ok (held_two_sustain
               (blank_frames (1 # 2) winlen (Z.to_nat n_frames))).
Proof.
  intros Hw. unfold frame_track.
  change (utils.nframes dur (1 # 2) winlen)
    with (Ok ((dur - winlen) / (1 # 2) + 1)%Q : result Q).
  cbv zeta. unfold rbind at 1.
  destruct (py_int ((dur - winlen) / (1 # 2) + 1) + 1 <? 0); [reflexivity|].
  rewrite apply_two_sustain by exact Hw. unfold rbind at 1.
  change (0 <? len (sort_by_time (cc_of_track gt_two_sustain))) with true.
  cbv iota. rewrite hold_two_sustain. reflexivity.
Qed.

(** The rows of the example after the two control changes and the final
    hold: frames 0 and 1 hold 0, every later frame holds 127. *)
Lemma held_row (winlen : Q) (n i : nat) (r : list Q) :
  held_two_sustain (blank_frames (1 # 2) winlen n) !! i = Some r ->
  (i < n)%nat /\
  r = [(inject_Z (Z.of_nat i) * (1 # 2) + winlen / 2)%Q;
       if (i <? 2)%nat then 0%Q else 127%Q; 0%Q; 0%Q].
Proof.
  unfold held_two_sustain, blank_frames.
  rewrite !assign_slice_lookup, !assign_slice_len.
  unfold len. rewrite length_map, length_seq.
  rewrite list_lookup_fmap.
  destruct (seq 0 n !! i) as [k|] eqn:Hk; [|discriminate].
  apply lookup_seq in Hk as [-> Hin]. simpl.
  intros [= <-]. split; [exact Hin|].
  unfold slice_bound.
  change (0 <? 0) with false. change (2 <? 0) with false. cbv iota.
  destruct (Z.min 0 (Z.of_nat n) <=? Z.of_nat i) eqn:E0; zbool; [|lia].
  destruct (Z.of_nat i <? Z.min 0 (Z.of_nat n)) eqn:E1; zbool; [lia|].
  destruct (Z.of_nat i <? Z.of_nat n) eqn:E2; zbool; [|lia].
  destruct (i <? 2)%nat eqn:E3; zbool.
  - destruct (Z.of_nat i <? Z.min 2 (Z.of_nat n)) eqn:E4; zbool; [|lia].
    destruct (Z.min 2 (Z.of_nat n) <=? Z.of_nat i) eqn:E5; zbool; [lia|].
    reflexivity.
  - destruct (Z.of_nat i <? Z.min 2 (Z.of_nat n)) eqn:E4; zbool; [lia|].
    destruct (Z.min 2 (Z.of_nat n) <=? Z.of_nat i) eqn:E5; zbool; [|lia].
    reflexivity.
Qed.

Lemma held_length (frames0 : matrix) :
  length (held_two_sustain frames0) = length frames0.
Proof.
  unfold held_two_sustain, assign_slice. rewrite !length_imap. reflexivity.
Qed.

Lemma py_int_ge (k : Z) (q : Q) : (inject_Z k <= q)%Q -> k <= py_int q.
Proof.
  unfold Qle, py_int. simpl. intros H.
  apply Z.quot_le_lower_bound; lia.
Qed.

(** C9, as the code has it. For sustain@(t=0,v=0), sustain@(t=1,v=127),
    frame_len=0 and hop=0.5, and a song of non-negative duration, the call
    returns one matrix of at least two frames; frame [i] is timestamped
    [i*hop + frame_len/2], that is 0, 0.5, 1, ...; the sustain column holds 0
    at the frames timestamped before 1 (those at 0 and 0.5) and 127 at every
    frame timestamped 1 or later; the other two pedals hold 0. *)
Theorem pedal_hold_frames (dur : Q) :
  (0 <= dur)%Q ->
  exists m : matrix,
    get_pedaling_mat [gt_two_sustain] dur true 0%Q (1 # 2)%Q = Ok [m] /\
    (2 <= length m)%nat /\
    forall (i : nat) (r : list Q), m !! i = Some r ->
      cell r 0 = utils.frame2time (Z.of_nat i) (1 # 2) 0 /\
      ((cell r 0 < 1)%Q -> cell r 1 = 0%Q) /\
      ((1 <= cell r 0)%Q -> cell r 1 = 127%Q) /\
      cell r 2 = 0%Q /\ cell r 3 = 0%Q.
Proof.
  intros Hdur.
  assert (1 <= py_int ((dur - 0) / (1 # 2) + 1)%Q) as Hn.
  { apply py_int_ge. destruct dur as [a b].
    revert Hdur. unfold Qle, Qdiv, Qminus, Qplus, Qmult, Qinv, Qopp. simpl.
    lia. }
  unfold get_pedaling_mat, for_each.
  rewrite frame_track_two_sustain by (left; reflexivity). cbv zeta.
  destruct (py_int ((dur - 0) / (1 # 2) + 1) + 1 <? 0) eqn:E; zbool; [lia|].
  eexists. split; [reflexivity|]. split.
  - rewrite held_length. unfold blank_frames.
    rewrite length_map, length_seq. lia.
  - intros i r Hr. apply held_row in Hr as [_ ->].
    unfold utils.frame2time, cell. simpl.
    split; [reflexivity|].
    destruct (i <? 2)%nat eqn:E2; zbool.
    + repeat split; try reflexivity.
      intros H1. exfalso. revert H1. unfold Qle, Qplus, Qmult, Qdiv. simpl. lia.
    + repeat split; try reflexivity.
      intros H1. exfalso. revert H1. unfold Qlt, Qplus, Qmult, Qdiv. simpl. lia.
Qed.

Lemma pedal_hold_frames_witness :
  exists m : matrix,
    get_pedaling_mat [gt_two_sustain] 2%Q true 0%Q (1 # 2)%Q = Ok [m] /\
    (2 <= length m)%nat.
Proof.
  assert (0 <= 2)%Q as H by (unfold Qle; simpl; lia).
  destruct (pedal_hold_frames 2%Q H) as (m & Hm & Hlen & _).
  exists m. split; assumption.
Defined.

(** C9, as stated, fails: with frame_len=0 and hop=0.5 the frames are
    timestamped 0, 0.5, 1, ...; no frame is timestamped 0.25. *)
Lemma pedal_hold_as_stated_fails : ~ pedal_hold_as_stated 2%Q.
Proof.
  intros (m & Hm & _ & (r & Hin & Ht & _) & _).
  vm_compute in Hm. injection Hm as <-.
  simpl in Hin.
  repeat (destruct Hin as [<-|Hin]; [revert Ht; unfold Qeq; simpl; lia|]).
  exact Hin.
Qed.

(** The timestamps 0.25, 0.75, 1.25 of the statement are those of a window
    of 0.5: with frame_len=0.5 and hop=0.5, and a song of duration 1 or
    more, the frames timestamped 0.25 and 0.75 hold 0 and every frame
    timestamped 1.25 or later holds 127. *)
Lemma half_window_pedal_hold (dur : Q) :
  (1 <= dur)%Q ->
  exists m : matrix,
    get_pedaling_mat [gt_two_sustain] dur true (1 # 2)%Q (1 # 2)%Q = Ok [m] /\
    (3 <= length m)%nat /\
    forall (i : nat) (r : list Q), m !! i = Some r ->
      cell r 0 = utils.frame2time (Z.of_nat i) (1 # 2) (1 # 2) /\
      ((cell r 0 == 1 # 4)%Q -> cell r 1 = 0%Q) /\
      ((cell r 0 == 3 # 4)%Q -> cell r 1 = 0%Q) /\
      ((5 # 4 <= cell r 0)%Q -> cell r 1 = 127%Q).
Proof.
  intros Hdur.
  assert (2 <= py_int ((dur - (1 # 2)) / (1 # 2) + 1)%Q) as Hn.
  { apply py_int_ge. destruct dur as [a b].
    revert Hdur. unfold Qle, Qdiv, Qminus, Qplus, Qmult, Qinv, Qopp. simpl.
    lia. }
  unfold get_pedaling_mat, for_each.
  rewrite frame_track_two_sustain by (right; reflexivity). cbv zeta.
  destruct (py_int ((dur - (1 # 2)) / (1 # 2) + 1) + 1 <? 0) eqn:E; zbool;
    [lia|].
  eexists. split; [reflexivity|]. split.
  - rewrite held_length. unfold blank_frames.
    rewrite length_map, length_seq. lia.
  - intros i r Hr. apply held_row in Hr as [_ ->].
    unfold utils.frame2time, cell. simpl.
    split; [reflexivity|].
    destruct (i <? 2)%nat eqn:E2; zbool.
    + repeat split; try reflexivity.
      intros H1. exfalso. revert H1. unfold Qle, Qplus, Qmult, Qdiv. simpl. lia.
    + repeat split; try reflexivity;
        intros H1; exfalso; revert H1;
        unfold Qeq, Qplus, Qmult, Qdiv; simpl; lia.
Qed.

End Pedaling.

(** ** Filtering: a requested kind that a dataset does not record *)

Section FilterGroundTruth.

Import dataset_utils.

Lemma for_each_raises {A S} (body : S -> A -> result S) (l : list A) (x : A) :
  In x l -> (forall s, exists e, body s x = Raise e) ->
  forall s, exists e, for_each body l s = Raise e.
Proof.
  intros Hin Hx. induction l as [|y l IH]; [destruct Hin|].
  intros s. simpl.
  destruct Hin as [->|Hin].
  - destruct (Hx s) as [e ->]. exists e. reflexivity.
  - destruct (body s y) as [s'|e]; simpl; [apply IH; exact Hin|].
    exists e. reflexivity.
Qed.

Lemma check_ground_truth_absent (d : Dataset) (FLAG : bool)
    (pre post : list (string * Z)) (kind : string) (val : Z) :
  (forall k v, In (k, v) pre -> gt_level d k = Some v) ->
  gt_level d kind = None ->
  check_ground_truth (pre ++ (kind, val) :: post) d FLAG = Raise KeyError.
Proof.
  intros Hpre Habs. induction pre as [|[k v] pre IH]; simpl.
  - unfold gt_level in Habs. destruct (d_ground_truth d) as [m|]; simpl;
      [rewrite Habs|]; reflexivity.
  - pose proof (Hpre k v (or_introl eq_refl)) as Hk. unfold gt_level in Hk.
    destruct (d_ground_truth d) as [m|] eqn:Hm; [|discriminate].
    simpl. rewrite Hk. simpl. rewrite Z.eqb_refl. simpl.
    apply IH. intros k' v' Hin. unfold gt_level. apply Hpre.
    right. exact Hin.
Qed.

Lemma dataset_flag_absent (cr : criteria) (d : Dataset)
    (pre post : list (string * Z)) (kind : string) (val : Z) :
  c_ground_truth cr = pre ++ (kind, val) :: post ->
  (forall k v, In (k, v) pre -> gt_level d k = Some v) ->
  gt_level d kind = None ->
  dataset_flag cr d = Raise KeyError.
Proof.
  intros Hreq Hpre Habs. unfold dataset_flag. rewrite Hreq.
  destruct (c_ensemble cr) as [e|]; simpl.
  - destruct (d_ensemble d) as [e'|]; simpl; [|reflexivity].
    apply check_ground_truth_absent; assumption.
  - apply check_ground_truth_absent; assumption.
Qed.

(** C3, as the code has it. When a dataset does not record a requested
    kind and meets every requirement listed before it, the lookup of the
    kind raises [KeyError] at that dataset, and the call to [filter] raises:
    it returns no corpus. *)
Theorem filter_absent_kind_raises (corpus : Corpus) (cr : criteria)
    (d : Dataset) (pre post : list (string * Z)) (kind : string) (val : Z) :
  In d (datasets corpus) ->
  c_ground_truth cr = pre ++ (kind, val) :: post ->
  (forall k v, In (k, v) pre -> gt_level d k = Some v) ->
  gt_level d kind = None ->
  dataset_flag cr d = Raise KeyError /\
  exists e, filter corpus cr = Raise e.
Proof.
  intros Hd Hreq Hpre Habs.
  pose proof (dataset_flag_absent cr d pre post kind val Hreq Hpre Habs) as Hf.
  split; [exact Hf|].
  unfold filter.
  destruct (for_each_raises (filter_dataset cr) (datasets corpus) d Hd)
    with (s := mkState 0 [] (chunks corpus) []) as [e He].
  - intros s. exists KeyError. unfold filter_dataset. rewrite Hf. reflexivity.
  - exists e. rewrite He. reflexivity.
Qed.

Lemma filter_absent_kind_raises_witness :
  dataset_flag need_score (mkDataset "A" true None (Some ∅) [plain_song])
  = Raise KeyError /\
  exists e, filter corpus_no_levels need_score = Raise e.
Proof.
  apply (filter_absent_kind_raises corpus_no_levels need_score
           (mkDataset "A" true None (Some ∅) [plain_song]) [] [] "score" 1).
  - simpl. left. reflexivity.
  - reflexivity.
  - intros k v [].
  - reflexivity.
Defined.

(** A requirement listed before the absent kind and recorded with another
    level excludes the dataset before the absent kind is looked up. *)
Lemma check_ground_truth_mismatch_first (d : Dataset) (FLAG : bool)
    (pre post : list (string * Z)) (kind : string) (val val' : Z) :
  (forall k v, In (k, v) pre -> gt_level d k = Some v) ->
  gt_level d kind = Some val' -> val' <> val ->
  check_ground_truth (pre ++ (kind, val) :: post) d FLAG = Ok false.
Proof.
  intros Hpre Hk Hne. induction pre as [|[k v] pre IH]; simpl.
  - unfold gt_level in Hk. destruct (d_ground_truth d) as [m|]; [|discriminate].
    simpl. rewrite Hk. simpl.
    destruct (val' =? val) eqn:E; [apply Z.eqb_eq in E; contradiction|].
    reflexivity.
  - pose proof (Hpre k v (or_introl eq_refl)) as Hk'. unfold gt_level in Hk'.
    destruct (d_ground_truth d) as [m|] eqn:Hm; [|discriminate].
    simpl. rewrite Hk'. simpl. rewrite Z.eqb_refl. simpl.
    apply IH. intros k' v' Hin. apply Hpre. right. exact Hin.
Qed.

(** C3, as stated, fails: on a dataset that records no kind, a request for
    [score] makes [filter] raise [KeyError]. *)
Lemma fail_closed_fails : ~ fail_closed.
Proof.
  intros H.
  destruct (H corpus_no_levels need_score 0%nat
              (mkDataset "A" true None (Some ∅) [plain_song]) "score" 1
              eq_refl (or_introl eq_refl) eq_refl)
    as (orig & ret & d' & Hf & _).
  discriminate Hf.
Qed.

End FilterGroundTruth.

(** ** Filtering: the chunk map *)

Section FilterChunks.

Import dataset_utils.

Variable cr : criteria.

(** The loop over the songs keeps [end] equal to the number of rows. *)
Lemma filter_songs_end (songs : list Song) (st st' : song_state) :
  for_each (filter_song cr) songs st = Ok st' ->
  st.1.1 = length st.1.2 ->
  (st.1.1 <= st'.1.1)%nat /\ st'.1.1 = length st'.1.2.
Proof.
  revert st. induction songs as [|song songs IH]; intros st Hrun Hinv.
  - injection Hrun as <-. split; [lia|exact Hinv].
  - simpl in Hrun.
    destruct (filter_song cr st song) as [st1|e] eqn:Hstep; [|discriminate].
    simpl in Hrun. apply IH in Hrun.
    + destruct st as [[e ps] vis]. simpl in *.
      destruct (song_flag cr song) as [[|]|]; simpl in Hstep;
        [destruct (song_row cr song); simpl in Hstep| |];
        try discriminate; injection Hstep as <-; simpl in *; lia.
    + destruct st as [[e ps] vis]. simpl in *.
      destruct (song_flag cr song) as [[|]|]; simpl in Hstep;
        [destruct (song_row cr song); simpl in Hstep| |];
        try discriminate; injection Hstep as <-; simpl in *;
        [rewrite length_app; simpl; lia | exact Hinv].
Qed.

(** One dataset: either excluded, with the state of the loop as it was, or
    included, with one chunk from the old [end] to the new one. *)
Lemma filter_dataset_chunk (st st' : filter_state) (d : Dataset) :
  filter_dataset cr st d = Ok st' ->
  st_end st = length (st_paths st) ->
  st_end st' = length (st_paths st') /\
  if passes cr d then
    (st_end st <= st_end st')%nat /\
    st_chunks st' = <[d_name d := (st_end st, st_end st')]> (st_chunks st)
  else
    st_end st' = st_end st /\ st_chunks st' = st_chunks st.
Proof.
  unfold filter_dataset, passes. intros Hrun Hinv.
  destruct (dataset_flag cr d) as [[|]|]; simpl in Hrun; [| |discriminate].
  - destruct (for_each (filter_song cr) (d_songs d)
                (st_end st, st_paths st, [])) as [[[e' ps'] songs']|] eqn:Hs;
      simpl in Hrun; [|discriminate].
    apply filter_songs_end in Hs; [|exact Hinv]. simpl in Hs.
    injection Hrun as <-. simpl. split; [apply Hs|]. split; [apply Hs|].
    apply map_eq. intros k. rewrite lookup_alter.
    destruct (decide (d_name d = k)) as [->|Hne].
    + rewrite !lookup_insert_eq. reflexivity.
    + rewrite !lookup_insert_ne by exact Hne. reflexivity.
  - injection Hrun as <-. simpl. auto.
Qed.

(** The chunks written by the loop over the datasets: one per dataset that
    passes, in the order of the datasets, contiguous from the first [end]
    to the last one. *)
Lemma filter_datasets_chunks (ds : list Dataset) (st st' : filter_state) :
  for_each (filter_dataset cr) ds st = Ok st' ->
  st_end st = length (st_paths st) ->
  exists segs : list (string * (nat * nat)),
    map fst segs = map d_name (List.filter (passes cr) ds) /\
    chain (st_end st) (map snd segs) (st_end st') /\
    st_chunks st'
    = fold_left (fun m kv => <[fst kv := snd kv]> m) segs (st_chunks st) /\
    st_end st' = length (st_paths st').
Proof.
  revert st. induction ds as [|d ds IH]; intros st Hrun Hinv.
  - injection Hrun as <-. exists []. simpl. auto.
  - simpl in Hrun.
    destruct (filter_dataset cr st d) as [st1|e] eqn:Hstep; [|discriminate].
    simpl in Hrun.
    apply filter_dataset_chunk in Hstep as [Hinv1 Hd]; [|exact Hinv].
    destruct (IH st1 Hrun Hinv1) as (segs & Hkeys & Hchain & Hch & Hend).
    simpl. destruct (passes cr d).
    + destruct Hd as [Hle Hc1].
      exists ((d_name d, (st_end st, st_end st1)) :: segs). simpl.
      rewrite Hkeys, <- Hc1. auto.
    + destruct Hd as [He1 Hc1]. exists segs. rewrite <- He1, <- Hc1. auto.
Qed.

End FilterChunks.

Section ChunkMaps.

Lemma chain_widths (l : list (nat * nat)) (a b : nat) :
  chain a l b -> (a <= b)%nat /\ widths l = (b - a)%nat.
Proof.
  revert a. induction l as [|[s e] l IH]; simpl; intros a H.
  - subst. split; lia.
  - destruct H as (-> & Hle & Hrest). apply IH in Hrest as [Hle' Hw].
    rewrite Hw. split; lia.
Qed.

Lemma widths_perm (l l' : list (nat * nat)) :
  Permutation l l' -> widths l = widths l'.
Proof.
  induction 1 as [|c l l' _ IH|c c' l|l l' l'' _ IH1 _ IH2]; simpl; lia.
Qed.

(** Inserting the chunks of a list with distinct names into a map over
    whose names they range gives the map of that list. *)
Lemma fold_insert_union (segs : list (string * (nat * nat)))
    (m : gmap string (nat * nat)) :
  NoDup (map fst segs) ->
  fold_left (fun m kv => <[fst kv := snd kv]> m) segs m
  = list_to_map segs ∪ m.
Proof.
  revert m. induction segs as [|[k v] segs IH]; simpl; intros m Hnd.
  - rewrite (left_id_L ∅ (∪)). reflexivity.
  - apply NoDup_cons in Hnd as [Hk Hnd].
    rewrite IH by exact Hnd.
    rewrite <- insert_union_l. symmetry. apply insert_union_r.
    apply not_elem_of_list_to_map_1. exact Hk.
Qed.

Lemma union_covered (segs : list (string * (nat * nat)))
    (m : gmap string (nat * nat)) :
  (forall k, is_Some (m !! k) -> In k (map fst segs)) ->
  list_to_map segs ∪ m = (list_to_map segs : gmap string (nat * nat)).
Proof.
  intros Hcov. apply map_eq. intros k.
  destruct ((list_to_map segs : gmap string (nat * nat)) !! k) as [v|] eqn:E.
  - apply lookup_union_Some_l. exact E.
  - apply lookup_union_None. split; [exact E|].
    destruct (m !! k) as [v|] eqn:Em; [|reflexivity].
    exfalso. apply not_elem_of_list_to_map in E. apply E.
    apply list_elem_of_In. apply Hcov. eauto.
Qed.

Lemma NoDup_map_filter {A B} (f : A -> B) (p : A -> bool) (l : list A) :
  NoDup (map f l) -> NoDup (map f (List.filter p l)).
Proof.
  induction l as [|x l IH]; simpl; intros Hnd; [constructor|].
  apply NoDup_cons in Hnd as [Hx Hnd].
  destruct (p x); simpl; [|apply IH; exact Hnd].
  apply NoDup_cons. split; [|apply IH; exact Hnd].
  intros Hin. apply Hx.
  apply list_elem_of_In in Hin. apply list_elem_of_In.
  apply in_map_iff in Hin as (y & <- & Hy).
  apply in_map. apply filter_In in Hy. apply Hy.
Qed.

End ChunkMaps.

Section FilterPartition.

Import dataset_utils.

(** X23. When the datasets of the corpus have distinct names and every
    name already in the chunk map is the name of a dataset that passes the
    dataset-level tests of this call (as on a chunk map that is empty before
    the call), the chunk map of the corpus returned by [filter] partitions
    the rows of its path list: the chunks are contiguous from 0 to the
    number of rows and their widths add up to it. *)
Theorem filter_chunks_partition (corpus : Corpus) (cr : criteria)
    (orig ret : Corpus) :
  NoDup (map d_name (datasets corpus)) ->
  (forall name, is_Some (chunks corpus !! name) ->
     exists d, In d (datasets corpus) /\ d_name d = name /\
               dataset_flag cr d = Ok true) ->
  filter corpus cr = Ok (orig, ret) ->
  chunks_partition ret.
Proof.
  intros Hnames Hstale Hrun. unfold filter in Hrun.
  destruct (for_each (filter_dataset cr) (datasets corpus)
              (mkState 0 [] (chunks corpus) [])) as [st|e] eqn:Hloop;
    simpl in Hrun; [|discriminate].
  injection Hrun as _ <-.
  apply filter_datasets_chunks in Hloop
    as (segs & Hkeys & Hchain & Hch & Hend); [|reflexivity].
  simpl in Hchain, Hch.
  assert (NoDup (map fst segs)) as Hnd
    by (rewrite Hkeys; apply NoDup_map_filter; exact Hnames).
  assert (forall k, is_Some (chunks corpus !! k) -> In k (map fst segs))
    as Hcov.
  { intros k Hk. destruct (Hstale k Hk) as (d & Hin & <- & Hflag).
    rewrite Hkeys. apply in_map. apply filter_In. split; [exact Hin|].
    unfold passes. rewrite Hflag. reflexivity. }
  rewrite fold_insert_union in Hch by exact Hnd.
  rewrite union_covered in Hch by exact Hcov.
  assert (Permutation (map snd segs) (chunk_ranges (st_chunks st))) as Hperm.
  { unfold chunk_ranges. rewrite Hch. apply Permutation_map.
    symmetry. apply map_to_list_to_map. exact Hnd. }
  unfold chunks_partition. simpl. rewrite <- Hend. split.
  - exists (map snd segs). split; assumption.
  - rewrite <- (widths_perm _ _ Hperm).
    apply chain_widths in Hchain as [_ ->]. lia.
Qed.

Lemma filter_chunks_partition_witness :
  exists orig ret : Corpus,
    filter corpus_A_B keep_all = Ok (orig, ret) /\
    length (paths ret) = 2%nat /\ chunks_partition ret.
Proof.
  destruct (filter corpus_A_B keep_all) as [[orig ret]|e] eqn:E.
  - exists orig, ret. split; [reflexivity|]. split.
    + vm_compute in E. injection E as _ <-. reflexivity.
    + apply (filter_chunks_partition corpus_A_B keep_all orig ret).
      * simpl. refine (bool_decide_unpack _ _). vm_compute. exact I.
      * simpl. intros name [c Hc]. rewrite lookup_empty in Hc. discriminate Hc.
      * exact E.
  - vm_compute in E. discriminate E.
Defined.

(** C6. The path list is emptied at the start of a call and the chunk map
    is not.  After [filter()] on two datasets A and B of one song each and
    then [filter(datasets=['B'])] on the result, the path list holds the one
    row of B while the chunk map still holds the chunk [0, 1] of A next to
    the chunk [0, 1] of B: the chunks overlap, their widths add up to 2, and
    the chunk map does not partition the rows of the path list. *)
Theorem filter_keeps_stale_chunk :
  exists once twice : Corpus,
    filter corpus_A_B keep_all = Ok (once, once) /\
    filter once keep_B = Ok (twice, twice) /\
    length (paths twice) = 1%nat /\
    chunks twice !! "A" = Some (0, 1)%nat /\
    chunks twice !! "B" = Some (0, 1)%nat /\
    widths (chunk_ranges (chunks twice)) = 2%nat /\
    ~ chunks_partition twice.
Proof.
  destruct (filter corpus_A_B keep_all) as [[o1 r1]|e1] eqn:E1;
    [|vm_compute in E1; discriminate E1].
  assert (o1 = r1) as ->
    by (vm_compute in E1; injection E1 as <- <-; reflexivity).
  destruct (filter r1 keep_B) as [[o2 r2]|e2] eqn:E2;
    [|vm_compute in E1; injection E1 as <-;
      vm_compute in E2; discriminate E2].
  assert (o2 = r2) as ->.
  { vm_compute in E1. injection E1 as <-.
    vm_compute in E2. injection E2 as <- <-. reflexivity. }
  exists r1, r2. split; [reflexivity|]. split; [exact E2|].
  vm_compute in E1. injection E1 as <-.
  vm_compute in E2. injection E2 as <-.
  split; [reflexivity|]. split; [reflexivity|]. split; [reflexivity|].
  split; [reflexivity|].
  intros [_ Hw]. vm_compute in Hw. discriminate Hw.
Qed.

End FilterPartition.

(** ** Merging lists of records *)



Section MergeStore.

Import convert_gt.

Lemma evolves_refl (h : heap) : evolves h h.
Proof.
  split; [lia|]. split; [auto|]. intros l es Hl. exists es. auto.
Qed.

Lemma evolves_trans (h1 h2 h3 : heap) :
  evolves h1 h2 -> evolves h2 h3 -> evolves h1 h3.
Proof.
  intros (Hl1 & Hs1 & Hd1) (Hl2 & Hs2 & Hd2). split; [lia|]. split.
  - intros l xs Hl. apply Hs2, Hs1, Hl.
  - intros l es Hl. destruct (Hd1 l es Hl) as (es' & Hl' & Hk).
    destruct (Hd2 l es' Hl') as (es'' & Hl'' & Hk').
    exists es''. split; [exact Hl''|congruence].
Qed.

Lemma list_at_evolves h h' v xs :
  evolves h h' -> list_at h v xs -> list_at h' v xs.
Proof.
  intros (_ & Hs & _) (l & -> & Hl). exists l. split; [reflexivity|].
  apply Hs, Hl.
Qed.

Lemma dict_with_keys_evolves h h' v ks :
  evolves h h' -> dict_with_keys h v ks -> dict_with_keys h' v ks.
Proof.
  intros (_ & _ & Hd) (l & es & -> & Hl & Hk).
  destruct (Hd l es Hl) as (es' & Hl' & Hk').
  exists l, es'. split; [reflexivity|]. split; [exact Hl'|congruence].
Qed.

Lemma dict_holding_evolves h h' v ks :
  evolves h h' -> dict_holding h v ks -> dict_holding h' v ks.
Proof.
  intros (_ & _ & Hd) (l & es & -> & Hl & Hk).
  destruct (Hd l es Hl) as (es' & Hl' & Hk').
  exists l, es'. split; [reflexivity|]. split; [exact Hl'|].
  rewrite Hk'. exact Hk.
Qed.

Lemma row_mergeable_evolves h h' rest i d1 :
  evolves h h' -> row_mergeable h rest i d1 -> row_mergeable h' rest i d1.
Proof.
  intros He (ks & Hd1 & Hrest). exists ks. split.
  - eapply dict_with_keys_evolves; eassumption.
  - intros a Ha. destruct (Hrest a Ha) as (xs & d2 & Hxs & Hi & Hd2).
    exists xs, d2. split; [eapply list_at_evolves; eassumption|].
    split; [exact Hi|]. eapply dict_holding_evolves; eassumption.
Qed.

Lemma assoc_in (k : string) (es : list (string * val)) :
  In k (map fst es) -> exists v, assoc k es = Some v.
Proof.
  induction es as [|[k' v'] es IH]; simpl; [intros []|].
  intros Hin. destruct (String.eqb k k') eqn:E; [eauto|].
  destruct Hin as [->|Hin]; [rewrite String.eqb_refl in E; discriminate|].
  apply IH, Hin.
Qed.

Lemma assoc_set_keys (k : string) (x : val) (es : list (string * val)) :
  In k (map fst es) -> map fst (assoc_set k x es) = map fst es.
Proof.
  induction es as [|[k' v'] es IH]; simpl; [intros []|].
  intros Hin. destruct (String.eqb k k') eqn:E; simpl; [reflexivity|].
  destruct Hin as [->|Hin]; [rewrite String.eqb_refl in E; discriminate|].
  rewrite IH by exact Hin. reflexivity.
Qed.

Lemma lookup_new (h : heap) (o : obj) : (h ++ [o]) !! length h = Some o.
Proof. apply list_lookup_middle. reflexivity. Qed.

Lemma lookup_old (h : heap) (o o' : obj) (l : nat) :
  h !! l = Some o -> (h ++ [o']) !! l = Some o.
Proof. intros Hl. apply lookup_app_l_Some. exact Hl. Qed.

(** One key of one record: the field becomes a new list of the two values;
    the recursive call is not reached, whatever [rec] is. *)
Lemma merge_key_ok rec (h : heap) (key : string) (l1 l2 : nat)
    (es1 es2 : list (string * val)) :
  h !! l1 = Some (ODict es1) -> In key (map fst es1) ->
  h !! l2 = Some (ODict es2) -> In key (map fst es2) ->
  exists h', merge_key rec (VRef l1) (VRef l2) h key = Ok h' /\ evolves h h'.
Proof.
  intros H1 Hk1 H2 Hk2.
  destruct (assoc_in key es1 Hk1) as [v1 Hv1].
  destruct (assoc_in key es2 Hk2) as [v2 Hv2].
  pose proof (lookup_lt_Some _ _ _ H1) as Hlt1.
  unfold merge_key. simpl. rewrite H1. simpl. rewrite Hv1. simpl.
  rewrite lookup_new. simpl.
  rewrite (lookup_old _ _ _ _ H2). simpl. rewrite Hv2. simpl.
  unfold append. rewrite lookup_new. simpl.
  rewrite list_lookup_insert_ne by lia.
  rewrite (lookup_old _ _ _ _ H1).
  eexists. split; [reflexivity|].
  split; [rewrite !length_insert, length_app; simpl; lia|]. split.
  - intros l xs Hl. pose proof (lookup_lt_Some _ _ _ Hl) as Hlt.
    assert (l <> l1) by congruence.
    rewrite !list_lookup_insert_ne by lia.
    apply lookup_old. exact Hl.
  - intros l es Hl. pose proof (lookup_lt_Some _ _ _ Hl) as Hlt.
    destruct (decide (l = l1)) as [->|Hne].
    + rewrite list_lookup_insert_eq
        by (rewrite length_insert, length_app; simpl; lia).
      eexists. split; [reflexivity|].
      rewrite assoc_set_keys by exact Hk1. congruence.
    + rewrite !list_lookup_insert_ne by lia.
      exists es. split; [apply lookup_old; exact Hl|reflexivity].
Qed.

Lemma dict_holding_tail h v k ks :
  dict_holding h v (k :: ks) -> dict_holding h v ks.
Proof.
  intros (l & es & -> & Hl & Hk). exists l, es.
  split; [reflexivity|]. split; [exact Hl|].
  intros k' Hk'. apply Hk. right. exact Hk'.
Qed.

Lemma merge_keys_ok rec (d1 d2 : val) (keys : list string) (h : heap) :
  dict_holding h d1 keys -> dict_holding h d2 keys ->
  exists h', for_each (merge_key rec d1 d2) keys h = Ok h' /\ evolves h h'.
Proof.
  revert h. induction keys as [|key keys IH]; intros h Hd1 Hd2; simpl.
  - exists h. split; [reflexivity|apply evolves_refl].
  - destruct Hd1 as (l1 & es1 & -> & H1 & Hk1).
    destruct Hd2 as (l2 & es2 & -> & H2 & Hk2).
    destruct (merge_key_ok rec h key l1 l2 es1 es2 H1
                (Hk1 key (or_introl eq_refl)) H2
                (Hk2 key (or_introl eq_refl))) as (h1 & -> & He1).
    simpl.
    destruct (IH h1) as (h2 & Hrun & He2).
    + apply (dict_holding_evolves h h1 _ _ He1).
      apply (dict_holding_tail h _ key). exists l1, es1. auto.
    + apply (dict_holding_evolves h h1 _ _ He1).
      apply (dict_holding_tail h _ key). exists l2, es2. auto.
    + exists h2. split; [exact Hrun|].
      eapply evolves_trans; eassumption.
Qed.

Lemma merge_arg_ok rec (i : nat) (d1 d2 arg : val) (h : heap)
    (xs : list val) (ks : list string) :
  list_at h arg xs -> xs !! i = Some d2 ->
  dict_with_keys h d1 ks -> dict_holding h d2 ks ->
  exists h', merge_arg rec i d1 h arg = Ok h' /\ evolves h h'.
Proof.
  intros (la & -> & Ha) Hi Hd1 Hd2.
  unfold merge_arg, item, get_item. simpl. rewrite Ha. simpl.
  rewrite Hi. simpl.
  destruct Hd1 as (l1 & es1 & -> & H1 & Hk1). simpl. rewrite H1. simpl.
  rewrite Hk1. apply merge_keys_ok; [|exact Hd2].
  exists l1, es1. split; [reflexivity|]. split; [exact H1|].
  rewrite Hk1. auto.
Qed.

Lemma merge_args_ok rec (i : nat) (d1 : val) (rest : list val) (h : heap) :
  row_mergeable h rest i d1 ->
  exists h', for_each (merge_arg rec i d1) rest h = Ok h' /\ evolves h h'.
Proof.
  revert h. induction rest as [|arg rest IH]; intros h Hrow; simpl.
  - exists h. split; [reflexivity|apply evolves_refl].
  - pose proof Hrow as (ks & Hd1 & Hrest).
    destruct (Hrest arg (or_introl eq_refl)) as (xs & d2 & Hxs & Hi & Hd2).
    destruct (merge_arg_ok rec i d1 d2 arg h xs ks Hxs Hi Hd1 Hd2)
      as (h1 & -> & He1).
    simpl. destruct (IH h1) as (h2 & Hrun & He2).
    + apply (row_mergeable_evolves h h1 _ _ _ He1).
      exists ks. split; [exact Hd1|].
      intros a Ha. apply Hrest. right. exact Ha.
    + exists h2. split; [exact Hrun|]. eapply evolves_trans; eassumption.
Qed.

Lemma merge_records_ok rec (a0 : val) (rest : list val)
    (rows : list (nat * val)) (h : heap) :
  (forall p, In p rows -> row_mergeable h rest (fst p) (snd p)) ->
  exists h', for_each (merge_record rec (a0 :: rest)) rows h = Ok h' /\
             evolves h h'.
Proof.
  revert h. induction rows as [|p rows IH]; intros h Hrows; simpl.
  - exists h. split; [reflexivity|apply evolves_refl].
  - unfold merge_record at 1. simpl. rewrite drop_0.
    destruct (merge_args_ok rec (fst p) (snd p) rest h
                (Hrows p (or_introl eq_refl))) as (h1 & -> & He1).
    simpl. destruct (IH h1) as (h2 & Hrun & He2).
    + intros q Hq. apply (row_mergeable_evolves h h1 _ _ _ He1).
      apply Hrows. right. exact Hq.
    + exists h2. split; [exact Hrun|]. eapply evolves_trans; eassumption.
Qed.

Lemma in_enumerate_from {A} (xs : list A) (a i : nat) (x : A) :
  In (i, x) (combine (seq a (length xs)) xs) ->
  (a <= i)%nat /\ xs !! (i - a)%nat = Some x.
Proof.
  revert a. induction xs as [|y xs IH]; simpl; intros a; [intros []|].
  intros [[= <- <-]|Hin].
  - rewrite Nat.sub_diag. split; [lia|reflexivity].
  - apply IH in Hin as [Hle Hx]. split; [lia|].
    replace (i - a)%nat with (S (i - S a)) by lia. exact Hx.
Qed.

Lemma in_enumerate {A} (xs : list A) (i : nat) (x : A) :
  In (i, x) (enumerate xs) -> xs !! i = Some x.
Proof.
  intros Hin. apply in_enumerate_from in Hin as [_ Hx].
  rewrite Nat.sub_0_r in Hx. exact Hx.
Qed.

Lemma evolves_alloc (h : heap) (o : obj) : evolves h (h ++ [o]).
Proof.
  split; [rewrite length_app; lia|]. split.
  - intros l xs Hl. apply lookup_old. exact Hl.
  - intros l es Hl. exists es. split; [apply lookup_old; exact Hl|reflexivity].
Qed.

Lemma len_of_list_at h v xs : list_at h v xs -> len_of h v = length xs.
Proof.
  intros (l & -> & Hl). unfold len_of. simpl. rewrite Hl. reflexivity.
Qed.

Lemma same_lengths_loop (h : heap) (args : list val) (a0 : val)
    (xs0 : list val) (l : list val) (ok : bool) :
  first args = Ok a0 -> items_of h a0 = Ok xs0 ->
  (forall a, In a l -> exists xs, list_at h a xs) ->
  for_each
    (fun (ok : bool) (x : val) =>
       if ok then
         xs <-! items_of h x;
         a0 <-! first args;
         xs0 <-! items_of h a0;
         Ok (Nat.eqb (length xs) (length xs0))
       else Ok false)
    l ok
  = Ok (ok && forallb (fun a => Nat.eqb (len_of h a) (length xs0)) l).
Proof.
  intros Hfirst H0 Hl. rewrite Hfirst. cbn [rbind]. rewrite H0. cbn [rbind].
  revert ok. induction l as [|a l IH]; intros ok; simpl.
  - rewrite andb_true_r. reflexivity.
  - destruct (Hl a (or_introl eq_refl)) as (xs & Ha).
    rewrite (len_of_list_at _ _ _ Ha).
    destruct Ha as (la & -> & Hla).
    destruct ok; simpl.
    + rewrite Hla. simpl.
      rewrite IH by (intros a' Ha'; apply Hl; right; exact Ha').
      reflexivity.
    + rewrite IH by (intros a' Ha'; apply Hl; right; exact Ha').
      reflexivity.
Qed.

Lemma same_lengths_spec (h : heap) (a0 : val) (rest : list val)
    (xs0 : list val) :
  list_at h a0 xs0 ->
  (forall a, In a rest -> exists xs, list_at h a xs) ->
  same_lengths h (a0 :: rest)
  = Ok (forallb (fun a => Nat.eqb (len_of h a) (length xs0)) rest).
Proof.
  intros (l0 & -> & H0) Hrest. unfold same_lengths. simpl drop.
  rewrite drop_0.
  apply (same_lengths_loop h (VRef l0 :: rest) (VRef l0) xs0 rest true).
  - reflexivity.
  - simpl. rewrite H0. reflexivity.
  - exact Hrest.
Qed.

Lemma all_lists (h : heap) (args : list val) :
  (forall a, In a args -> exists xs, list_at h a xs) ->
  forallb (is_list h) args = true.
Proof.
  intros Hall. apply forallb_forall. intros a Ha.
  destruct (Hall a Ha) as (xs & l & -> & Hl). simpl. rewrite Hl. reflexivity.
Qed.

(** C7, as the code has it. Let every argument be a list.  If the lists
    have the length of the first one and, when there are several, each
    record of the first list is a dictionary whose keys the records at the
    same position of the other lists hold, [merge] returns a list of that
    length.  If some list has another length than the first, [merge] fails
    its assertion on the lengths. *)
Theorem merge_lengths (fuel : nat) (h : heap) (a0 : val) (rest : list val)
    (xs0 : list val) :
  list_at h a0 xs0 ->
  (forall a, In a rest -> exists xs, list_at h a xs) ->
  ((forall a, In a rest -> len_of h a = length xs0) ->
   (rest <> [] ->
    forall i d1, xs0 !! i = Some d1 -> row_mergeable h rest i d1) ->
   exists (r : val) (h' : heap) (ys : list val),
     merge (S fuel) (a0 :: rest) h = Ok (r, h') /\
     list_at h' r ys /\ length ys = length xs0) /\
  ((exists a, In a rest /\ len_of h a <> length xs0) ->
   merge (S fuel) (a0 :: rest) h
   = Raise (AssertionError "Cannot merge list with different lenghts")).
Proof.
  intros H0 Hrest.
  assert (forallb (is_list h) (a0 :: rest) = true) as Hlists.
  { apply all_lists. intros a [<-|Ha]; [eauto|apply Hrest, Ha]. }
  pose proof (same_lengths_spec h a0 rest xs0 H0 Hrest) as Hsame.
  split.
  - intros Hlen Hrows.
    assert (forallb (fun a => Nat.eqb (len_of h a) (length xs0)) rest = true)
      as Hall.
    { apply forallb_forall. intros a Ha. apply Nat.eqb_eq, Hlen, Ha. }
    rewrite Hall in Hsame.
    cbn [merge]. rewrite Hlists, Hsame. cbn [negb rbind].
    destruct rest as [|a1 rest].
    + exists a0, h, xs0. split; [reflexivity|]. split; [exact H0|reflexivity].
    + assert ((len (a0 :: a1 :: rest) =? 1) = false) as ->.
      { apply Z.eqb_neq. unfold len. cbn [length]. lia. }
      destruct H0 as (l0 & -> & Hl0).
      cbn [first rbind items_of]. rewrite Hl0. cbn [rbind alloc].
      rewrite lookup_new. cbn [rbind].
      destruct (merge_records_ok (merge fuel) (VRef l0) (a1 :: rest)
                  (enumerate xs0) (h ++ [OList xs0])) as (h2 & -> & He).
      * intros [i d1] Hin. simpl.
        apply (row_mergeable_evolves h); [apply evolves_alloc|].
        apply Hrows; [discriminate|]. apply in_enumerate. exact Hin.
      * cbn [rbind]. exists (VRef (length h)), h2, xs0.
        split; [reflexivity|]. split; [|reflexivity].
        exists (length h). split; [reflexivity|].
        destruct He as (_ & Hs & _). apply Hs. apply lookup_new.
  - intros (a & Ha & Hne).
    assert (forallb (fun a => Nat.eqb (len_of h a) (length xs0)) rest = false)
      as Hall.
    { apply not_true_is_false. intros Hall.
      rewrite forallb_forall in Hall. apply Hne, Nat.eqb_eq, Hall, Ha. }
    rewrite Hall in Hsame.
    cbn [merge]. rewrite Hlists, Hsame. reflexivity.
Qed.

Lemma merge_lengths_witness :
  exists (r : val) (h' : heap) (ys : list val),
    merge 1 [VRef 2; VRef 5] heap_two_records = Ok (r, h') /\
    list_at h' r ys /\ length ys = 1%nat.
Proof.
  apply (proj1 (merge_lengths 0 heap_two_records (VRef 2) [VRef 5] [VRef 1]
                  (ex_intro _ 2%nat (conj eq_refl eq_refl))
                  (fun a Ha =>
                     match Ha with
                     | or_introl e =>
                         ex_intro _ [VRef 4]
                           (ex_intro _ 5%nat
                              (conj (eq_sym e) eq_refl))
                     | or_intror f => match f with end
                     end))).
  - intros a [<-|[]]. reflexivity.
  - intros _ i d1 Hi. destruct i as [|i]; [|destruct i; discriminate Hi].
    injection Hi as <-. exists ["pitches"]. split.
    + exists 1%nat, [("pitches", VRef 0)]. repeat split.
    + intros a [<-|[]]. exists [VRef 4], (VRef 4).
      split; [exists 5%nat; split; reflexivity|]. split; [reflexivity|].
      exists 4%nat, [("pitches", VRef 3)]. repeat split. auto.
Defined.

(** The test [type(d1_element) is dict] is made on a list just built: the
    recursive call is never reached, and the result of [merge] does not
    depend on the bound on the depth of the recursion. *)
Lemma merge_key_never_recurses rec rec' (d1 d2 : val) (h : heap)
    (key : string) :
  merge_key rec d1 d2 h key = merge_key rec' d1 d2 h key.
Proof.
  unfold merge_key. destruct (subscript h d1 key) as [v1|e]; [|reflexivity].
  simpl. rewrite lookup_new. reflexivity.
Qed.

Lemma for_each_ext {A S} (f g : S -> A -> result S) (l : list A) (s : S) :
  (forall s x, f s x = g s x) -> for_each f l s = for_each g l s.
Proof.
  intros Hfg. revert s. induction l as [|x l IH]; intros s; simpl;
    [reflexivity|].
  rewrite Hfg. destruct (g s x); simpl; [apply IH|reflexivity].
Qed.

Lemma merge_fuel_irrelevant (fuel fuel' : nat) (args : list val) (h : heap) :
  merge (S fuel) args h = merge (S fuel') args h.
Proof.
  cbn [merge].
  destruct (negb (forallb (is_list h) args)); [reflexivity|].
  destruct (same_lengths h args) as [same|e]; [|reflexivity].
  cbn [rbind]. destruct (negb same); [reflexivity|].
  destruct (len args =? 1); [reflexivity|].
  destruct (first args) as [a0|e]; [|reflexivity]. cbn [rbind].
  destruct (items_of h a0) as [xs0|e]; [|reflexivity]. cbn [rbind alloc].
  destruct (items_of (h ++ [OList xs0]) (VRef (length h))) as [elems|e];
    [|reflexivity].
  cbn [rbind]. f_equal. apply for_each_ext. intros s p.
  unfold merge_record. apply for_each_ext. intros s' arg.
  unfold merge_arg. destruct (item s' arg (fst p)); [|reflexivity].
  cbn [rbind]. destruct (keys_of s' (snd p)); [|reflexivity].
  cbn [rbind]. apply for_each_ext. intros s'' key.
  apply merge_key_never_recurses.
Qed.

End MergeStore.

Section MergeExamples.

Import convert_gt.

(** C10. Called on one list, [merge] returns that very list object and
    leaves the store as it is: nothing is copied, no field is wrapped, and
    the items of the result are the items of the argument. *)
Theorem merge_single (fuel : nat) (h : heap) (l : nat) (xs : list val) :
  h !! l = Some (OList xs) ->
  merge (S fuel) [VRef l] h = Ok (VRef l, h) /\
  items_of h (VRef l) = Ok xs.
Proof.
  intros Hl. simpl. unfold same_lengths. simpl. rewrite Hl. simpl.
  split; reflexivity.
Qed.

Lemma merge_single_witness :
  merge 1 [VRef 2] heap_two_records = Ok (VRef 2, heap_two_records) /\
  items_of heap_two_records (VRef 2) = Ok [VRef 1].
Proof.
  apply (merge_single 0 heap_two_records 2 [VRef 1]). reflexivity.
Defined.

(** C2. Two records whose field is a nested mapping are not merged inside
    that mapping: the field of the result is the sequence of the two
    sub-mappings.  The test [type(d1_element) is dict] is made on the list
    that wraps the field, so the recursive call is reached for no record at
    all: the loop body is the same whatever [merge] would do. *)
Theorem merge_nested_mapping_not_merged (fuel : nat) :
  (forall rec rec' (d1 d2 : val) (h : heap) (key : string),
     merge_key rec d1 d2 h key = merge_key rec' d1 d2 h key) /\
  exists (r : val) (h' : heap),
    merge (S fuel) [VRef 3; VRef 7] heap_nested = Ok (r, h') /\
    read 6 h' r
    = TList [TDict [("precise-alignment",
                     TList [TDict [("onsets", TList [TNum 1])];
                            TDict [("onsets", TList [TNum 2])]])]].
Proof.
  split; [apply merge_key_never_recurses|].
  eexists _, _. split; reflexivity.
Qed.

(** C7, as stated, fails: [merge([{'a': 1}], [{}])] has two lists of length
    1 and raises [KeyError]. *)
Lemma equal_lengths_merge_fails : ~ equal_lengths_merge.
Proof.
  intros H.
  destruct (H 0%nat heap_missing_key (VRef 1) [VRef 3] [VRef 0])
    as (r & h' & ys & Hm & _).
  - exists 1%nat. split; reflexivity.
  - intros a [<-|[]]. exists [VRef 2]. split; [|reflexivity].
    exists 3%nat. split; reflexivity.
  - discriminate Hm.
Qed.

End MergeExamples.

(** * Further properties of the code *)

(** ** asmd/utils.py: frames and times *)

Section UtilsFrames.

Lemma py_round_integer (x : Q) (i : Z) : (x == inject_Z i)%Q -> py_round x = i.
Proof.
  intros Hx. unfold py_round.
  assert (Qfloor x = i) as -> by (rewrite Hx; apply Qfloor_Z).
  assert ((x - inject_Z i ?= 1 # 2)%Q = Lt) as ->; [|reflexivity].
  rewrite <- Qlt_alt. lra.
Qed.

Lemma py_round_near (x : Q) :
  (-(1 # 2) <= inject_Z (py_round x) - x <= 1 # 2)%Q.
Proof.
  unfold py_round.
  pose proof (Qfloor_le x) as Hlo. pose proof (Qlt_floor x) as Hhi.
  rewrite inject_Z_plus in Hhi. change (inject_Z 1) with 1%Q in Hhi.
  destruct (Qcompare (x - inject_Z (Qfloor x)) (1 # 2)) eqn:E.
  - apply Qeq_alt in E.
    destruct (Z.even (Qfloor x));
      [|rewrite inject_Z_plus; change (inject_Z 1) with 1%Q]; lra.
  - apply Qlt_alt in E. lra.
  - apply Qgt_alt in E. rewrite inject_Z_plus.
    change (inject_Z 1) with 1%Q. lra.
Qed.

(** In exact arithmetic the frame of the central time of frame [i] is
    [i]. *)
Lemma round_trip_exact (i : Z) (hop_size win_len : Q) :
  ~ (hop_size == 0)%Q ->
  utils.time2frame (utils.frame2time i hop_size win_len) hop_size win_len
  = Ok i.
Proof.
  intros Hhop. unfold utils.time2frame, utils.frame2time.
  destruct (Qeq_bool hop_size 0) eqn:E; [apply Qeq_bool_iff in E; contradiction|].
  f_equal. apply py_round_integer. field. exact Hhop.
Qed.

(** In exact arithmetic [time2frame] returns a nearest frame. *)
Lemma nearest_exact (time hop_size win_len : Q) :
  (0 < hop_size)%Q ->
  exists f : Z,
    utils.time2frame time hop_size win_len = Ok f /\
    (- (hop_size / 2) <= utils.frame2time f hop_size win_len - time
     <= hop_size / 2)%Q.
Proof.
  intros Hhop. unfold utils.time2frame, utils.frame2time.
  destruct (Qeq_bool hop_size 0) eqn:E;
    [apply Qeq_bool_iff in E; lra|].
  eexists. split; [reflexivity|].
  pose proof (py_round_near ((time - win_len / 2) / hop_size)) as Hr.
  set (f := inject_Z (py_round ((time - win_len / 2) / hop_size))) in *.
  assert (time == ((time - win_len / 2) / hop_size) * hop_size + win_len / 2)%Q
    as Ht by (field; intros Hz; rewrite Hz in Hhop; discriminate Hhop).
  set (x := ((time - win_len / 2) / hop_size)%Q) in *.
  assert (f * hop_size + win_len / 2 - time == (f - x) * hop_size)%Q as ->
    by (rewrite Ht at 1; ring).
  destruct Hr as [Hr1 Hr2]. clearbody f. clearbody x.
  assert ((f - x) * hop_size <= (1 # 2) * hop_size)%Q
    by (apply Qmult_le_compat_r; lra).
  assert (- (1 # 2) * hop_size <= (f - x) * hop_size)%Q
    by (apply Qmult_le_compat_r; lra).
  unfold Qdiv. change (/ 2)%Q with (1 # 2)%Q. split; lra.
Qed.

(** X1. On sample counts, as the defaults 3072 and 4096 of the hop size and
    of the window length: for an integer hop size other than 0, an integer
    window length and a frame [i], all of magnitude below [2^52] together
    (every operation of the code is exact on them), the frame of the
    central sample of frame [i] is [i]. *)
Theorem time2frame_frame2time (i hop_size win_len : Z) :
  hop_size <> 0 -> Z.abs hop_size < 2 ^ 52 ->
  Z.abs (i * hop_size) + Z.abs win_len < 2 ^ 52 ->
  utils.time2frame
    (utils.frame2time i (inject_Z hop_size) (inject_Z win_len))
    (inject_Z hop_size) (inject_Z win_len)
  = Ok i.
Proof.
  intros Hhop _ _. apply round_trip_exact.
  intros Hz. apply Hhop. unfold Qeq in Hz. simpl in Hz. lia.
Qed.

Lemma time2frame_frame2time_witness :
  utils.time2frame (utils.frame2time 7 3072 4096) 3072 4096 = Ok 7.
Proof.
  apply (time2frame_frame2time 7 3072 4096); [discriminate|lia|lia].
Defined.

(** X2. On sample counts: for a positive integer hop size, an integer
    window length and an integer time, all of magnitude below [2^50] (the
    quotient that the code rounds is then on the same side of every half
    integer as the exact one), [time2frame] returns, and the central sample
    of the frame it returns is within half a hop of the time given. *)
Theorem time2frame_nearest (time hop_size win_len : Z) :
  0 < hop_size < 2 ^ 50 ->
  Z.abs time + Z.abs win_len < 2 ^ 50 ->
  exists f : Z,
    utils.time2frame (inject_Z time) (inject_Z hop_size) (inject_Z win_len)
    = Ok f /\
    (- (inject_Z hop_size / 2)
     <= utils.frame2time f (inject_Z hop_size) (inject_Z win_len)
        - inject_Z time
     <= inject_Z hop_size / 2)%Q.
Proof.
  intros [Hhop _] _. apply nearest_exact.
  unfold Qlt. simpl. lia.
Qed.

Lemma time2frame_nearest_witness :
  exists f : Z,
    utils.time2frame 10000 3072 4096 = Ok f /\
    (- (3072 / 2) <= utils.frame2time f 3072 4096 - 10000 <= 3072 / 2)%Q.
Proof.
  apply (time2frame_nearest 10000 3072 4096); lia.
Defined.

End UtilsFrames.

(** ** asmd/utils.py: groups of notes *)

Section NoteGroups.

Import utils_midi.

Lemma insert_by_start_perm n l : Permutation (insert_by_start n l) (n :: l).
Proof.
  induction l as [|m l IH]; simpl; [reflexivity|].
  destruct (Qle_bool _ _); [reflexivity|].
  rewrite IH. apply perm_swap.
Qed.

Lemma sort_by_start_perm l : Permutation (sort_by_start l) l.
Proof.
  induction l as [|n l IH]; simpl; [reflexivity|].
  rewrite insert_by_start_perm. constructor. exact IH.
Qed.

Lemma Qle_bool_false (a b : Q) : Qle_bool a b = false -> (b <= a)%Q.
Proof.
  intros H. destruct (Qlt_le_dec b a) as [Hlt|Hle]; [lra|].
  apply Qle_bool_iff in Hle. congruence.
Qed.

Lemma insert_by_start_hd a n l :
  by_start a n -> HdRel by_start a l -> HdRel by_start a (insert_by_start n l).
Proof.
  intros Han Hl. destruct l as [|m l]; simpl.
  - constructor. exact Han.
  - destruct (Qle_bool _ _); constructor; [exact Han|].
    inversion Hl; assumption.
Qed.

Lemma insert_by_start_sorted n l :
  Sorted by_start l -> Sorted by_start (insert_by_start n l).
Proof.
  induction l as [|m l IH]; simpl; intros Hs.
  - repeat constructor.
  - destruct (Qle_bool (n_start n) (n_start m)) eqn:E.
    + constructor; [exact Hs|]. constructor. apply Qle_bool_iff. exact E.
    + inversion Hs as [|? ? Hs' Hhd]; subst.
      constructor; [apply IH; exact Hs'|].
      apply insert_by_start_hd; [|exact Hhd].
      apply Qle_bool_false. exact E.
Qed.

Lemma sort_by_start_sorted l : StronglySorted by_start (sort_by_start l).
Proof.
  apply Sorted_StronglySorted.
  - intros a b c Hab Hbc. unfold by_start in *. lra.
  - induction l as [|n l IH]; simpl; [constructor|].
    apply insert_by_start_sorted. exact IH.
Qed.

Lemma StronglySorted_snoc {A} (R : A -> A -> Prop) (l : list A) (y : A) :
  StronglySorted R l -> Forall (fun x => R x y) l ->
  StronglySorted R (l ++ [y]).
Proof.
  induction 1 as [|x l Hs IH Hx]; intros Hy; simpl.
  - repeat constructor.
  - apply Forall_cons_iff in Hy as [Hxy Hy].
    constructor; [apply IH; exact Hy|].
    apply Forall_app. split; [exact Hx|]. repeat constructor. exact Hxy.
Qed.

(** The state of the loop: the groups appended are uniform, in increasing
    order of onset and before the onset of the group being filled, which is
    not empty and whose notes start at [last_onset]; the notes to come are
    in order and start no earlier. *)
Lemma group_loop_inv (rest : list Note) (output : list (list Note))
    (inner : list Note) (last_onset : Q) (out : list (list Note))
    (last : list Note) :
  group_loop rest output inner last_onset = (out, last) ->
  inner <> [] ->
  (forall n, In n inner -> (n_start n == last_onset)%Q) ->
  Forall same_onset output ->
  StronglySorted group_before output ->
  Forall (fun g => forall n, In n g -> (n_start n < last_onset)%Q) output ->
  StronglySorted by_start rest ->
  Forall (fun n => (last_onset <= n_start n)%Q) rest ->
  concat out ++ last = concat output ++ inner ++ rest /\
  last <> [] /\
  (forall n m, In n last -> In m last -> (n_start n == n_start m)%Q) /\
  (forall n m, In n last -> In m (inner ++ rest) ->
               (n_start m <= n_start n)%Q) /\
  Forall same_onset out /\
  StronglySorted group_before out /\
  Forall (fun g => group_before g last) out.
Proof.
  revert output inner last_onset.
  induction rest as [|n rest IH];
    intros output inner last_onset Hrun Hne Hin Hu Hs Hlt Hsorted Hge.
  - simpl in Hrun. injection Hrun as <- <-.
    rewrite app_nil_r. split; [reflexivity|]. split; [exact Hne|].
    split; [intros n m Hn Hm; rewrite (Hin n Hn), (Hin m Hm); reflexivity|].
    split; [intros n m Hn Hm; rewrite (Hin n Hn), (Hin m Hm); lra|].
    split; [exact Hu|]. split; [exact Hs|].
    eapply Forall_impl; [exact Hlt|]. intros g Hg a b Ha Hb.
    rewrite (Hin b Hb). apply Hg, Ha.
  - simpl in Hrun.
    apply StronglySorted_inv in Hsorted as [Hsorted Hn].
    apply Forall_cons_iff in Hge as [Hgen Hge].
    destruct (Qeq_bool (n_start n) last_onset) eqn:E.
    + apply Qeq_bool_iff in E.
      apply IH in Hrun; try assumption.
      * destruct Hrun as (Hcat & Hl & Hsame & Hmax & Hrest).
        split; [rewrite Hcat, <- !app_assoc; reflexivity|].
        split; [exact Hl|]. split; [exact Hsame|]. split; [|exact Hrest].
        intros a b Ha Hb. apply Hmax; [exact Ha|].
        rewrite <- app_assoc. exact Hb.
      * intros Hnil. apply app_eq_nil in Hnil as [_ Hnil]. discriminate.
      * intros a Ha. apply in_app_or in Ha as [Ha|[<-|[]]];
          [apply Hin, Ha|exact E].
    + apply Qeq_bool_neq in E.
      assert (last_onset < n_start n)%Q as Hlast.
      { apply Qle_lteq in Hgen as [Hgen|Hgen]; [exact Hgen|].
        exfalso. apply E. symmetry. exact Hgen. }
      apply IH in Hrun.
      * destruct Hrun as (Hcat & Hl & Hsame & Hmax & Hrest).
        split.
        { rewrite Hcat, concat_app. simpl. rewrite app_nil_r, <- !app_assoc.
          reflexivity. }
        split; [exact Hl|]. split; [exact Hsame|]. split; [|exact Hrest].
        intros a b Ha Hb. apply in_app_or in Hb as [Hb|Hb].
        -- rewrite (Hin b Hb).
           assert (n_start n <= n_start a)%Q
             by (apply Hmax; [exact Ha|left; reflexivity]).
           lra.
        -- apply Hmax; [exact Ha|exact Hb].
      * discriminate.
      * intros a [<-|[]]. reflexivity.
      * apply Forall_app. split; [exact Hu|]. constructor; [|constructor].
        split; [exact Hne|]. intros a b Ha Hb.
        rewrite (Hin a Ha), (Hin b Hb). reflexivity.
      * apply StronglySorted_snoc; [exact Hs|].
        eapply Forall_impl; [exact Hlt|]. intros g Hg a b Ha Hb.
        rewrite (Hin b Hb). apply Hg, Ha.
      * apply Forall_app. split.
        -- eapply Forall_impl; [exact Hlt|]. intros g Hg a Ha.
           specialize (Hg a Ha). lra.
        -- constructor; [|constructor].
           intros a Ha. rewrite (Hin a Ha). exact Hlast.
      * exact Hsorted.
      * eapply Forall_impl; [exact Hn|]. intros a Ha. exact Ha.
Qed.

(** What [group_notes_by_onest] returns, and the group it leaves out. *)
Lemma group_notes_facts (notes : list Note) (out : list (list Note)) :
  group_notes_by_onest notes = Ok out ->
  exists last : list Note,
    concat out ++ last = sort_by_start notes /\
    last <> [] /\
    (forall n m, In n last -> In m last -> (n_start n == n_start m)%Q) /\
    (forall n m, In n last -> In m notes -> (n_start m <= n_start n)%Q) /\
    Forall same_onset out /\
    StronglySorted group_before out /\
    Forall (fun g => group_before g last) out.
Proof.
  unfold group_notes_by_onest. cbv zeta.
  pose proof (sort_by_start_sorted notes) as Hsorted.
  pose proof (sort_by_start_perm notes) as Hperm.
  destruct (sort_by_start notes) as [|n0 rest] eqn:Hs; [discriminate|].
  simpl. rewrite drop_0. intros [= <-].
  destruct (group_loop rest [] [n0] (n_start n0)) as [out last] eqn:Hrun.
  apply StronglySorted_inv in Hsorted as [Hrest Hn0].
  apply group_loop_inv in Hrun; try assumption.
  - destruct Hrun as (Hcat & Hl & Hsame & Hmax & Hu & Hord & Hbefore).
    exists last. simpl. split; [exact Hcat|]. split; [exact Hl|].
    split; [exact Hsame|]. split; [|auto].
    intros n m Hn Hm. apply Hmax; [exact Hn|].
    apply (Permutation_in m (Permutation_sym Hperm)). exact Hm.
  - discriminate.
  - intros n [<-|[]]. reflexivity.
  - constructor.
  - constructor.
  - constructor.
Qed.

(** X3. The notes of the latest onset are never returned: what
    [group_notes_by_onest] returns, followed by one more group that is not
    empty, is the list of the notes in order of start; the notes of that
    group start latest, and every note returned starts before them. *)
Theorem group_notes_drops_latest (notes : list Note)
    (out : list (list Note)) :
  group_notes_by_onest notes = Ok out ->
  exists last : list Note,
    last <> [] /\
    concat out ++ last = sort_by_start notes /\
    Permutation (concat out ++ last) notes /\
    (forall n m, In n last -> In m notes -> (n_start m <= n_start n)%Q) /\
    (forall n m, In n (concat out) -> In m last ->
                 (n_start n < n_start m)%Q).
Proof.
  intros Hrun.
  destruct (group_notes_facts notes out Hrun)
    as (last & Hcat & Hl & _ & Hmax & _ & _ & Hbefore).
  exists last. split; [exact Hl|]. split; [exact Hcat|].
  split; [rewrite Hcat; apply sort_by_start_perm|]. split; [exact Hmax|].
  intros n m Hn Hm. apply in_concat in Hn as (g & Hg & Hn).
  rewrite Forall_forall in Hbefore.
  apply (Hbefore g); [apply list_elem_of_In; exact Hg|exact Hn|exact Hm].
Qed.

Lemma group_notes_drops_latest_witness :
  exists last : list Note,
    last <> [] /\
    concat [[mkNote 80 60 0 1]] ++ last
    = sort_by_start [mkNote 80 62 1 2; mkNote 80 60 0 1] /\
    Permutation (concat [[mkNote 80 60 0 1]] ++ last)
      [mkNote 80 62 1 2; mkNote 80 60 0 1] /\
    (forall n m, In n last -> In m [mkNote 80 62 1 2; mkNote 80 60 0 1] ->
                 (n_start m <= n_start n)%Q) /\
    (forall n m, In n (concat [[mkNote 80 60 0 1]]) -> In m last ->
                 (n_start n < n_start m)%Q).
Proof.
  apply (group_notes_drops_latest [mkNote 80 62 1 2; mkNote 80 60 0 1]).
  reflexivity.
Defined.

(** X4. Every group returned is a non-empty list of notes that start
    together, and the groups are in increasing order of onset: each note of
    a group starts before each note of a later group. *)
Theorem group_notes_uniform_ascending (notes : list Note)
    (out : list (list Note)) :
  group_notes_by_onest notes = Ok out ->
  Forall same_onset out /\ StronglySorted group_before out.
Proof.
  intros Hrun.
  destruct (group_notes_facts notes out Hrun)
    as (last & _ & _ & _ & _ & Hu & Hord & _).
  split; assumption.
Qed.

Lemma group_notes_uniform_ascending_witness :
  Forall same_onset [[mkNote 80 60 0 1]] /\
  StronglySorted group_before [[mkNote 80 60 0 1]].
Proof.
  apply (group_notes_uniform_ascending
           [mkNote 80 62 1 2; mkNote 80 60 0 1]).
  reflexivity.
Defined.

(** X5. An empty list of notes raises [IndexError]; notes that all start
    together, however many, give no group at all. *)
Theorem group_notes_single_onset (notes : list Note) :
  group_notes_by_onest [] = Raise IndexError /\
  (notes <> [] ->
   (forall n m, In n notes -> In m notes -> (n_start n == n_start m)%Q) ->
   group_notes_by_onest notes = Ok []).
Proof.
  split; [reflexivity|]. intros Hne Hsame.
  destruct (group_notes_by_onest notes) as [out|e] eqn:Hrun.
  - destruct (group_notes_facts notes out Hrun)
      as (last & Hcat & Hl & _ & _ & Hu & _ & Hbefore).
    destruct out as [|g out]; [reflexivity|]. exfalso.
    apply Forall_cons_iff in Hu as [[Hg _] _].
    apply Forall_cons_iff in Hbefore as [Hgl _].
    destruct g as [|n g]; [contradiction|].
    destruct last as [|m last]; [contradiction|].
    pose proof (sort_by_start_perm notes) as Hperm.
    rewrite <- Hcat in Hperm.
    assert (In n notes) as Hn
      by (apply (Permutation_in n Hperm); simpl; left; reflexivity).
    assert (In m notes) as Hm.
    { apply (Permutation_in m Hperm). apply in_or_app. right. left.
      reflexivity. }
    specialize (Hgl n m (or_introl eq_refl) (or_introl eq_refl)).
    specialize (Hsame n m Hn Hm). lra.
  - exfalso. unfold group_notes_by_onest in Hrun. cbv zeta in Hrun.
    pose proof (sort_by_start_perm notes) as Hperm.
    destruct (sort_by_start notes) as [|n0 rest]; [|discriminate Hrun].
    apply Hne. apply Permutation_nil. exact Hperm.
Qed.

Lemma group_notes_single_onset_witness :
  group_notes_by_onest [mkNote 80 60 0 1; mkNote 70 64 0 2] = Ok [].
Proof.
  apply (proj2 (group_notes_single_onset
                  [mkNote 80 60 0 1; mkNote 70 64 0 2])).
  - discriminate.
  - intros n m [<-|[<-|[]]] [<-|[<-|[]]]; reflexivity.
Defined.

End NoteGroups.

(** ** asmd/utils.py: tracks of a MIDI file *)

Section OpenMidi.

Import utils_midi.

Lemma py_slice_minus_one {A} (l : list A) : py_slice l (-1) 0 = [].
Proof.
  unfold py_slice, slice_index, len. cbv zeta. simpl.
  replace (Z.to_nat (Z.min 0 (Z.of_nat (length l))
                     - Z.max (-1 + Z.of_nat (length l)) 0)) with 0%nat by lia.
  reflexivity.
Qed.

Lemma py_slice_one {A} (l : list A) (k : Z) (x : A) :
  0 <= k -> l !! Z.to_nat k = Some x -> py_slice l k (k + 1) = [x].
Proof.
  intros Hk Hx. pose proof (lookup_lt_Some _ _ _ Hx) as Hlt.
  unfold py_slice, slice_index, len. cbv zeta.
  destruct (k <? 0) eqn:E1; zbool; [lia|].
  destruct (k + 1 <? 0) eqn:E2; zbool; [lia|].
  replace (Z.to_nat (Z.min (k + 1) (Z.of_nat (length l))
                     - Z.min k (Z.of_nat (length l)))) with 1%nat by lia.
  replace (Z.min k (Z.of_nat (length l))) with k by lia.
  rewrite (drop_S _ _ _ Hx). reflexivity.
Qed.

(** X6. A track selected by a number [k >= 0] is that track alone; the
    number -1 becomes the slice [-1:0], which selects no track: with
    [merge] the call raises [IndexError], without it the call returns no
    track. *)
Theorem open_midi_track_number (instruments : list (list Note)) (k : Z)
    (track : list Note) :
  open_midi instruments (TrackNumber (-1)) true = Raise IndexError /\
  open_midi instruments (TrackNumber (-1)) false = Ok (PerTrack []) /\
  (0 <= k -> instruments !! Z.to_nat k = Some track ->
   open_midi instruments (TrackNumber k) false
   = (g <-! group_notes_by_onest track; Ok (PerTrack [g])) /\
   open_midi instruments (TrackNumber k) true
   = (g <-! group_notes_by_onest track; Ok (Merged g))).
Proof.
  unfold open_midi, choose_tracks. cbv zeta.
  change (-1 + 1) with 0. rewrite py_slice_minus_one.
  split; [reflexivity|]. split; [reflexivity|].
  intros Hk Htrack. rewrite (py_slice_one _ _ _ Hk Htrack). simpl.
  rewrite app_nil_r.
  destruct (group_notes_by_onest track); split; reflexivity.
Qed.

Lemma open_midi_track_number_witness :
  open_midi [[mkNote 80 60 0 1]; [mkNote 80 62 1 2; mkNote 80 64 3 4]]
    (TrackNumber 1) false
  = Ok (PerTrack [[[mkNote 80 62 1 2]]]).
Proof.
  apply (proj1 (proj2 (proj2 (open_midi_track_number
           [[mkNote 80 60 0 1]; [mkNote 80 62 1 2; mkNote 80 64 3 4]] 1
           [mkNote 80 62 1 2; mkNote 80 64 3 4])) ltac:(lia) eq_refl)).
Defined.

Lemma py_slice_beyond {A} (l : list A) (k : Z) :
  len l <= k -> py_slice l k (k + 1) = [].
Proof.
  intros Hk. unfold py_slice, slice_index. cbv zeta. unfold len in *.
  destruct (k <? 0) eqn:E1; zbool; [lia|].
  destruct (k + 1 <? 0) eqn:E2; zbool; [lia|].
  replace (Z.to_nat (Z.min (k + 1) (Z.of_nat (length l))
                     - Z.min k (Z.of_nat (length l)))) with 0%nat by lia.
  reflexivity.
Qed.

Lemma py_slice_nil {A} (a b : Z) : py_slice ([] : list A) a b = [].
Proof. unfold py_slice. rewrite drop_nil. apply take_nil. Qed.

Lemma choose_tracks_nil {A} (c : track_choice) :
  choose_tracks ([] : list A) c = [].
Proof. destruct c; simpl; [reflexivity|apply py_slice_nil..]. Qed.

(** X7. A track number beyond the last track selects no track, and a file
    without any note has no track to select: with [merge] the call raises
    [IndexError], without it the call returns an empty list of tracks. *)
Theorem open_midi_empty_selection (instruments : list (list Note)) (k : Z)
    (considered_tracks : track_choice) :
  (len instruments <= k ->
   open_midi instruments (TrackNumber k) true = Raise IndexError /\
   open_midi instruments (TrackNumber k) false = Ok (PerTrack [])) /\
  open_midi [] considered_tracks true = Raise IndexError /\
  open_midi [] considered_tracks false = Ok (PerTrack []).
Proof.
  unfold open_midi. cbv zeta. rewrite choose_tracks_nil.
  split; [|split; reflexivity].
  intros Hk. unfold choose_tracks. rewrite (py_slice_beyond _ _ Hk).
  split; reflexivity.
Qed.

Lemma open_midi_empty_selection_witness :
  open_midi [[mkNote 80 60 0 1]; [mkNote 80 62 1 2; mkNote 80 64 3 4]]
    (TrackNumber 5) true
  = Raise IndexError.
Proof.
  apply (proj1 (proj1 (open_midi_empty_selection
                         [[mkNote 80 60 0 1];
                          [mkNote 80 62 1 2; mkNote 80 64 3 4]]
                         5 AllTracks) ltac:(unfold len; simpl; lia))).
Defined.

End OpenMidi.

(** ** convert_gt.py: the extension of a path *)

Section ChangeExt.

Import convert_gt.

Lemma rfind_from_none (c : ascii) (s : string) (i last : Z) :
  no_char c s -> rfind_from c s i last = last.
Proof.
  revert i last. induction s as [|a s IH]; intros i last Hno; simpl;
    [reflexivity|].
  destruct Hno as [Hne Hno]. rewrite IH by exact Hno.
  destruct (Ascii.eqb a c) eqn:E; [|reflexivity].
  apply Ascii.eqb_eq in E. contradiction.
Qed.

Lemma rfind_from_last (c : ascii) (stem tail : string) (i last : Z) :
  no_char c tail ->
  rfind_from c (String.append stem (String c tail)) i last
  = i + Z.of_nat (String.length stem).
Proof.
  intros Hno. revert i last.
  induction stem as [|a stem IH]; intros i last; simpl String.append.
  - simpl. rewrite Ascii.eqb_refl. rewrite rfind_from_none by exact Hno.
    simpl. lia.
  - simpl rfind_from. rewrite IH. simpl String.length. lia.
Qed.

Lemma length_append (s t : string) :
  String.length (String.append s t)
  = (String.length s + String.length t)%nat.
Proof. induction s as [|a s IH]; simpl; [reflexivity|]. rewrite IH. lia. Qed.

Lemma str_take_append (s t : string) :
  str_take (String.length s) (String.append s t) = s.
Proof. induction s as [|a s IH]; simpl; [destruct t|rewrite IH]; reflexivity. Qed.

Lemma str_take_init (s : string) :
  str_take (String.length s - 1) s = str_init s.
Proof.
  induction s as [|a s IH]; [reflexivity|].
  destruct s as [|b s]; [reflexivity|].
  simpl String.length in *. simpl str_init.
  replace (S (S (String.length s)) - 1)%nat with (S (String.length s)) by lia.
  replace (S (String.length s) - 1)%nat with (String.length s) in IH by lia.
  cbn [str_take]. rewrite IH. reflexivity.
Qed.

(** X8. Everything from the last dash on is replaced by the extension,
    with a dot put before it unless it starts with one. *)
Theorem change_ext_after_last_dash (stem tail new_ext : string) :
  no_char "-" tail ->
  change_ext (String.append stem (String "-" tail)) new_ext
  = String.append stem (with_dot new_ext).
Proof.
  intros Hno. unfold change_ext, with_dot, rfind, str_upto. cbv zeta.
  rewrite rfind_from_last by exact Hno.
  rewrite length_append. simpl String.length.
  destruct (0 + Z.of_nat (String.length stem) <? 0) eqn:E; zbool; [lia|].
  replace (Z.to_nat (Z.min (0 + Z.of_nat (String.length stem))
             (Z.of_nat (String.length stem + S (String.length tail)))))
    with (String.length stem) by lia.
  rewrite str_take_append.
  destruct (String.prefix "." new_ext); reflexivity.
Qed.

Lemma change_ext_after_last_dash_witness :
  change_ext "a-b/song-3.wav" "txt" = "a-b/song.txt".
Proof.
  apply (change_ext_after_last_dash "a-b/song" "3.wav" "txt").
  simpl. repeat split; discriminate.
Defined.

(** X9. A path without a dash loses its last character before the
    extension is added. *)
Theorem change_ext_without_dash (input_fn new_ext : string) :
  no_char "-" input_fn ->
  change_ext input_fn new_ext
  = String.append (str_init input_fn) (with_dot new_ext).
Proof.
  intros Hno. unfold change_ext, with_dot, rfind, str_upto. cbv zeta.
  rewrite rfind_from_none by exact Hno.
  change (-1 <? 0) with true. cbv iota.
  replace (Z.to_nat (Z.max (-1 + Z.of_nat (String.length input_fn)) 0))
    with (String.length input_fn - 1)%nat by lia.
  rewrite str_take_init.
  destruct (String.prefix "." new_ext); reflexivity.
Qed.

Lemma change_ext_without_dash_witness :
  change_ext "song.wav" ".mid" = "song.wa.mid".
Proof.
  apply (change_ext_without_dash "song.wav" ".mid").
  simpl. repeat split; discriminate.
Defined.

End ChangeExt.

(** ** asmd/dataset_utils.py: the score matrix on regular records *)

Section ScoreRows.

Import dataset_utils.

Lemma or_sentinels_length (n : nat) (l : list Q) :
  available n l -> length (or_sentinels n l) = n.
Proof.
  intros [->|Hl]; [apply repeat_length|].
  destruct l; [simpl in *; subst; reflexivity|exact Hl].
Qed.

Lemma append_no_sentinels (l : list Q) : append_sentinels l 0 = l.
Proof. unfold append_sentinels. simpl. apply app_nil_r. Qed.

Lemma or_sentinels_code (n : nat) (l ons : list Q) :
  length ons = n ->
  (if len l =? 0 then full_like ons sentinel else l) = or_sentinels n l.
Proof.
  intros <-. destruct l; reflexivity.
Qed.

(** The columns of a regular record: its sequences, or sentinels. *)
Lemma score_columns_regular (i : nat) (gt : GroundTruth) (s : Score) :
  regular s ->
  score_columns i gt s
  = [pitches s;
     or_sentinels (length (pitches s)) (onsets s);
     or_sentinels (length (pitches s)) (offsets s);
     or_sentinels (length (pitches s)) (velocities s);
     repeat (instrument gt) (length (pitches s));
     repeat (inject_Z (Z.of_nat i)) (length (pitches s))].
Proof.
  intros (Hon & Hoff & Hvel). unfold score_columns. cbv zeta.
  rewrite (or_sentinels_code (length (pitches s)) (onsets s) (pitches s) eq_refl).
  pose proof (or_sentinels_length _ _ Hon) as Lon.
  pose proof (or_sentinels_length _ _ Hoff) as Loff.
  pose proof (or_sentinels_length _ _ Hvel) as Lvel.
  assert (len (pitches s)
          - len (or_sentinels (length (pitches s)) (onsets s)) = 0) as ->
    by (unfold len; rewrite Lon; lia).
  change (0 <? 0) with false. cbv iota. rewrite !append_no_sentinels.
  rewrite (or_sentinels_code _ (offsets s) _ Lon).
  rewrite (or_sentinels_code _ (velocities s) _ Lon).
  assert (len (pitches s)
          - len (or_sentinels (length (pitches s)) (velocities s)) = 0) as ->
    by (unfold len; rewrite Lvel; lia).
  change (0 <? 0) with false. cbv iota.
  unfold full_like. rewrite Lon. reflexivity.
Qed.

Lemma score_columns_regular_ok (i : nat) (gt : GroundTruth) (s : Score) :
  regular s ->
  np_array (score_columns i gt s) = Ok (score_columns i gt s) /\
  is_block 6 (length (pitches s)) (score_columns i gt s) /\
  transpose (score_columns i gt s) = note_rows i gt s.
Proof.
  intros Hreg. pose proof Hreg as (Hon & Hoff & Hvel).
  rewrite (score_columns_regular i gt s Hreg).
  pose proof (or_sentinels_length _ _ Hon) as Lon.
  pose proof (or_sentinels_length _ _ Hoff) as Loff.
  pose proof (or_sentinels_length _ _ Hvel) as Lvel.
  split; [|split].
  - unfold np_array, rectangular. simpl.
    rewrite Lon, Loff, Lvel, !repeat_length, Nat.eqb_refl. reflexivity.
  - split; [reflexivity|].
    repeat (constructor; [first [reflexivity|assumption|apply repeat_length]|]).
    constructor.
  - unfold transpose, note_rows. simpl. apply map_ext_in. intros j Hj.
    apply in_seq in Hj. unfold cell.
    rewrite !nth_repeat_lt by lia. reflexivity.
Qed.

Lemma zip_app_block (r w w' : nat) (a b : matrix) :
  is_block r w a -> is_block r w' b -> is_block r (w + w') (zip_app a b).
Proof.
  intros [<- Ha] [Hb Hb']. revert b Hb Hb'.
  induction Ha as [|ra a Hra Ha IH]; intros b Hb Hb'.
  - split; [reflexivity|constructor].
  - destruct b as [|rb b]; [discriminate|].
    apply Forall_cons_iff in Hb' as [Hrb Hb'].
    injection Hb as Hb. destruct (IH b Hb Hb') as [Hl Hf].
    split; [simpl; rewrite Hl; reflexivity|].
    constructor; [rewrite length_app; lia|exact Hf].
Qed.

Lemma column_zip_app_l (w : nat) (a b : matrix) (j : nat) :
  length a = length b -> Forall (fun row => length row = w) a ->
  (j < w)%nat ->
  map (fun r => cell r j) (zip_app a b) = map (fun r => cell r j) a.
Proof.
  intros Hlen Ha Hj. revert b Hlen.
  induction Ha as [|ra a Hra Ha IH]; intros b Hlen; [reflexivity|].
  destruct b as [|rb b]; [discriminate|]. simpl.
  rewrite IH by (injection Hlen; auto). unfold cell.
  rewrite app_nth1 by lia. reflexivity.
Qed.

Lemma column_zip_app_r (w : nat) (a b : matrix) (j : nat) :
  length a = length b -> Forall (fun row => length row = w) a ->
  map (fun r => cell r (w + j)) (zip_app a b) = map (fun r => cell r j) b.
Proof.
  intros Hlen Ha. revert b Hlen.
  induction Ha as [|ra a Hra Ha IH]; intros b Hlen.
  - destruct b; [reflexivity|discriminate].
  - destruct b as [|rb b]; [discriminate|]. simpl.
    rewrite IH by (injection Hlen; auto). unfold cell.
    rewrite app_nth2 by lia. replace (w + j - length ra)%nat with j by lia.
    reflexivity.
Qed.

Lemma width_block (r w : nat) (m : matrix) :
  is_block (S r) w m -> width m = w.
Proof.
  intros [Hl Hf]. destruct m as [|row m]; [discriminate|].
  apply Forall_cons_iff in Hf as [Hrow _]. exact Hrow.
Qed.

Lemma seq_add_map (a n : nat) :
  seq a n = map (fun j => (a + j)%nat) (seq 0 n).
Proof.
  revert a. induction n as [|n IH]; intros a; simpl; [reflexivity|].
  f_equal; [lia|].
  rewrite (IH (S a)), <- seq_shift, map_map.
  apply map_ext. intros j. lia.
Qed.

(** Joining two blocks of as many rows side by side joins their
    transposes one after the other. *)
Lemma transpose_zip_app (r w w' : nat) (a b : matrix) :
  is_block (S r) w a -> is_block (S r) w' b ->
  transpose (zip_app a b) = transpose a ++ transpose b.
Proof.
  intros Ha Hb. unfold transpose.
  rewrite (width_block r (w + w') _ (zip_app_block _ _ _ _ _ Ha Hb)).
  rewrite (width_block r w a Ha), (width_block r w' b Hb).
  destruct Ha as [Hla Ha]. destruct Hb as [Hlb Hb].
  assert (length a = length b) as Hlen by congruence.
  rewrite seq_app, map_app. f_equal.
  - apply map_ext_in. intros j Hj. apply in_seq in Hj.
    apply (column_zip_app_l w); [exact Hlen|exact Ha|lia].
  - simpl. rewrite (seq_add_map w w'), map_map.
    apply map_ext. intros j. apply (column_zip_app_r w); assumption.
Qed.

Lemma transpose_fold_zip_app (bs : list matrix) (b0 : matrix) (w : nat) :
  is_block 6 w b0 ->
  Forall (fun b => exists w', is_block 6 w' b) bs ->
  transpose (fold_left zip_app bs b0)
  = transpose b0 ++ concat (map transpose bs).
Proof.
  revert b0 w. induction bs as [|b bs IH]; intros b0 w H0 Hbs; simpl.
  - rewrite app_nil_r. reflexivity.
  - apply Forall_cons_iff in Hbs as [[w' Hb] Hbs].
    rewrite (IH (zip_app b0 b) (w + w')%nat
               (zip_app_block _ _ _ _ _ H0 Hb) Hbs).
    rewrite (transpose_zip_app 5 w w' b0 b H0 Hb), <- app_assoc.
    reflexivity.
Qed.

Lemma score_blocks_loop (kind : string) (l : list (nat * GroundTruth))
    (acc : list matrix) :
  (forall p, In p l ->
     exists s, gt_variant (snd p) kind = Ok s /\ regular s) ->
  for_each
    (fun (mat : list matrix) (p : nat * GroundTruth) =>
       s <-! gt_variant (snd p) kind;
       block <-! np_array (score_columns (fst p) (snd p) s);
       Ok (mat ++ [block]))
    l acc
  = Ok (acc ++ map (fun p : nat * GroundTruth =>
                      match gt_variant (snd p) kind with
                      | Ok s => score_columns (fst p) (snd p) s
                      | Raise _ => []
                      end) l).
Proof.
  revert acc. induction l as [|p l IH]; intros acc Hl; simpl.
  - rewrite app_nil_r. reflexivity.
  - destruct (Hl p (or_introl eq_refl)) as (s & Hs & Hreg).
    rewrite Hs. simpl.
    destruct (score_columns_regular_ok (fst p) (snd p) s Hreg) as (-> & _).
    simpl. rewrite IH by (intros q Hq; apply Hl; right; exact Hq).
    rewrite <- app_assoc. reflexivity.
Qed.

(** The rows before the ordering, for regular records: the rows of the
    sources one source after the other. *)
Lemma score_rows_regular (kind : string) (gts : list GroundTruth) :
  gts <> [] ->
  (forall gt, In gt gts ->
     exists s, gt_variant gt kind = Ok s /\ regular s) ->
  score_rows kind gts = Ok (all_note_rows kind gts).
Proof.
  intros Hne Hgts. unfold score_rows, score_blocks, all_note_rows.
  assert (forall p, In p (enumerate gts) ->
            exists s, gt_variant (snd p) kind = Ok s /\ regular s) as Hp.
  { intros [i gt] Hin. apply Hgts. simpl.
    apply (in_combine_r _ _ _ _ Hin). }
  rewrite (score_blocks_loop kind (enumerate gts) [] Hp). simpl.
  assert (enumerate gts <> []) as Hne'.
  { unfold enumerate. destruct gts; [contradiction|discriminate]. }
  revert Hp. generalize (enumerate gts) Hne'. clear Hne Hgts Hne'.
  intros l Hl Hp. destruct l as [|p0 l]; [contradiction|].
  assert (forall p, In p (p0 :: l) ->
            exists w, is_block 6 w
              match gt_variant (snd p) kind with
              | Ok s => score_columns (fst p) (snd p) s
              | Raise _ => []
              end /\
            transpose
              match gt_variant (snd p) kind with
              | Ok s => score_columns (fst p) (snd p) s
              | Raise _ => []
              end
            = match gt_variant (snd p) kind with
              | Ok s => note_rows (fst p) (snd p) s
              | Raise _ => []
              end) as Hblock.
  { intros p Hin. destruct (Hp p Hin) as (s & -> & Hreg).
    destruct (score_columns_regular_ok (fst p) (snd p) s Hreg)
      as (_ & Hb & Ht).
    exists (length (pitches s)). split; assumption. }
  assert (transpose
            (fold_left zip_app
               (map (fun p : nat * GroundTruth =>
                       match gt_variant (snd p) kind with
                       | Ok s => score_columns (fst p) (snd p) s
                       | Raise _ => []
                       end) l)
               match gt_variant (snd p0) kind with
               | Ok s => score_columns (fst p0) (snd p0) s
               | Raise _ => []
               end)
          = concat
              (map (fun p : nat * GroundTruth =>
                      match gt_variant (snd p) kind with
                      | Ok s => note_rows (fst p) (snd p) s
                      | Raise _ => []
                      end) (p0 :: l))) as Hcat.
  { destruct (Hblock p0 (or_introl eq_refl)) as (w & Hb0 & Ht0).
    rewrite (transpose_fold_zip_app _ _ w Hb0).
    - simpl. rewrite Ht0. f_equal. f_equal. rewrite map_map.
      apply map_ext_in. intros p Hin.
      destruct (Hblock p (or_intror Hin)) as (w' & _ & Ht). exact Ht.
    - apply Forall_forall. intros b Hb. apply list_elem_of_In in Hb.
      apply in_map_iff in Hb as (p & <- & Hin).
      destruct (Hblock p (or_intror Hin)) as (w' & Hb' & _).
      exists w'. exact Hb'. }
  destruct l as [|p1 l].
  - simpl. simpl in Hcat. rewrite Hcat. reflexivity.
  - assert ((1 <? len (map (fun p : nat * GroundTruth =>
                       match gt_variant (snd p) kind with
                       | Ok s => score_columns (fst p) (snd p) s
                       | Raise _ => []
                       end) (p0 :: p1 :: l))) = true) as ->.
    { apply Z.ltb_lt. unfold len. simpl. lia. }
    cbn [rbind concatenate_axis1 map]. cbn [map] in Hcat.
    rewrite Hcat. reflexivity.
Qed.

(** X10. On a song with at least one ground truth whose records are
    regular (one pitch per note, and onsets, offsets and velocities either
    one per note or empty), [get_score_mat] returns; its rows are the rows
    of the sources, with -255 where a value is not available, the program
    of the source in column 4 and its number in column 5, in non-decreasing
    order of onset. *)
Theorem get_score_mat_regular (argsort : list Q -> list nat)
    (gts : list GroundTruth) (score_type : list string) (kind : string) :
  sorts argsort ->
  gts <> [] ->
  chose_score_type score_type gts = Ok kind ->
  (forall gt, In gt gts ->
     exists s, gt_variant gt kind = Ok s /\ regular s) ->
  exists m : matrix,
    get_score_mat argsort gts score_type = Ok m /\
    Permutation m (all_note_rows kind gts) /\
    Sorted Qle (column 1 m).
Proof.
  intros Hsorts Hne Hkind Hgts. unfold get_score_mat.
  rewrite Hkind. cbn [rbind].
  rewrite (score_rows_regular kind gts Hne Hgts). cbn [rbind].
  eexists. split; [reflexivity|]. split.
  - apply take_rows_perm.
    replace (length (all_note_rows kind gts))
      with (length (column 1 (all_note_rows kind gts)))
      by apply length_map.
    apply (Hsorts (column 1 (all_note_rows kind gts))).
  - rewrite column_take_rows.
    apply (Hsorts (column 1 (all_note_rows kind gts))).
Qed.

Lemma get_score_mat_regular_witness :
  exists m : matrix,
    get_score_mat argsort_ties_reversed complete_and_pitch_only
      ["misaligned"] = Ok m /\
    Permutation m
      [ [60; 3; 4; 80; 0; 0]; [62; 1; 2; 90; 0; 0];
        [61; -255; -255; -255; 0; 1] ]%Q /\
    Sorted Qle (column 1 m).
Proof.
  apply (get_score_mat_regular argsort_ties_reversed
           complete_and_pitch_only ["misaligned"] "misaligned"
           argsort_ties_reversed_sorts).
  - discriminate.
  - reflexivity.
  - intros gt [<-|[<-|[]]]; eexists; (split; [reflexivity|]);
      unfold regular, available; simpl; auto.
Defined.

Lemma chose_score_type_no_gts (score_type : list string) :
  chose_score_type score_type [] = Raise IndexError \/
  exists kind, chose_score_type score_type [] = Ok kind.
Proof.
  unfold chose_score_type.
  destruct (1 <? len score_type) eqn:E.
  - unfold requested_and_present, has_pitches.
    destruct (str_in "precise_alignment" score_type); [left; reflexivity|].
    destruct (str_in "broad_alignment" score_type); [left; reflexivity|].
    destruct (str_in "misaligned" score_type); [left; reflexivity|].
    right. exists "score". reflexivity.
  - destruct score_type as [|k st]; [left; reflexivity|].
    right. exists k. reflexivity.
Qed.

(** X11. A song without ground truths cannot be turned into a matrix:
    [get_score_mat] raises [IndexError] whatever is requested. *)
Theorem get_score_mat_no_gts (argsort : list Q -> list nat)
    (score_type : list string) :
  get_score_mat argsort [] score_type = Raise IndexError.
Proof.
  unfold get_score_mat.
  destruct (chose_score_type_no_gts score_type) as [->|[kind ->]];
    reflexivity.
Qed.

(** X12. An empty request raises [IndexError].  On a song without ground
    truths, a request of several kinds raises [IndexError] as soon as it
    names one of the three alignment kinds, and is answered [score]
    otherwise. *)
Theorem chose_score_type_empty (score_type : list string)
    (gts : list GroundTruth) :
  chose_score_type [] gts = Raise IndexError /\
  ((1 < length score_type)%nat ->
   chose_score_type score_type []
   = if str_in "precise_alignment" score_type
        || str_in "broad_alignment" score_type
        || str_in "misaligned" score_type
     then Raise IndexError else Ok "score").
Proof.
  split; [reflexivity|]. intros Hlen. unfold chose_score_type.
  rewrite (len_gt_1 _ Hlen).
  unfold requested_and_present, has_pitches.
  destruct (str_in "precise_alignment" score_type); [reflexivity|].
  destruct (str_in "broad_alignment" score_type); [reflexivity|].
  destruct (str_in "misaligned" score_type); reflexivity.
Qed.

Lemma chose_score_type_empty_witness :
  chose_score_type ["score"; "misaligned"] [] = Raise IndexError.
Proof.
  apply (proj2 (chose_score_type_empty ["score"; "misaligned"] [])).
  simpl. lia.
Defined.

End ScoreRows.

(** ** asmd/dataset_utils.py: control changes of the pedals *)

Section PedalEvents.

Import dataset_utils.

Lemma insert_by_time_perm r l : Permutation (insert_by_time r l) (r :: l).
Proof.
  induction l as [|r' l IH]; simpl; [reflexivity|].
  destruct (Qle_bool _ _); [reflexivity|].
  rewrite IH. apply perm_swap.
Qed.

Lemma sort_by_time_perm l : Permutation (sort_by_time l) l.
Proof.
  induction l as [|r l IH]; simpl; [reflexivity|].
  rewrite insert_by_time_perm. constructor. exact IH.
Qed.

Lemma insert_by_time_hd a r l :
  (a <= cell r 0)%Q -> HdRel Qle a (column 0 l) ->
  HdRel Qle a (column 0 (insert_by_time r l)).
Proof.
  intros Har Hl. destruct l as [|r' l]; simpl.
  - constructor. exact Har.
  - destruct (Qle_bool _ _); simpl; constructor; [exact Har|].
    inversion Hl; assumption.
Qed.

Lemma insert_by_time_sorted r l :
  Sorted Qle (column 0 l) -> Sorted Qle (column 0 (insert_by_time r l)).
Proof.
  induction l as [|r' l IH]; simpl; intros Hs.
  - repeat constructor.
  - destruct (Qle_bool (cell r 0) (cell r' 0)) eqn:E; simpl.
    + constructor; [exact Hs|]. constructor. apply Qle_bool_iff. exact E.
    + inversion Hs as [|? ? Hs' Hhd]; subst.
      constructor; [apply IH; exact Hs'|].
      apply insert_by_time_hd; [|exact Hhd].
      apply Qle_bool_false. exact E.
Qed.

Lemma sort_by_time_sorted l : Sorted Qle (column 0 (sort_by_time l)).
Proof.
  induction l as [|r l IH]; simpl; [constructor|].
  apply insert_by_time_sorted. exact IH.
Qed.

Lemma events_loop (gts : list GroundTruth) (acc : list matrix) (dur w h : Q)
    (frame_based : bool) :
  frame_based = false ->
  for_each
    (fun (pedaling : list matrix) (gt : GroundTruth) =>
       let cc_track := sort_by_time (cc_of_track gt) in
       if frame_based then
         m <-! frame_track dur w h cc_track;
         Ok (pedaling ++ [m])
       else Ok (pedaling ++ [cc_track]))
    gts acc
  = Ok (acc ++ map (fun gt => sort_by_time (cc_of_track gt)) gts).
Proof.
  intros ->. revert acc. induction gts as [|gt gts IH]; intros acc; simpl.
  - rewrite app_nil_r. reflexivity.
  - rewrite IH, <- app_assoc. reflexivity.
Qed.

(** X13. Without [frame_based] the call never raises, whatever the
    duration, window and hop: it returns one matrix per ground truth, which
    holds the control changes of that ground truth in non-decreasing order
    of time. *)
Theorem get_pedaling_mat_events (gts : list GroundTruth) (dur winlen hop : Q) :
  exists ms : list matrix,
    get_pedaling_mat gts dur false winlen hop = Ok ms /\
    Forall2 (fun gt m => Permutation m (cc_of_track gt) /\
                         Sorted Qle (column 0 m)) gts ms.
Proof.
  exists (map (fun gt => sort_by_time (cc_of_track gt)) gts). split.
  - unfold get_pedaling_mat.
    apply (events_loop gts [] dur winlen hop false eq_refl).
  - induction gts as [|gt gts IH]; simpl; constructor.
    + split; [apply sort_by_time_perm|apply sort_by_time_sorted].
    + exact IH.
Qed.

Lemma zip4_length (a b c d : list Q) :
  length (zip4 a b c d)
  = Nat.min (Nat.min (length a) (length b))
            (Nat.min (length c) (length d)).
Proof.
  revert b c d. induction a as [|x a IH]; intros b c d; [reflexivity|].
  destruct b as [|y b]; [reflexivity|].
  destruct c as [|z c]; [simpl; lia|].
  destruct d as [|u d]; [simpl; lia|].
  simpl. rewrite IH. lia.
Qed.

Lemma zip4_rows (a b c d : list Q) (r : list Q) :
  In r (zip4 a b c d) ->
  exists x y z u, r = [x; y; z; u] /\ In x a /\ In y b /\ In z c /\ In u d.
Proof.
  revert b c d. induction a as [|x a IH]; intros b c d; [intros []|].
  destruct b as [|y b]; [intros []|].
  destruct c as [|z c]; [intros []|].
  destruct d as [|u d]; [intros []|].
  simpl. intros [<-|Hin].
  - exists x, y, z, u. auto 10.
  - destruct (IH b c d Hin) as (x' & y' & z' & u' & -> & H1 & H2 & H3 & H4).
    exists x', y', z', u'. auto 10.
Qed.

Lemma in_minus_ones (x : Q) (l : nat) : In x (minus_ones l) -> x = (-1)%Q.
Proof. unfold minus_ones. intros H. apply repeat_spec in H. exact H. Qed.

(** X14. The control changes of a ground truth are as many as the
    shorter of the times and the values of each pedal: a surplus of times
    or of values is dropped without an error.  Each row holds a time and
    the value of one pedal, with -1 for the two other pedals. *)
Theorem get_pedaling_mat_event_rows (gt : GroundTruth) (dur winlen hop : Q) :
  exists m : matrix,
    get_pedaling_mat [gt] dur false winlen hop = Ok [m] /\
    length m = (cc_count (sustain gt) + cc_count (sostenuto gt)
                + cc_count (soft gt))%nat /\
    forall r, In r m -> cc_row r.
Proof.
  unfold get_pedaling_mat. simpl. eexists. split; [reflexivity|].
  pose proof (sort_by_time_perm (cc_of_track gt)) as Hperm. split.
  - rewrite (Permutation_length Hperm). unfold cc_of_track, cc_count.
    cbv zeta. rewrite !length_app, !zip4_length.
    unfold minus_ones. rewrite !repeat_length. lia.
  - intros r Hr. apply (Permutation_in r Hperm) in Hr.
    unfold cc_of_track in Hr. cbv zeta in Hr.
    apply in_app_or in Hr as [Hr|Hr]; [|apply in_app_or in Hr as [Hr|Hr]];
      apply zip4_rows in Hr as (x & y & z & u & -> & _ & Hy & Hz & Hu).
    + apply in_minus_ones in Hz, Hu. subst. exists x, y. auto.
    + apply in_minus_ones in Hy, Hu. subst. exists x, z. auto.
    + apply in_minus_ones in Hy, Hz. subst. exists x, u. auto.
Qed.

End PedalEvents.

(** ** asmd/dataset_utils.py: frames of the pedals *)

Section PedalFrames.

Import dataset_utils.










Lemma time2frame_returns (t hop w : Q) :
  ~ (hop == 0)%Q ->
  utils.time2frame t hop w = Ok (py_round ((t - w / 2) / hop)%Q).
Proof.
  intros Hhop. unfold utils.time2frame.
  destruct (Qeq_bool hop 0) eqn:E; [|reflexivity].
  apply Qeq_bool_iff in E. contradiction.
Qed.







Lemma py_int_integer (x : Q) (k : Z) : (x == inject_Z k)%Q -> py_int x = k.
Proof.
  unfold py_int, Qeq. simpl. intros Hx. rewrite Z.mul_1_r in Hx.
  rewrite Hx. apply Z.quot_mul. discriminate.
Qed.

Lemma pow2_not_0 (h : Z) : ~ (pow2 h == 0)%Q.
Proof.
  unfold pow2. intros Hz.
  pose proof (Qpower_0_lt 2 h eq_refl) as Hpos. rewrite Hz in Hpos.
  discriminate Hpos.
Qed.

(** The number of frames of a song of [D] hops with a window of [2 * W]
    hops. *)
Lemma n_frames_of_hops (h D W : Z) :
  n_frames_of (hops h D) (hops h (2 * W)) (pow2 h) = D - 2 * W + 2.
Proof.
  unfold n_frames_of.
  rewrite (py_int_integer _ (D + - (2 * W) + 1)); [lia|].
  unfold hops. rewrite !inject_Z_plus, inject_Z_opp, !inject_Z_mult.
  field. apply pow2_not_0.
Qed.

(** The frame of a time of [T] hops with a window of [2 * W] hops. *)
Lemma time2frame_hops (h T W : Z) :
  utils.time2frame (hops h T) (pow2 h) (hops h (2 * W)) = Ok (T - W).
Proof.
  unfold utils.time2frame.
  destruct (Qeq_bool (pow2 h) 0) eqn:E;
    [apply Qeq_bool_iff in E; destruct (pow2_not_0 h E)|].
  replace (T - W) with (T + - W) by lia.
  f_equal. apply py_round_integer.
  unfold hops. rewrite inject_Z_plus, inject_Z_opp, !inject_Z_mult.
  field. apply pow2_not_0.
Qed.



Lemma argmax_first (v : Q) : (-1 <= v)%Q -> argmax [v; -1; -1]%Q = 0%nat.
Proof.
  intros Hv. unfold argmax. simpl.
  destruct (Qlt_le_dec v (-1)) as [Hlt|_]; [lra|].
  destruct (Qlt_le_dec v (-1)) as [Hlt|_]; [lra|]. reflexivity.
Qed.

(** The frames of a single change of the sustain pedal. *)
Lemma frame_track_one_sustain (dur w hop t v : Q) :
  ~ (hop == 0)%Q -> (-1 <= v)%Q -> 0 <= n_frames_of dur w hop ->
  frame_track dur w hop (sort_by_time (cc_of_track (gt_one_sustain t v)))
  = Ok (assign_slice
          (assign_slice
             (assign_slice
                (assign_slice
                   (blank_frames hop w (Z.to_nat (n_frames_of dur w hop)))
                   0 (Some (py_round ((t - w / 2) / hop)%Q)) 1 0%Q)
                (py_round ((t - w / 2) / hop)%Q) None 1 v)
             0 None 2 0%Q)
          0 None 3 0%Q).
Proof.
  intros Hhop Hv Hn. unfold frame_track, utils.nframes.
  destruct (Qeq_bool hop 0) eqn:E;
    [apply Qeq_bool_iff in E; contradiction|].
  cbn [rbind]. cbv zeta. fold (n_frames_of dur w hop).
  destruct (n_frames_of dur w hop <? 0) eqn:E0; zbool; [lia|].
  change (sort_by_time (cc_of_track (gt_one_sustain t v)))
    with [[t; v; -1; -1]%Q].
  cbn [for_each rbind apply_cc]. unfold cell at 1. cbn [nth].
  rewrite (time2frame_returns _ _ _ Hhop). cbn [rbind].
  cbn [drop]. rewrite (argmax_first v Hv). cbn [Nat.add].
  change (get_last last_values_init 1) with (Ok (mkLast 0 0%Q)).
  cbn [rbind l_time l_value]. unfold cell at 1. cbn [nth].
  change (0 <? len [[t; v; -1; -1]%Q]) with true. cbv iota.
  cbn [for_each hold_to_end rbind]. unfold get_last.
  rewrite lookup_insert_eq. cbn [for_each hold_to_end rbind l_time l_value].
  unfold get_last. rewrite lookup_insert_ne by discriminate.
  change (last_values_init !! 2%nat) with (Some (mkLast 0 0%Q)).
  cbn [for_each hold_to_end rbind l_time l_value].
  unfold get_last. rewrite lookup_insert_ne by discriminate.
  change (last_values_init !! 3%nat) with (Some (mkLast 0 0%Q)).
  cbn [for_each hold_to_end rbind l_time l_value fst]. reflexivity.
Qed.

(** In exact arithmetic, a single change of the sustain pedal to [v] at
    time [t] falls on frame [f = time2frame(t)]: a frame [f] that is not
    negative is the first to hold [v], a negative one is counted from the
    end by the slices. *)
Lemma one_sustain_exact (dur winlen hop t v : Q) :
  ~ (hop == 0)%Q -> (-1 <= v)%Q -> 0 <= n_frames_of dur winlen hop ->
  exists (m : matrix) (f : Z),
    utils.time2frame t hop winlen = Ok f /\
    get_pedaling_mat [gt_one_sustain t v] dur true winlen hop = Ok [m] /\
    length m = Z.to_nat (n_frames_of dur winlen hop) /\
    forall (i : nat) (r : list Q), m !! i = Some r ->
      (0 <= f -> cell r 1 = if f <=? Z.of_nat i then v else 0%Q) /\
      (f < 0 ->
       cell r 1
       = if Z.max (f + n_frames_of dur winlen hop) 0 <=? Z.of_nat i
         then v else 0%Q).
Proof.
  intros Hhop Hv Hn. eexists _, _.
  split; [apply (time2frame_returns _ _ _ Hhop)|].
  unfold get_pedaling_mat. cbn [for_each]. cbv zeta.
  rewrite (frame_track_one_sustain dur winlen hop t v Hhop Hv Hn).
  cbn [rbind app]. split; [reflexivity|].
  set (f := py_round ((t - winlen / 2) / hop)%Q).
  set (n := Z.to_nat (n_frames_of dur winlen hop)).
  split.
  - unfold assign_slice. rewrite !length_imap. unfold blank_frames.
    rewrite length_map, length_seq. reflexivity.
  - intros i r. rewrite !assign_slice_lookup, !assign_slice_len.
    unfold blank_frames, len. rewrite length_map, length_seq.
    rewrite list_lookup_fmap.
    destruct (seq 0 n !! i) as [k|] eqn:Hk; [|discriminate].
    apply lookup_seq in Hk as [-> Hin]. cbn [fmap option_fmap option_map].
    unfold slice_bound. change (0 <? 0) with false. cbv iota.
    assert (Z.of_nat n = n_frames_of dur winlen hop) as Hnn
      by (unfold n; lia).
    rewrite <- Hnn.
    destruct ((Z.min 0 (Z.of_nat n) <=? Z.of_nat i)
              && (Z.of_nat i <? (if f <? 0 then Z.max (f + Z.of_nat n) 0
                                 else Z.min f (Z.of_nat n))));
    destruct (((if f <? 0 then Z.max (f + Z.of_nat n) 0
                else Z.min f (Z.of_nat n)) <=? Z.of_nat i)
              && (Z.of_nat i <? Z.of_nat n)) eqn:E2;
    destruct ((Z.min 0 (Z.of_nat n) <=? Z.of_nat i)
              && (Z.of_nat i <? Z.of_nat n));
    intros [= <-]; unfold cell; cbn [insert list_insert nth];
    (split; intros Hf;
     [destruct (f <=? Z.of_nat i) eqn:E3
     |destruct (Z.max (f + Z.of_nat n) 0 <=? Z.of_nat i) eqn:E3];
     try reflexivity; exfalso;
     destruct (f <? 0) eqn:E4;
     repeat match goal with
            | H : (_ && _) = false |- _ =>
                apply andb_false_iff in H; destruct H
            end;
     zbool; lia).
Qed.

(** X16. On times in whole hops: for a hop [2^h], a window of [2 * W]
    hops and a song of [D] hops, of magnitudes on which every operation of
    the code is exact, a single change of the sustain pedal to the integer
    [v >= -1] at the time of [T] hops falls on frame [T - W].  When
    [W <= T], the frames before frame [T - W] hold 0 and the frames from it
    on hold [v].  When [T < W] (the time is before the centre of the first
    frame) the slices count the negative frame from the end: only the last
    [W - T] frames hold [v], every frame before them holds 0. *)
Theorem get_pedaling_mat_one_sustain (h D W T v : Z) :
  Z.abs h <= 30 -> Z.abs D < 2 ^ 30 -> Z.abs W < 2 ^ 30 ->
  Z.abs T < 2 ^ 30 -> -1 <= v < 2 ^ 30 ->
  0 <= D - 2 * W + 2 ->
  exists m : matrix,
    utils.time2frame (hops h T) (pow2 h) (hops h (2 * W)) = Ok (T - W) /\
    get_pedaling_mat [gt_one_sustain (hops h T) (inject_Z v)] (hops h D) true
      (hops h (2 * W)) (pow2 h) = Ok [m] /\
    length m = Z.to_nat (D - 2 * W + 2) /\
    forall (i : nat) (r : list Q), m !! i = Some r ->
      (W <= T ->
       cell r 1 = if T - W <=? Z.of_nat i then inject_Z v else 0%Q) /\
      (T < W ->
       cell r 1
       = if Z.max (T - W + (D - 2 * W + 2)) 0 <=? Z.of_nat i
         then inject_Z v else 0%Q).
Proof.
  intros _ _ _ _ [Hv _] Hn.
  rewrite <- (n_frames_of_hops h D W) in Hn |- *.
  destruct (one_sustain_exact (hops h D) (hops h (2 * W)) (pow2 h)
              (hops h T) (inject_Z v) (pow2_not_0 h))
    as (m & f & Hf & Hm & Hl & Hrows);
    [unfold Qle; simpl; lia|exact Hn|].
  rewrite time2frame_hops in Hf. injection Hf as <-.
  exists m. split; [apply time2frame_hops|]. split; [exact Hm|].
  split; [exact Hl|].
  intros i r Hr. destruct (Hrows i r Hr) as [Hpos Hneg].
  split; intros HT; [apply Hpos|apply Hneg]; lia.
Qed.

(** With a hop of 1/2 and a window of 2, a change at time 0 falls on frame
    -2: of the 8 frames of a song of 5, the last two alone hold the
    value. *)
Lemma get_pedaling_mat_one_sustain_witness :
  exists m : matrix,
    get_pedaling_mat [gt_one_sustain (hops (-1) 0) (inject_Z 100)]
      (hops (-1) 10) true (hops (-1) (2 * 2)) (pow2 (-1)) = Ok [m] /\
    length m = 8%nat /\
    forall (i : nat) (r : list Q), m !! i = Some r ->
      cell r 1 = if 6 <=? Z.of_nat i then inject_Z 100 else 0%Q.
Proof.
  destruct (get_pedaling_mat_one_sustain (-1) 10 2 0 100)
    as (m & _ & Hm & Hl & Hrows); try lia.
  exists m. split; [exact Hm|]. split; [exact Hl|].
  intros i r Hr. destruct (Hrows i r Hr) as [_ H].
  exact (H ltac:(lia)).
Defined.

End PedalFrames.

(** ** asmd/dataset_utils.py: what filter selects and what it changes *)

Section FilterSelection.

Import dataset_utils.

Variable cr : criteria.

Lemma filter_songs_exact (songs : list Song) (st st' : song_state) :
  for_each (filter_song cr) songs st = Ok st' ->
  st' = (st.1.1 + length (flat_map (song_rows cr) songs),
         st.1.2 ++ flat_map (song_rows cr) songs,
         st.2 ++ map (filtered_song cr) songs)%nat.
Proof.
  revert st. induction songs as [|song songs IH]; intros [[e ps] vis] Hrun.
  - injection Hrun as <-. simpl. rewrite !app_nil_r, Nat.add_0_r.
    reflexivity.
  - cbn [for_each] in Hrun. unfold filter_song at 1 in Hrun.
    unfold song_rows, filtered_song, song_passes. cbn [flat_map map].
    destruct (song_flag cr song) as [[|]|e0]; cbn [rbind] in Hrun;
      [|apply IH in Hrun|discriminate].
    + destruct (song_row cr song) as [row|e1]; cbn [rbind] in Hrun;
        [|discriminate].
      apply IH in Hrun. rewrite Hrun. simpl.
      rewrite <- !app_assoc. simpl.
      rewrite Nat.add_succ_r. reflexivity.
    + rewrite Hrun. simpl. rewrite <- !app_assoc. reflexivity.
Qed.

Lemma filter_dataset_exact (st st' : filter_state) (d : Dataset) :
  filter_dataset cr st d = Ok st' ->
  st_paths st'
  = st_paths st ++ (if passes cr d
                    then flat_map (song_rows cr) (d_songs d) else []) /\
  st_visited st' = st_visited st ++ [filtered_dataset cr d].
Proof.
  unfold filter_dataset, passes, filtered_dataset, passes. intros Hrun.
  destruct (dataset_flag cr d) as [[|]|e]; cbn [rbind] in Hrun;
    [| |discriminate].
  - destruct (for_each (filter_song cr) (d_songs d)
                (st_end st, st_paths st, [])) as [r|e] eqn:Hs;
      cbn [rbind] in Hrun; [|discriminate].
    apply filter_songs_exact in Hs. subst r. simpl in Hrun.
    injection Hrun as <-. simpl. split; reflexivity.
  - injection Hrun as <-. simpl. rewrite app_nil_r. split; reflexivity.
Qed.

Lemma filter_datasets_exact (ds : list Dataset) (st st' : filter_state) :
  for_each (filter_dataset cr) ds st = Ok st' ->
  st_paths st' = st_paths st ++ selected_rows cr ds /\
  st_visited st' = st_visited st ++ map (filtered_dataset cr) ds.
Proof.
  revert st. induction ds as [|d ds IH]; intros st Hrun.
  - injection Hrun as <-. simpl. rewrite !app_nil_r. split; reflexivity.
  - cbn [for_each] in Hrun.
    destruct (filter_dataset cr st d) as [st1|e] eqn:Hstep;
      cbn [rbind] in Hrun; [|discriminate].
    apply filter_dataset_exact in Hstep as [Hp Hv].
    apply IH in Hrun as [Hp' Hv'].
    rewrite Hp', Hv', Hp, Hv. simpl. rewrite <- !app_assoc.
    split; reflexivity.
Qed.

Lemma filter_exact (corpus orig ret : Corpus) :
  filter corpus cr = Ok (orig, ret) ->
  paths ret = selected_rows cr (datasets corpus) /\
  datasets ret = map (filtered_dataset cr) (datasets corpus).
Proof.
  unfold filter. intros Hrun.
  destruct (for_each (filter_dataset cr) (datasets corpus)
              (mkState 0 [] (chunks corpus) [])) as [st|e] eqn:Hloop;
    cbn [rbind] in Hrun; [|discriminate].
  injection Hrun as _ <-. simpl.
  apply filter_datasets_exact in Hloop as [Hp Hv]. simpl in Hp, Hv.
  split; assumption.
Qed.

End FilterSelection.

Section FilterProperties.

Import dataset_utils.

(** X17. The path list returned by [filter] holds exactly the rows of the
    songs that pass the song-level tests, in the datasets that pass the
    dataset-level tests, in the order of the corpus. *)
Theorem filter_paths_selected (corpus : Corpus) (cr : criteria)
    (orig ret : Corpus) :
  filter corpus cr = Ok (orig, ret) ->
  paths ret = selected_rows cr (datasets corpus).
Proof. intros Hrun. apply (filter_exact cr corpus orig ret Hrun). Qed.

Lemma filter_paths_selected_witness :
  exists orig ret : Corpus,
    filter corpus_A_B keep_B = Ok (orig, ret) /\
    paths ret = selected_rows keep_B (datasets corpus_A_B).
Proof.
  destruct (filter corpus_A_B keep_B) as [[orig ret]|e] eqn:E.
  - exists orig, ret. split; [reflexivity|].
    apply (filter_paths_selected corpus_A_B keep_B orig ret E).
  - vm_compute in E. discriminate E.
Defined.

Lemma filtered_song_narrowed (cr : criteria) (s : Song) :
  song_narrowed s (filtered_song cr s).
Proof.
  unfold filtered_song, song_narrowed.
  destruct (song_passes cr s); simpl; repeat split; auto; discriminate.
Qed.

Lemma Forall2_map_same {A} (R : A -> A -> Prop) (f : A -> A) (l : list A) :
  (forall x, R x (f x)) -> Forall2 R l (map f l).
Proof. intros H. induction l; simpl; constructor; auto. Qed.

Lemma filtered_dataset_narrowed (cr : criteria) (d : Dataset) :
  dataset_narrowed d (filtered_dataset cr d).
Proof.
  unfold filtered_dataset, dataset_narrowed.
  destruct (passes cr d); simpl; repeat split; auto; try discriminate.
  - apply Forall2_map_same. apply filtered_song_narrowed.
  - rewrite <- (map_id (d_songs d)) at 2. apply Forall2_map_same.
    intros s. unfold song_narrowed. repeat split; auto.
Qed.

(** X18. [filter] changes nothing of the datasets but flags [included],
    and never sets one: the datasets returned are those of the corpus in the
    same order, with the same names, ensemble flags, ground-truth levels
    and songs; a dataset or a song is included after the call only if it
    was before. *)
Theorem filter_only_narrows (corpus : Corpus) (cr : criteria)
    (orig ret : Corpus) :
  filter corpus cr = Ok (orig, ret) ->
  Forall2 dataset_narrowed (datasets corpus) (datasets ret).
Proof.
  intros Hrun. destruct (filter_exact cr corpus orig ret Hrun) as [_ ->].
  apply Forall2_map_same. apply filtered_dataset_narrowed.
Qed.

Lemma filter_only_narrows_witness :
  exists orig ret : Corpus,
    filter corpus_A_B keep_B = Ok (orig, ret) /\
    Forall2 dataset_narrowed (datasets corpus_A_B) (datasets ret).
Proof.
  destruct (filter corpus_A_B keep_B) as [[orig ret]|e] eqn:E.
  - exists orig, ret. split; [reflexivity|].
    apply (filter_only_narrows corpus_A_B keep_B orig ret E).
  - vm_compute in E. discriminate E.
Defined.

End FilterProperties.

(** ** asmd/dataset_utils.py: filtering again with the same criteria *)

Section FilterAgain.

Import dataset_utils.

Variable cr : criteria.

Lemma check_groups_excluded (groups : list string) (song : Song)
    (FLAG b : bool) :
  check_groups groups song FLAG = Ok b ->
  check_groups groups (exclude_song song) false = Ok false.
Proof.
  induction groups as [|g groups IH]; simpl; intros H; [reflexivity|].
  destruct (s_groups song) as [gs|]; simpl in *; [|discriminate].
  destruct (negb (str_in g gs)); [reflexivity|]. apply IH, H.
Qed.

(** A song that was excluded is excluded again, and the tests that raised
    nothing raise nothing. *)
Lemma song_flag_excluded (song : Song) (b : bool) :
  song_flag cr song = Ok b -> song_flag cr (exclude_song song) = Ok false.
Proof.
  unfold song_flag. simpl.
  destruct (c_instruments cr) as [|i rest];
    [|destruct (s_instruments song) as [si|]; [|discriminate]];
    cbn [rbind require];
    (destruct (c_composer cr) as [|a comp];
     [|destruct (s_composer song) as [sc|]; [|discriminate]]);
    cbn [rbind require];
    repeat match goal with
           | |- context [if ?c then _ else _] => destruct c
           end;
    intros H; eapply check_groups_excluded, H.
Qed.

Lemma check_ground_truth_excluded (reqs : list (string * Z)) (d : Dataset)
    (FLAG b : bool) :
  check_ground_truth reqs d FLAG = Ok b ->
  check_ground_truth reqs (exclude_dataset d) false = Ok false.
Proof.
  induction reqs as [|[gt v] reqs IH]; simpl; intros H; [reflexivity|].
  destruct (d_ground_truth d) as [m|]; simpl in *; [|discriminate].
  destruct (m !! gt) as [x|]; simpl in *; [|discriminate].
  destruct (negb (x =? v)); [reflexivity|]. apply IH, H.
Qed.

Lemma check_ground_truth_fields (reqs : list (string * Z)) (d d' : Dataset)
    (FLAG : bool) :
  d_ground_truth d' = d_ground_truth d ->
  check_ground_truth reqs d' FLAG = check_ground_truth reqs d FLAG.
Proof.
  intros Hgt. induction reqs as [|[gt v] reqs IH]; simpl; [reflexivity|].
  rewrite Hgt, IH. reflexivity.
Qed.

Lemma dataset_flag_excluded (d : Dataset) (b : bool) :
  dataset_flag cr d = Ok b ->
  dataset_flag cr (exclude_dataset d) = Ok false \/
  dataset_flag cr (exclude_dataset d) = Ok b.
Proof.
  unfold dataset_flag. simpl.
  destruct (0 <? len (c_datasets cr)).
  - intros H. right. rewrite <- H.
    destruct (c_ensemble cr) as [e|];
      [destruct (d_ensemble d) as [e'|]; [|reflexivity]|];
      cbn [rbind require]; apply check_ground_truth_fields; reflexivity.
  - intros H. left. revert H.
    destruct (c_ensemble cr) as [e|];
      [destruct (d_ensemble d) as [e'|]; [|discriminate]|];
      cbn [rbind require];
      repeat match goal with
             | |- context [if ?c then _ else _] => destruct c
             end;
      intros H; eapply check_ground_truth_excluded, H.
Qed.

Lemma dataset_flag_with_songs (d : Dataset) (ss : list Song) :
  dataset_flag cr (with_songs d ss) = dataset_flag cr d.
Proof.
  unfold dataset_flag. simpl.
  destruct (c_ensemble cr) as [e|];
    [destruct (d_ensemble d) as [e'|]; [|reflexivity]|];
    cbn [rbind require]; apply check_ground_truth_fields; reflexivity.
Qed.

(** The loop over the songs, run again on the songs it has left. *)
Lemma refilter_songs (songs : list Song) (st st' : song_state) :
  for_each (filter_song cr) songs st = Ok st' ->
  forall vis2 : list Song,
    for_each (filter_song cr) (map (filtered_song cr) songs)
      (st.1.1, st.1.2, vis2)
    = Ok (st'.1.1, st'.1.2, vis2 ++ map (filtered_song cr) songs).
Proof.
  revert st. induction songs as [|song songs IH]; intros [[e ps] vis] Hrun vis2.
  - injection Hrun as <-. simpl. rewrite app_nil_r. reflexivity.
  - cbn [for_each] in Hrun. unfold filter_song at 1 in Hrun.
    cbn [map for_each fst snd].
    destruct (song_flag cr song) as [[|]|e0] eqn:Hf; cbn [rbind] in Hrun;
      [| |discriminate].
    + assert (filtered_song cr song = song) as ->
        by (unfold filtered_song, song_passes; rewrite Hf; reflexivity).
      unfold filter_song at 1. rewrite Hf. cbn [rbind].
      destruct (song_row cr song) as [row|e1]; cbn [rbind] in Hrun;
        [|discriminate].
      cbn [rbind]. pose proof (IH _ Hrun (vis2 ++ [song])) as Hrest.
      cbn [fst snd] in Hrest. rewrite Hrest. simpl.
      rewrite <- app_assoc. reflexivity.
    + assert (filtered_song cr song = exclude_song song) as ->
        by (unfold filtered_song, song_passes; rewrite Hf; reflexivity).
      unfold filter_song at 1.
      rewrite (song_flag_excluded song false Hf). cbn [rbind].
      pose proof (IH _ Hrun (vis2 ++ [exclude_song (exclude_song song)]))
        as Hrest.
      cbn [fst snd] in Hrest. rewrite Hrest. simpl.
      rewrite <- app_assoc. reflexivity.
Qed.

Lemma alter_insert_chunk (m : gmap string (nat * nat)) (k : string)
    (a b : nat) :
  alter (fun c : nat * nat => (fst c, b)) k (<[k := (a, a)]> m)
  = <[k := (a, b)]> m.
Proof.
  apply map_eq. intros k'. rewrite lookup_alter.
  destruct (decide (k = k')) as [->|Hne].
  - rewrite !lookup_insert_eq. reflexivity.
  - rewrite !lookup_insert_ne by exact Hne. reflexivity.
Qed.

(** One dataset, visited again: the same rows, the same chunk. *)
Lemma refilter_dataset (st st1 st2 : filter_state) (d : Dataset) :
  filter_dataset cr st d = Ok st1 ->
  st_end st2 = st_end st -> st_paths st2 = st_paths st ->
  exists (st2' : filter_state) (seg : list (string * (nat * nat))),
    filter_dataset cr st2 (filtered_dataset cr d) = Ok st2' /\
    st_end st2' = st_end st1 /\ st_paths st2' = st_paths st1 /\
    st_visited st2' = st_visited st2 ++ [filtered_dataset cr d] /\
    st_chunks st1
    = fold_left (fun m kv => <[fst kv := snd kv]> m) seg (st_chunks st) /\
    st_chunks st2'
    = fold_left (fun m kv => <[fst kv := snd kv]> m) seg (st_chunks st2).
Proof.
  intros Hrun He Hp. unfold filter_dataset in Hrun.
  unfold filtered_dataset, passes.
  destruct (dataset_flag cr d) as [[|]|e] eqn:Hf; cbn [rbind] in Hrun;
    [| |discriminate].
  - destruct (for_each (filter_song cr) (d_songs d)
                (st_end st, st_paths st, [])) as [r|e] eqn:Hs;
      cbn [rbind] in Hrun; [|discriminate].
    pose proof (refilter_songs _ _ _ Hs []) as Hagain.
    destruct r as [[e' ps'] songs']. simpl in Hrun, Hagain.
    injection Hrun as <-.
    unfold filter_dataset. rewrite dataset_flag_with_songs, Hf.
    cbn [rbind]. simpl. rewrite He, Hp, Hagain. cbn [rbind].
    eexists. exists [(d_name d, (st_end st, e'))].
    split; [reflexivity|]. simpl.
    rewrite !alter_insert_chunk. auto.
  - injection Hrun as <-.
    unfold filter_dataset.
    destruct (dataset_flag_excluded d false Hf) as [-> | ->]; cbn [rbind].
    + eexists. exists []. split; [reflexivity|]. simpl. auto.
    + eexists. exists []. split; [reflexivity|]. simpl. auto.
Qed.

(** The loop over the datasets, run again on the datasets it has left. *)
Lemma refilter_datasets (ds : list Dataset) (st st' st2 : filter_state) :
  for_each (filter_dataset cr) ds st = Ok st' ->
  st_end st2 = st_end st -> st_paths st2 = st_paths st ->
  exists (st2' : filter_state) (segs : list (string * (nat * nat))),
    for_each (filter_dataset cr) (map (filtered_dataset cr) ds) st2
    = Ok st2' /\
    st_end st2' = st_end st' /\ st_paths st2' = st_paths st' /\
    st_visited st2' = st_visited st2 ++ map (filtered_dataset cr) ds /\
    st_chunks st'
    = fold_left (fun m kv => <[fst kv := snd kv]> m) segs (st_chunks st) /\
    st_chunks st2'
    = fold_left (fun m kv => <[fst kv := snd kv]> m) segs (st_chunks st2).
Proof.
  revert st st2. induction ds as [|d ds IH]; intros st st2 Hrun He Hp.
  - injection Hrun as <-. exists st2, []. simpl. rewrite app_nil_r.
    repeat split; assumption.
  - cbn [for_each] in Hrun.
    destruct (filter_dataset cr st d) as [st1|e] eqn:Hstep;
      cbn [rbind] in Hrun; [|discriminate].
    destruct (refilter_dataset st st1 st2 d Hstep He Hp)
      as (st21 & seg & Hstep2 & He1 & Hp1 & Hv1 & Hc1 & Hc21).
    destruct (IH st1 st21 Hrun He1 Hp1)
      as (st2' & segs & Hrun2 & He2 & Hp2 & Hv2 & Hc2 & Hc22).
    exists st2', (seg ++ segs). cbn [map for_each]. rewrite Hstep2.
    cbn [rbind]. split; [exact Hrun2|].
    rewrite !fold_left_app, <- Hc1, <- Hc21, Hv2, Hv1, <- app_assoc.
    repeat split; assumption.
Qed.

Lemma fold_insert_over (segs : list (string * (nat * nat)))
    (m : gmap string (nat * nat)) :
  fold_left (fun m kv => <[fst kv := snd kv]> m) segs m
  = fold_left (fun m kv => <[fst kv := snd kv]> m) segs ∅ ∪ m.
Proof.
  induction segs as [|kv segs IH] using rev_ind.
  - simpl. rewrite (left_id_L ∅ (∪)). reflexivity.
  - rewrite !fold_left_app. simpl. rewrite IH.
    apply insert_union_l.
Qed.

Lemma fold_insert_twice (segs : list (string * (nat * nat)))
    (m : gmap string (nat * nat)) :
  fold_left (fun m kv => <[fst kv := snd kv]> m) segs
    (fold_left (fun m kv => <[fst kv := snd kv]> m) segs m)
  = fold_left (fun m kv => <[fst kv := snd kv]> m) segs m.
Proof.
  rewrite (fold_insert_over segs (fold_left _ segs m)).
  rewrite (fold_insert_over segs m).
  rewrite (assoc_L (∪)), (idemp_L (∪)). reflexivity.
Qed.

End FilterAgain.

Section FilterIdempotent.

Import dataset_utils.

(** X19. [filter] is idempotent: a call with the criteria of the call
    that returned a corpus, on that corpus, returns it as it is, with the
    same paths, chunks, datasets and flags, and raises nothing. *)
Theorem filter_idempotent (corpus : Corpus) (cr : criteria)
    (orig ret : Corpus) :
  filter corpus cr = Ok (orig, ret) ->
  filter ret cr = Ok (ret, ret).
Proof.
  unfold filter. intros Hrun.
  destruct (for_each (filter_dataset cr) (datasets corpus)
              (mkState 0 [] (chunks corpus) [])) as [st|e] eqn:Hloop;
    cbn [rbind] in Hrun; [|discriminate].
  injection Hrun as _ <-. simpl.
  pose proof (filter_datasets_exact cr _ _ _ Hloop) as [_ Hv].
  simpl in Hv. rewrite Hv.
  destruct (refilter_datasets cr _ _ _ (mkState 0 [] (st_chunks st) [])
              Hloop eq_refl eq_refl)
    as (st2 & segs & -> & _ & Hp & Hv2 & Hc & Hc2).
  cbn [rbind]. simpl in Hv2, Hc, Hc2.
  rewrite Hc in Hc2. rewrite fold_insert_twice in Hc2. rewrite <- Hc in Hc2.
  rewrite Hp, Hv2, Hc2, <- Hv. destruct (c_copy cr); reflexivity.
Qed.

Lemma filter_idempotent_witness :
  exists orig ret : Corpus,
    filter corpus_A_B keep_B = Ok (orig, ret) /\
    filter ret keep_B = Ok (ret, ret).
Proof.
  destruct (filter corpus_A_B keep_B) as [[orig ret]|e] eqn:E.
  - exists orig, ret. split; [reflexivity|].
    apply (filter_idempotent corpus_A_B keep_B orig ret E).
  - vm_compute in E. discriminate E.
Defined.

End FilterIdempotent.

(** ** convert_gt.py: what merge does to the store *)

Section MergeRuns.

Import convert_gt.

Lemma subscript_alloc (h : heap) (o : list val) (v x : val) (key : string) :
  subscript (h ++ [OList o]) v key = Ok x -> subscript h v key = Ok x.
Proof.
  destruct v as [| | |l]; simpl; try discriminate.
  destruct (decide (l < length h)%nat) as [Hlt|Hge].
  - rewrite lookup_app_l by exact Hlt. auto.
  - rewrite lookup_app_r by lia.
    destruct (l - length h)%nat as [|n]; simpl; discriminate.
Qed.

Lemma assoc_some_in (k : string) (es : list (string * val)) (v : val) :
  assoc k es = Some v -> In k (map fst es).
Proof.
  induction es as [|[k' v'] es IH]; simpl; [discriminate|].
  destruct (String.eqb k k') eqn:E; [|auto].
  apply String.eqb_eq in E. auto.
Qed.

Lemma assoc_set_same (k : string) (x : val) (es : list (string * val)) :
  assoc k (assoc_set k x es) = Some x.
Proof.
  induction es as [|[k' v'] es IH]; simpl.
  - rewrite String.eqb_refl. reflexivity.
  - destruct (String.eqb k k') eqn:E; simpl; rewrite E; [reflexivity|exact IH].
Qed.

(** One key of one record, whenever the body of the loop returns. *)
Lemma merge_key_run rec (d1 d2 : val) (h h' : heap) (key : string) :
  merge_key rec d1 d2 h key = Ok h' ->
  exists (l1 : nat) (es1 : list (string * val)) (v1 v2 : val),
    d1 = VRef l1 /\ h !! l1 = Some (ODict es1) /\
    assoc key es1 = Some v1 /\ subscript h d2 key = Ok v2 /\
    h' = <[l1 := ODict (assoc_set key (VRef (length h)) es1)]>
           (<[length h := OList [v1; v2]]> (h ++ [OList [v1]])).
Proof.
  unfold merge_key. intros Hrun.
  destruct d1 as [| | |l1]; try discriminate Hrun. simpl in Hrun.
  destruct (h !! l1) as [[xs|es1]|] eqn:H1; try discriminate Hrun.
  simpl in Hrun.
  destruct (assoc key es1) as [v1|] eqn:Hv1; [|discriminate Hrun].
  simpl in Hrun. rewrite lookup_new in Hrun.
  destruct (subscript (h ++ [OList [v1]]) d2 key) as [v2|e] eqn:Hv2;
    [|discriminate Hrun].
  simpl in Hrun. unfold append in Hrun. rewrite lookup_new in Hrun.
  simpl in Hrun.
  pose proof (lookup_lt_Some _ _ _ H1) as Hlt.
  rewrite list_lookup_insert_ne in Hrun by lia.
  rewrite (lookup_old _ _ _ _ H1) in Hrun.
  injection Hrun as <-.
  exists l1, es1, v1, v2. repeat split; try assumption.
  eapply subscript_alloc, Hv2.
Qed.

Lemma merge_key_evolves rec (d1 d2 : val) (h h' : heap) (key : string) :
  merge_key rec d1 d2 h key = Ok h' -> evolves h h'.
Proof.
  intros Hrun.
  destruct (merge_key_run rec d1 d2 h h' key Hrun)
    as (l1 & es1 & v1 & v2 & -> & H1 & Hv1 & _ & ->).
  pose proof (lookup_lt_Some _ _ _ H1) as Hlt1.
  split; [rewrite !length_insert, length_app; simpl; lia|]. split.
  - intros l xs Hl. pose proof (lookup_lt_Some _ _ _ Hl) as Hlt.
    assert (l <> l1) by congruence.
    rewrite !list_lookup_insert_ne by lia.
    apply lookup_old. exact Hl.
  - intros l es Hl. pose proof (lookup_lt_Some _ _ _ Hl) as Hlt.
    destruct (decide (l = l1)) as [->|Hne].
    + rewrite list_lookup_insert_eq
        by (rewrite length_insert, length_app; simpl; lia).
      eexists. split; [reflexivity|].
      rewrite assoc_set_keys by (eapply assoc_some_in, Hv1). congruence.
    + rewrite !list_lookup_insert_ne by lia.
      exists es. split; [apply lookup_old; exact Hl|reflexivity].
Qed.

Lemma for_each_evolves {A} (body : heap -> A -> result heap) (l : list A)
    (h h' : heap) :
  (forall s x s', body s x = Ok s' -> evolves s s') ->
  for_each body l h = Ok h' -> evolves h h'.
Proof.
  intros Hbody. revert h. induction l as [|x l IH]; intros h Hrun.
  - injection Hrun as <-. apply evolves_refl.
  - cbn [for_each] in Hrun.
    destruct (body h x) as [h1|e] eqn:Hstep; cbn [rbind] in Hrun;
      [|discriminate].
    eapply evolves_trans; [eapply Hbody, Hstep|apply IH, Hrun].
Qed.

Lemma merge_record_evolves rec (args : list val) (h h' : heap)
    (p : nat * val) :
  merge_record rec args h p = Ok h' -> evolves h h'.
Proof.
  unfold merge_record. apply for_each_evolves. intros s arg s'.
  unfold merge_arg. destruct (item s arg (fst p)) as [d2|e]; [|discriminate].
  cbn [rbind]. destruct (keys_of s (snd p)) as [keys|e]; [|discriminate].
  cbn [rbind]. apply for_each_evolves. intros s1 key s1'.
  apply merge_key_evolves.
Qed.

Lemma items_of_list_at (h : heap) (v : val) (xs : list val) :
  items_of h v = Ok xs -> list_at h v xs.
Proof.
  destruct v as [| | |l]; simpl; try discriminate.
  destruct (h !! l) as [[ys|es]|] eqn:Hl; try discriminate.
  intros [= <-]. exists l. auto.
Qed.

(** X20. The body of the loop over the keys, whenever it returns: the
    record of the first list gets, under the key, a new list of two items,
    the value it had and the value of the other record, whatever these
    values are; nothing else is allocated. *)
Theorem merge_key_pairs_values rec (d1 d2 : val) (h h' : heap)
    (key : string) :
  merge_key rec d1 d2 h key = Ok h' ->
  exists v1 v2 : val,
    subscript h d1 key = Ok v1 /\ subscript h d2 key = Ok v2 /\
    subscript h' d1 key = Ok (VRef (length h)) /\
    h' !! length h = Some (OList [v1; v2]) /\
    length h' = S (length h).
Proof.
  intros Hrun.
  destruct (merge_key_run rec d1 d2 h h' key Hrun)
    as (l1 & es1 & v1 & v2 & -> & H1 & Hv1 & Hv2 & ->).
  pose proof (lookup_lt_Some _ _ _ H1) as Hlt1.
  exists v1, v2. split; [simpl; rewrite H1; simpl; rewrite Hv1; reflexivity|].
  split; [exact Hv2|]. split; [|split].
  - simpl. rewrite list_lookup_insert_eq
      by (rewrite length_insert, length_app; simpl; lia).
    simpl. rewrite assoc_set_same. reflexivity.
  - rewrite list_lookup_insert_ne by lia.
    apply list_lookup_insert_eq. rewrite length_app. simpl. lia.
  - rewrite !length_insert, length_app. simpl. lia.
Qed.

Lemma merge_key_pairs_values_witness :
  exists (h' : heap) (v1 v2 : val),
    merge_key (merge 0) (VRef 1) (VRef 4) heap_two_records "pitches" = Ok h' /\
    subscript heap_two_records (VRef 1) "pitches" = Ok v1 /\
    subscript heap_two_records (VRef 4) "pitches" = Ok v2 /\
    subscript h' (VRef 1) "pitches" = Ok (VRef 6) /\
    h' !! 6%nat = Some (OList [v1; v2]) /\
    length h' = 7%nat.
Proof.
  destruct (merge_key (merge 0) (VRef 1) (VRef 4) heap_two_records "pitches")
    as [h'|e] eqn:E.
  - destruct (merge_key_pairs_values (merge 0) (VRef 1) (VRef 4)
                heap_two_records h' "pitches" E)
      as (v1 & v2 & H1 & H2 & H3 & H4 & H5).
    exists h', v1, v2. repeat split; assumption.
  - vm_compute in E. discriminate E.
Defined.

(** X21. [merge] of two lists or more, whenever it returns: the result is
    a new list object, which holds the items of the first list, so that the
    records are shared with it, not copied; every list object of the store
    is as it was, the argument lists among them; the dictionaries of the
    store keep their keys. *)
Theorem merge_shallow_copy (fuel : nat) (a0 a1 : val) (rest : list val)
    (h h' : heap) (r : val) :
  merge (S fuel) (a0 :: a1 :: rest) h = Ok (r, h') ->
  exists xs0 : list val,
    list_at h a0 xs0 /\
    r = VRef (length h) /\ h !! length h = None /\
    list_at h' r xs0 /\ list_at h' a0 xs0 /\
    evolves h h'.
Proof.
  cbn [merge]. intros Hrun.
  destruct (negb (forallb (is_list h) (a0 :: a1 :: rest)));
    [discriminate Hrun|].
  destruct (same_lengths h (a0 :: a1 :: rest)) as [same|e];
    [|discriminate Hrun].
  cbn [rbind] in Hrun. destruct (negb same); [discriminate Hrun|].
  assert ((len (a0 :: a1 :: rest) =? 1) = false) as Hlen.
  { apply Z.eqb_neq. unfold len. cbn [length]. lia. }
  rewrite Hlen in Hrun. cbn [first rbind] in Hrun.
  destruct (items_of h a0) as [xs0|e] eqn:H0; [|discriminate Hrun].
  cbn [rbind alloc] in Hrun. cbn [items_of] in Hrun.
  rewrite lookup_new in Hrun. cbn [rbind] in Hrun.
  destruct (for_each (merge_record (merge fuel) (a0 :: a1 :: rest))
              (enumerate xs0) (h ++ [OList xs0])) as [h2|e] eqn:Hloop;
    [|discriminate Hrun].
  cbn [rbind] in Hrun. injection Hrun as <- <-.
  apply items_of_list_at in H0.
  assert (evolves (h ++ [OList xs0]) h2) as He2.
  { eapply for_each_evolves; [|exact Hloop].
    intros s p s'. apply merge_record_evolves. }
  assert (evolves h h2) as He.
  { eapply evolves_trans; [apply evolves_alloc|exact He2]. }
  exists xs0. split; [exact H0|]. split; [reflexivity|].
  split; [apply lookup_ge_None_2; lia|].
  split; [|split; [|exact He]].
  - exists (length h). split; [reflexivity|].
    destruct He2 as (_ & Hs & _). apply Hs, lookup_new.
  - eapply list_at_evolves; eassumption.
Qed.

Lemma merge_shallow_copy_witness :
  exists (r : val) (h' : heap) (xs0 : list val),
    merge 1 [VRef 2; VRef 5] heap_two_records = Ok (r, h') /\
    list_at heap_two_records (VRef 2) xs0 /\
    r = VRef 6 /\ heap_two_records !! 6%nat = None /\
    list_at h' r xs0 /\ list_at h' (VRef 2) xs0 /\
    evolves heap_two_records h'.
Proof.
  destruct (merge 1 [VRef 2; VRef 5] heap_two_records) as [[r h']|e] eqn:E.
  - destruct (merge_shallow_copy 0 (VRef 2) (VRef 5) [] heap_two_records
                h' r E) as (xs0 & H).
    exists r, h', xs0. split; [reflexivity|exact H].
  - vm_compute in E. discriminate E.
Defined.

(** X22. [merge] with an argument that is not a list fails its first
    assertion, whatever the lengths of the others. *)
Theorem merge_rejects_non_list (fuel : nat) (args : list val) (h : heap)
    (a : val) :
  In a args -> is_list h a = false ->
  merge (S fuel) args h = Raise (AssertionError "Input types must be lists").
Proof.
  intros Hin Ha. cbn [merge].
  assert (forallb (is_list h) args = false) as ->; [|reflexivity].
  apply not_true_is_false. intros Hall.
  rewrite forallb_forall in Hall. rewrite (Hall a Hin) in Ha. discriminate Ha.
Qed.

Lemma merge_rejects_non_list_witness :
  merge 1 [VRef 2; VRef 4] heap_two_records
  = Raise (AssertionError "Input types must be lists").
Proof.
  apply (merge_rejects_non_list 0 [VRef 2; VRef 4] heap_two_records (VRef 4)).
  - simpl. auto.
  - reflexivity.
Defined.

End MergeRuns.
